(** * Search-and-cache engine of the unstructured P2P simulator

    A shallow embedding of [network.py], [utils/cache.py], the four search
    strategies under [algorithms/] and the dispatcher [run_search] of
    [main.py], followed by the properties of the specification that were
    checked against it.

    Python dictionaries are finite maps ([gmap]), Python sets are finite
    sets ([gset]), Python integers are [Z].  The objects a strategy holds
    references to (the network, the cache, the generator behind
    [random.choice]) live in a store that is threaded through a small
    state-and-exception monad. *)

From stdpp Require Import gmap strings list fin_maps.
From Stdlib Require Import ZArith Lia.

Open Scope string_scope.
Open Scope list_scope.

(** ** network.py *)

Module Network.

(** [class Network]: the attributes assigned by [__init__].  [graph] and
    [cache] are [defaultdict(set)] objects. *)
Record t := Build {
  num_nodes : Z;
  resources : gmap string (list string);
  edges : list (string * string);
  graph : gmap string (gset string);
  cache : gmap string (gset string)
}.

(** [d[k].add(x)] on a [defaultdict(set)]. *)
Definition dd_add (d : gmap string (gset string)) (k x : string)
  : gmap string (gset string) :=
  <[k := {[x]} ∪ default ∅ (d !! k)]> d.

(** [__init__]: both directions of every edge, then an empty adjacency
    set for every key of [resources] that no edge mentioned. *)
Definition init (num_nodes : Z) (resources : gmap string (list string))
    (edges : list (string * string)) : t :=
  let g0 := foldl (λ g e, dd_add (dd_add g e.1 e.2) e.2 e.1) ∅ edges in
  let g1 := map_fold (λ node _ g,
               match g !! node with
               | None => <[node := ∅]> g
               | Some _ => g
               end) g0 resources in
  {| num_nodes := num_nodes; resources := resources; edges := edges;
     graph := g1; cache := ∅ |}.

(** [self.graph.get(node, set())]: [get] does not insert the default. *)
Definition get_neighbors (self : t) (node : string) : gset string :=
  default ∅ (graph self !! node).

Definition get_degree (self : t) (node : string) : Z :=
  Z.of_nat (size (get_neighbors self node)).

(** [resource in self.resources.get(node, [])] *)
Definition has_resource (self : t) (node resource : string) : bool :=
  bool_decide (resource ∈ default [] (resources self !! node)).

(** [set(self.resources.keys())] *)
Definition get_all_nodes (self : t) : gset string :=
  dom (resources self).

(** The three methods below are the only ones that assign to the object. *)
Definition add_to_cache (self : t) (node resource : string) : t :=
  {| num_nodes := num_nodes self; resources := resources self;
     edges := edges self; graph := graph self;
     cache := dd_add (cache self) node resource |}.

Definition get_cache (self : t) (node : string) : gset string :=
  default ∅ (cache self !! node).

Definition clear_cache (self : t) : t :=
  {| num_nodes := num_nodes self; resources := resources self;
     edges := edges self; graph := graph self; cache := ∅ |}.

End Network.

(** ** utils/cache.py *)

Module Cache.

Record t := Build {
  cache : gmap string (gset string);
  negative_cache : gmap string (gset string)
}.

(** [Cache()] *)
Definition init : t := {| cache := ∅; negative_cache := ∅ |}.

(** [add]: the positive set of [node] is created on demand; the pair is
    discarded from the negative set when [node] has one. *)
Definition add (self : t) (node resource : string) : t :=
  let c1 := match cache self !! node with
            | None => <[node := ∅]> (cache self)
            | Some _ => cache self
            end in
  let c2 := <[node := {[resource]} ∪ default ∅ (c1 !! node)]> c1 in
  let n2 := match negative_cache self !! node with
            | Some s => <[node := s ∖ {[resource]}]> (negative_cache self)
            | None => negative_cache self
            end in
  {| cache := c2; negative_cache := n2 |}.

(** [add_negative]: the negative set of [node] is created on demand and
    gains the resource; the positive map is not looked at. *)
Definition add_negative (self : t) (node resource : string) : t :=
  let n1 := match negative_cache self !! node with
            | None => <[node := ∅]> (negative_cache self)
            | Some _ => negative_cache self
            end in
  {| cache := cache self;
     negative_cache := <[node := {[resource]} ∪ default ∅ (n1 !! node)]> n1 |}.

Definition has (self : t) (node resource : string) : bool :=
  bool_decide (resource ∈ default (∅ : gset string) (cache self !! node)).

Definition has_negative (self : t) (node resource : string) : bool :=
  bool_decide (resource ∈ default (∅ : gset string) (negative_cache self !! node)).

Definition get (self : t) (node : string) : gset string :=
  default ∅ (cache self !! node).

Definition clear (self : t) : t := {| cache := ∅; negative_cache := ∅ |}.

(** The inner loop of [update_from_network]. *)
Definition add_all (self : t) (node : string) (rs : list string) : t :=
  foldl (λ c resource, add c node resource) self rs.

(** [update_from_network]: one [add] per (node, resource) of
    [network.resources].  The dictionary is walked in the order of
    [map_to_list]; the beliefs that result do not depend on the order
    (see [Cache_has_update_from_network] below). *)
Definition update_from_network (self : t) (network : Network.t) : t :=
  foldl (λ c kv, add_all c kv.1 kv.2) self
        (map_to_list (Network.resources network)).

End Cache.

(** ** The store and the monad of the strategies *)

Inductive Exception :=
| ValueError (msg : string)
| IndexError (msg : string).

(** The outcome of a call: a value, a raised exception, or a loop model that
    used up its fuel (shown below never to happen at the fuel supplied). *)
Inductive Outcome (A : Type) :=
| Ok (a : A)
| Raise (e : Exception)
| OutOfFuel.
Arguments Ok {A} a.
Arguments Raise {A} e.
Arguments OutOfFuel {A}.

(** The objects a strategy can reach: the [Network], the [Cache] bound to
    its [cache] parameter, and the state of the [random] module, held as the
    sequence of the raw draws still to come. *)
Record Store := {
  st_network : Network.t;
  st_cache : Cache.t;
  st_random : nat → nat
}.

Definition M (A : Type) : Type := Store → Outcome A * Store.

Definition ret {A} (a : A) : M A := λ s, (Ok a, s).

Definition bind {A B} (m : M A) (f : A → M B) : M B :=
  λ s, match m s with
       | (Ok a, s') => f a s'
       | (Raise e, s') => (Raise e, s')
       | (OutOfFuel, s') => (OutOfFuel, s')
       end.

Definition raise {A} (e : Exception) : M A := λ s, (Raise e, s).
Definition out_of_fuel {A} : M A := λ s, (OutOfFuel, s).

Notation "x <- m ;; k" := (bind m (λ x, k))
  (at level 100, m at next level, right associativity, only parsing).
Notation "m ;;; k" := (bind m (λ _, k))
  (at level 100, right associativity, only parsing).

(** Calls on the objects of the store.  [network_call] is a call of one of
    the reading methods of the network; [network_update] is a call of a
    method that assigns to it ([add_to_cache], [clear_cache]). *)
Definition network_call {A} (f : Network.t → A) : M A :=
  λ s, (Ok (f (st_network s)), s).

Definition network_update (f : Network.t → Network.t) : M unit :=
  λ s, (Ok tt, {| st_network := f (st_network s); st_cache := st_cache s;
                  st_random := st_random s |}).

Definition cache_call {A} (f : Cache.t → A) : M A :=
  λ s, (Ok (f (st_cache s)), s).

Definition cache_update (f : Cache.t → Cache.t) : M unit :=
  λ s, (Ok tt, {| st_network := st_network s; st_cache := f (st_cache s);
                  st_random := st_random s |}).

(** [cache = ...]: binds the [cache] parameter to an object. *)
Definition cache_bind (c : Cache.t) : M unit := cache_update (λ _, c).

(** [random.choice(seq)]: [seq[k]] for a draw [k] below [len(seq)];
    [IndexError] on an empty sequence. *)
Definition random_choice (seq : list string) : M string :=
  λ s, let s' := {| st_network := st_network s; st_cache := st_cache s;
                    st_random := λ i, st_random s (S i) |} in
       match seq !! (st_random s 0 `mod` length seq)%nat with
       | Some x => (Ok x, s')
       | None => (Raise (IndexError "Cannot choose from an empty sequence"), s)
       end.

(** ** The Result Record: the dictionary every strategy returns.
    [all_visited] is [None] when the key is absent. *)
Record Result := {
  found : bool;
  messages : Z;
  nodes_visited : Z;
  path : list string;
  all_visited : option (list string)
}.

(** The record returned when the start node is not a node of the network. *)
Definition result_invalid_start : Result :=
  {| found := false; messages := 0; nodes_visited := 0; path := [];
     all_visited := None |}.

(** The record returned when the start node answers the query itself. *)
Definition result_at_start (start_node : string) : Result :=
  {| found := true; messages := 0; nodes_visited := 1; path := [start_node];
     all_visited := None |}.

(** Local variables of the two breadth-first strategies. *)
Record BfsVars := {
  bv_visited : gset string;
  bv_queue : list (string * Z * list string);
  bv_messages : Z;
  bv_nodes_visited : Z
}.

(** Local variables of the two walks. *)
Record WalkVars := {
  wv_current : string;
  wv_path : list string;
  wv_visited : gset string;
  wv_messages : Z;
  wv_steps : Z
}.

(** The nodes that occur in some adjacency set, and the number of iterations
    granted to the [while queue] loops: a node is queued at most once, when
    it is probed for the first time. *)
Definition all_neighbors (network : Network.t) : gset string :=
  ⋃ (map_to_list (Network.graph network)).*2.

Definition bfs_fuel (network : Network.t) : nat :=
  S (S (size (all_neighbors network))).

(** [visited], [queue], [messages] and [nodes_visited] when the traversal
    begins. *)
Definition bfs_init (start_node : string) : BfsVars :=
  {| bv_visited := {[start_node]};
     bv_queue := [(start_node, 0%Z, [start_node])];
     bv_messages := 0; bv_nodes_visited := 1 |}.

Section Strategies.

(** The order in which a [set] is iterated ([for n in s], [list(s)]) is an
    implementation detail of the interpreter; the strategies are modelled
    for an arbitrary one. *)
Variable set_iter : gset string → list string.

(** *** algorithms/flooding.py *)

(** [for neighbor in neighbors: ...] of [flooding]; [inl] is the [return]
    inside the loop. *)
Fixpoint flooding_for (resource : string) (ttl depth : Z) (path : list string)
    (neighbors : list string) (v : BfsVars) : M (Result + BfsVars) :=
  match neighbors with
  | [] => ret (inr v)
  | neighbor :: rest =>
      let messages := (bv_messages v + 1)%Z in
      if bool_decide (neighbor ∉ bv_visited v) then
        let visited := {[neighbor]} ∪ bv_visited v in
        let nodes_visited := (bv_nodes_visited v + 1)%Z in
        let new_path := path ++ [neighbor] in
        b <- network_call (λ n, Network.has_resource n neighbor resource) ;;
        if b then
          ret (inl {| found := true; messages := messages;
                      nodes_visited := nodes_visited; path := new_path;
                      all_visited := Some (set_iter visited) |})
        else
          let queue := if (depth + 1 <? ttl)%Z
                       then bv_queue v ++ [(neighbor, (depth + 1)%Z, new_path)]
                       else bv_queue v in
          flooding_for resource ttl depth path rest
            {| bv_visited := visited; bv_queue := queue;
               bv_messages := messages; bv_nodes_visited := nodes_visited |}
      else
        flooding_for resource ttl depth path rest
          {| bv_visited := bv_visited v; bv_queue := bv_queue v;
             bv_messages := messages; bv_nodes_visited := bv_nodes_visited v |}
  end.

(** [while queue: ...] of [flooding], followed by the final [return]. *)
Fixpoint flooding_while (fuel : nat) (resource : string) (ttl : Z)
    (v : BfsVars) : M Result :=
  match fuel with
  | O => out_of_fuel
  | S fuel' =>
      match bv_queue v with
      | [] =>
          ret {| found := false; messages := bv_messages v;
                 nodes_visited := bv_nodes_visited v;
                 path := set_iter (bv_visited v);
                 all_visited := Some (set_iter (bv_visited v)) |}
      | (current, depth, path) :: queue =>
          let v := {| bv_visited := bv_visited v; bv_queue := queue;
                      bv_messages := bv_messages v;
                      bv_nodes_visited := bv_nodes_visited v |} in
          if (depth >=? ttl)%Z then flooding_while fuel' resource ttl v
          else
            neighbors <- network_call (λ n, Network.get_neighbors n current) ;;
            r <- flooding_for resource ttl depth path (set_iter neighbors) v ;;
            match r with
            | inl result => ret result
            | inr v' => flooding_while fuel' resource ttl v'
            end
      end
  end.

Definition flooding (start_node resource : string) (ttl : Z) : M Result :=
  nodes <- network_call Network.get_all_nodes ;;
  if bool_decide (start_node ∉ nodes) then ret result_invalid_start
  else
    b <- network_call (λ n, Network.has_resource n start_node resource) ;;
    if b then ret (result_at_start start_node)
    else
      fuel <- network_call bfs_fuel ;;
      flooding_while fuel resource ttl (bfs_init start_node).

(** *** algorithms/informed_flooding.py *)

(** [if cache is None: cache = Cache(); cache.update_from_network(network)];
    a cache passed by the caller becomes the object of the store. *)
Definition cache_param (cache : option Cache.t) : M unit :=
  match cache with
  | None =>
      cache_bind Cache.init ;;;
      network <- network_call id ;;
      cache_update (λ c, Cache.update_from_network c network)
  | Some c => cache_bind c
  end.

(** The test of both list comprehensions:
    [cache.has(n, resource) or not cache.has_negative(n, resource)]. *)
Definition candidate (c : Cache.t) (resource n : string) : bool :=
  Cache.has c n resource || negb (Cache.has_negative c n resource).

Fixpoint informed_flooding_for (resource : string) (ttl depth : Z)
    (path : list string) (filtered_neighbors : list string) (v : BfsVars)
    : M (Result + BfsVars) :=
  match filtered_neighbors with
  | [] => ret (inr v)
  | neighbor :: rest =>
      let messages := (bv_messages v + 1)%Z in
      if bool_decide (neighbor ∉ bv_visited v) then
        let visited := {[neighbor]} ∪ bv_visited v in
        let nodes_visited := (bv_nodes_visited v + 1)%Z in
        let new_path := path ++ [neighbor] in
        b <- network_call (λ n, Network.has_resource n neighbor resource) ;;
        if b then
          cache_update (λ c, Cache.add c neighbor resource) ;;;
          ret (inl {| found := true; messages := messages;
                      nodes_visited := nodes_visited; path := new_path;
                      all_visited := None |})
        else
          cache_update (λ c, Cache.add_negative c neighbor resource) ;;;
          let queue := if (depth + 1 <? ttl)%Z
                       then bv_queue v ++ [(neighbor, (depth + 1)%Z, new_path)]
                       else bv_queue v in
          informed_flooding_for resource ttl depth path rest
            {| bv_visited := visited; bv_queue := queue;
               bv_messages := messages; bv_nodes_visited := nodes_visited |}
      else
        informed_flooding_for resource ttl depth path rest
          {| bv_visited := bv_visited v; bv_queue := bv_queue v;
             bv_messages := messages; bv_nodes_visited := bv_nodes_visited v |}
  end.

Fixpoint informed_flooding_while (fuel : nat) (resource : string) (ttl : Z)
    (v : BfsVars) : M Result :=
  match fuel with
  | O => out_of_fuel
  | S fuel' =>
      match bv_queue v with
      | [] =>
          ret {| found := false; messages := bv_messages v;
                 nodes_visited := bv_nodes_visited v;
                 path := set_iter (bv_visited v);
                 all_visited := None |}
      | (current, depth, path) :: queue =>
          let v := {| bv_visited := bv_visited v; bv_queue := queue;
                      bv_messages := bv_messages v;
                      bv_nodes_visited := bv_nodes_visited v |} in
          if (depth >=? ttl)%Z then informed_flooding_while fuel' resource ttl v
          else
            neighbors <- network_call (λ n, Network.get_neighbors n current) ;;
            filtered_neighbors <-
              cache_call (λ c, filter (λ n, candidate c resource n = true)
                                      (set_iter neighbors)) ;;
            r <- informed_flooding_for resource ttl depth path
                   filtered_neighbors v ;;
            match r with
            | inl result => ret result
            | inr v' => informed_flooding_while fuel' resource ttl v'
            end
      end
  end.

Definition informed_flooding (start_node resource : string) (ttl : Z)
    (cache : option Cache.t) : M Result :=
  cache_param cache ;;;
  nodes <- network_call Network.get_all_nodes ;;
  if bool_decide (start_node ∉ nodes) then ret result_invalid_start
  else
    known <- cache_call (λ c, Cache.has c start_node resource) ;;
    if known then ret (result_at_start start_node)
    else
      b <- network_call (λ n, Network.has_resource n start_node resource) ;;
      if b then
        cache_update (λ c, Cache.add c start_node resource) ;;;
        ret (result_at_start start_node)
      else
        fuel <- network_call bfs_fuel ;;
        informed_flooding_while fuel resource ttl (bfs_init start_node).

(** *** algorithms/random_walk.py *)

(** The record built from the local variables of a walk. *)
Definition walk_result (found : bool) (v : WalkVars) : Result :=
  {| found := found; messages := wv_messages v;
     nodes_visited := Z.of_nat (size (wv_visited v)); path := wv_path v;
     all_visited := None |}.

(** The assignments of one step to [next_node]. *)
Definition walk_step (v : WalkVars) (next_node : string) : WalkVars :=
  {| wv_current := next_node;
     wv_path := wv_path v ++ [next_node];
     wv_visited := if bool_decide (next_node ∉ wv_visited v)
                   then {[next_node]} ∪ wv_visited v else wv_visited v;
     wv_messages := (wv_messages v + 1)%Z;
     wv_steps := (wv_steps v + 1)%Z |}.

(** [while steps < ttl: ...] of [random_walk], followed by the final
    [return]; an empty neighbour list is the [break]. *)
Fixpoint random_walk_while (fuel : nat) (resource : string) (ttl : Z)
    (v : WalkVars) : M Result :=
  match fuel with
  | O => out_of_fuel
  | S fuel' =>
      if (wv_steps v <? ttl)%Z then
        s <- network_call (λ n, Network.get_neighbors n (wv_current v)) ;;
        let neighbors := set_iter s in
        match neighbors with
        | [] => ret (walk_result false v)
        | _ :: _ =>
            next_node <- random_choice neighbors ;;
            let v' := walk_step v next_node in
            b <- network_call
                   (λ n, Network.has_resource n (wv_current v') resource) ;;
            if b then ret (walk_result true v')
            else random_walk_while fuel' resource ttl v'
        end
      else ret (walk_result false v)
  end.

(** The walks take at most [ttl] steps. *)
Definition walk_fuel (ttl : Z) : nat := S (Z.to_nat ttl).

Definition walk_init (start_node : string) : WalkVars :=
  {| wv_current := start_node; wv_path := [start_node];
     wv_visited := {[start_node]}; wv_messages := 0; wv_steps := 0 |}.

Definition random_walk (start_node resource : string) (ttl : Z) : M Result :=
  nodes <- network_call Network.get_all_nodes ;;
  if bool_decide (start_node ∉ nodes) then ret result_invalid_start
  else
    b <- network_call (λ n, Network.has_resource n start_node resource) ;;
    if b then ret (result_at_start start_node)
    else random_walk_while (walk_fuel ttl) resource ttl (walk_init start_node).

(** *** algorithms/informed_random_walk.py *)

Fixpoint informed_random_walk_while (fuel : nat) (resource : string) (ttl : Z)
    (v : WalkVars) : M Result :=
  match fuel with
  | O => out_of_fuel
  | S fuel' =>
      if (wv_steps v <? ttl)%Z then
        s <- network_call (λ n, Network.get_neighbors n (wv_current v)) ;;
        let neighbors := set_iter s in
        match neighbors with
        | [] => ret (walk_result false v)
        | _ :: _ =>
            filtered <-
              cache_call (λ c, filter (λ n, candidate c resource n = true)
                                      neighbors) ;;
            let candidate_neighbors :=
              match filtered with
              | [] => neighbors
              | _ :: _ => filtered
              end in
            next_node <- random_choice candidate_neighbors ;;
            let v' := walk_step v next_node in
            b <- network_call
                   (λ n, Network.has_resource n (wv_current v') resource) ;;
            if b then
              cache_update (λ c, Cache.add c (wv_current v') resource) ;;;
              ret (walk_result true v')
            else
              cache_update
                (λ c, Cache.add_negative c (wv_current v') resource) ;;;
              informed_random_walk_while fuel' resource ttl v'
        end
      else ret (walk_result false v)
  end.

Definition informed_random_walk (start_node resource : string) (ttl : Z)
    (cache : option Cache.t) : M Result :=
  cache_param cache ;;;
  nodes <- network_call Network.get_all_nodes ;;
  if bool_decide (start_node ∉ nodes) then ret result_invalid_start
  else
    known <- cache_call (λ c, Cache.has c start_node resource) ;;
    if known then ret (result_at_start start_node)
    else
      b <- network_call (λ n, Network.has_resource n start_node resource) ;;
      if b then
        cache_update (λ c, Cache.add c start_node resource) ;;;
        ret (result_at_start start_node)
      else
        informed_random_walk_while (walk_fuel ttl) resource ttl
          (walk_init start_node).

(** *** main.py: [run_search] *)

(** [cache = Cache(); cache.update_from_network(network)] *)
Definition fresh_seeded_cache : M Cache.t :=
  network_call (λ n, Cache.update_from_network Cache.init n).

Definition run_search (algorithm start_node resource : string) (ttl : Z)
    : M Result :=
  if bool_decide (algorithm = "flooding") then
    flooding start_node resource ttl
  else if bool_decide (algorithm = "informed_flooding") then
    cache <- fresh_seeded_cache ;;
    informed_flooding start_node resource ttl (Some cache)
  else if bool_decide (algorithm = "random_walk") then
    random_walk start_node resource ttl
  else if bool_decide (algorithm = "informed_random_walk") then
    cache <- fresh_seeded_cache ;;
    informed_random_walk start_node resource ttl (Some cache)
  else
    raise (ValueError ("Algoritmo desconhecido: " +:+ algorithm)).

End Strategies.

(** ** Running the model: the ring of the specification's scenarios *)

Definition ring : Network.t :=
  Network.init 4
    (<["A" := ["x"]]> (<["B" := []]> (<["C" := ["y"]]> (<["D" := []]> ∅))))
    [("A", "B"); ("B", "C"); ("C", "D"); ("D", "A")].

(** A centre S that lacks y, with two neighbours P and Q that both hold it. *)
Definition star : Network.t :=
  Network.init 3
    (<["S" := ["x"]]> (<["P" := ["y"]]> (<["Q" := ["y"]]> ∅)))
    [("S", "P"); ("S", "Q")].

Definition store0 (network : Network.t) : Store :=
  {| st_network := network; st_cache := Cache.init; st_random := λ _, 0%nat |}.

(** ** Vocabulary of the properties *)

(** Every belief of the cache agrees with the network. *)
Definition cache_sound (network : Network.t) (c : Cache.t) : Prop :=
  ∀ n r,
    (Cache.has c n r = true → Network.has_resource network n r = true) ∧
    (Cache.has_negative c n r = true →
     Network.has_resource network n r = false).

(** Between two stores of one call: the network is the same object in the
    same state, and a cache that agreed with it still does. *)
Definition store_ok (s s' : Store) : Prop :=
  st_network s' = st_network s ∧
  (cache_sound (st_network s) (st_cache s) →
   cache_sound (st_network s) (st_cache s')).

(** What one [for] loop over the list [l] does to the local variables [v]
    of a breadth-first strategy: it returns a record ([inl]) or runs to its
    end ([inr]); the visited set only grows, by members of [l]; the queue
    grows by no more entries than the visited set; [nodes_visited] follows
    the size of the visited set; a loop that runs to its end counts one
    message per member of [l]. *)
Definition bfs_for_post (l : list string) (v : BfsVars)
    (r : Result + BfsVars) : Prop :=
  match r with
  | inl R =>
      found R = true ∧
      (bv_messages v < messages R ≤ bv_messages v + Z.of_nat (length l))%Z ∧
      ∃ V', bv_visited v ⊆ V' ∧ V' ⊆ bv_visited v ∪ list_to_set l ∧
            (nodes_visited R - Z.of_nat (size V') =
             bv_nodes_visited v - Z.of_nat (size (bv_visited v)))%Z
  | inr v' =>
      bv_visited v ⊆ bv_visited v' ∧
      bv_visited v' ⊆ bv_visited v ∪ list_to_set l ∧
      (length (bv_queue v') + size (bv_visited v) ≤
       length (bv_queue v) + size (bv_visited v'))%nat ∧
      (bv_nodes_visited v' - Z.of_nat (size (bv_visited v')) =
       bv_nodes_visited v - Z.of_nat (size (bv_visited v)))%Z ∧
      bv_messages v' = (bv_messages v + Z.of_nat (length l))%Z
  end.

(** Invariant of the [while] loop of a walk. *)
Definition walk_inv (v : WalkVars) : Prop :=
  (Z.of_nat (length (wv_path v)) - 1 = wv_messages v)%Z ∧
  wv_messages v = wv_steps v.

(** The record a walk returns when its loop is entered with [v]. *)
Definition walk_post (ttl : Z) (v : WalkVars) (R : Result) : Prop :=
  (Z.of_nat (length (path R)) - 1 = messages R)%Z ∧
  (messages R ≤ Z.max ttl (wv_steps v))%Z ∧
  all_visited R = None.

(** The depth of a queue entry. *)
Definition entry_depth (e : string * Z * list string) : Z := e.1.2.

(** The run with the smaller budget [t1] and the run with the larger one
    agree on everything but the queue, where the second run also holds the
    entries [E] the first one had no budget to queue.  The common part is
    sorted by level: entries of depth [d], then entries of depth [d + 1]. *)
Definition bfs_sim (t1 d : Z) (v1 v2 : BfsVars) : Prop :=
  bv_visited v1 = bv_visited v2 ∧
  bv_messages v1 = bv_messages v2 ∧
  bv_nodes_visited v1 = bv_nodes_visited v2 ∧
  ∃ A B E,
    bv_queue v1 = A ++ B ∧ bv_queue v2 = A ++ B ++ E ∧
    Forall (λ e, entry_depth e = d) A ∧
    Forall (λ e, entry_depth e = (d + 1)%Z) B ∧
    (d < t1)%Z ∧
    ((d + 1 < t1)%Z → E = []) ∧
    ((t1 ≤ d + 1)%Z → B = []).

(** Every neighbour is a node of the network: what the validation of the
    edges ensures. *)
Definition neighbors_are_nodes (network : Network.t) : Prop :=
  map_Forall (λ _ s, s ⊆ Network.get_all_nodes network) (Network.graph network).

(** What the validation checks of every edge: both ends are keys of
    [resources]. *)
Definition edges_valid (resources : gmap string (list string))
    (edges : list (string * string)) : Prop :=
  Forall (λ e, e.1 ∈ dom resources ∧ e.2 ∈ dom resources) edges.

(** A candidate at which the expansion goes on: it was visited before the
    expansion began, or it does not hold the resource. *)
Definition passed_over (network : Network.t) (resource : string)
    (v : BfsVars) (n : string) : Prop :=
  n ∈ bv_visited v ∨ Network.has_resource network n resource = false.

(** What the expansion of one node does with its candidate list [l].  It
    runs to its end ([inr]) only when every candidate is passed over, and
    has then probed them all.  Otherwise it returns a record ([inl]) at the
    first candidate [x] that is new and holds the resource: the candidates
    [l1] before [x] are all passed over, and the candidates [l2] after it
    are not counted. *)
Definition expansion_post (network : Network.t) (resource : string)
    (p l : list string) (v : BfsVars) (r : Result + BfsVars) : Prop :=
  match r with
  | inr v' =>
      Forall (passed_over network resource v) l ∧
      bv_messages v' = (bv_messages v + Z.of_nat (length l))%Z ∧
      bv_visited v' = bv_visited v ∪ list_to_set l
  | inl R =>
      ∃ l1 x l2,
        l = l1 ++ x :: l2 ∧ (x ∉ bv_visited v) ∧ (x ∉ l1) ∧
        Network.has_resource network x resource = true ∧
        Forall (passed_over network resource v) l1 ∧
        found R = true ∧
        messages R = (bv_messages v + Z.of_nat (length l1) + 1)%Z ∧
        path R = p ++ [x]
  end.

(** The record of a search that succeeds without leaving the start node. *)
Definition found_at_start (start_node : string) (R : Result) : Prop :=
  found R = true ∧ messages R = 0%Z ∧ nodes_visited R = 1%Z ∧
  path R = [start_node].

(** The store from which an informed strategy starts its work. *)
Definition cache_param_store (cache : option Cache.t) (s : Store) : Store :=
  {| st_network := st_network s;
     st_cache := match cache with
                 | None => Cache.update_from_network Cache.init (st_network s)
                 | Some c => c
                 end;
     st_random := st_random s |}.

(** How a walk ends: the record of an invalid start, or a path with one
    entry more than the messages sent, within the step budget. *)
Definition walk_outcome (network : Network.t) (start_node : string) (ttl : Z)
    (R : Result) : Prop :=
  (start_node ∉ Network.get_all_nodes network → R = result_invalid_start) ∧
  (start_node ∈ Network.get_all_nodes network →
   (Z.of_nat (length (path R)) - 1 = messages R)%Z ∧
   (messages R ≤ Z.max ttl 0)%Z).

(** The identifiers [run_search] dispatches on. *)
Definition recognized (algorithm : string) : Prop :=
  algorithm ∈ ["flooding"; "informed_flooding"; "random_walk";
               "informed_random_walk"].

Section Vocabulary.

Variable set_iter : gset string → list string.

(** The record a [while queue] loop returns when it is entered with [v]:
    the visited set [V'] it ends with stays inside [W], [nodes_visited]
    follows its size, and an unsuccessful search reports it as [path]. *)
Definition bfs_while_post (W : gset string) (v : BfsVars) (R : Result)
    : Prop :=
  (bv_messages v ≤ messages R)%Z ∧
  ∃ V', bv_visited v ⊆ V' ∧ V' ⊆ W ∧
        (nodes_visited R - Z.of_nat (size V') =
         bv_nodes_visited v - Z.of_nat (size (bv_visited v)))%Z ∧
        (found R = false → path R = set_iter V').

(** The three ways a breadth-first strategy ends. *)
Inductive bfs_outcome (network : Network.t) (start_node : string)
    (R : Result) : Prop :=
| bfs_invalid :
    start_node ∉ Network.get_all_nodes network →
    R = result_invalid_start → bfs_outcome network start_node R
| bfs_at_start :
    start_node ∈ Network.get_all_nodes network →
    R = result_at_start start_node → bfs_outcome network start_node R
| bfs_searched :
    start_node ∈ Network.get_all_nodes network →
    bfs_while_post (all_neighbors network ∪ {[start_node]})
      (bfs_init start_node) R →
    bfs_outcome network start_node R.

End Vocabulary.

(** ** network.py: [is_connected] *)

Section Connectivity.

Variable set_iter : gset string → list string.

(** [for neighbor in self.get_neighbors(current): ...] of [is_connected]. *)
Fixpoint is_connected_for (neighbors : list string) (visited : gset string)
    (queue : list string) : gset string * list string :=
  match neighbors with
  | [] => (visited, queue)
  | neighbor :: rest =>
      if bool_decide (neighbor ∉ visited)
      then is_connected_for rest ({[neighbor]} ∪ visited) (queue ++ [neighbor])
      else is_connected_for rest visited queue
  end.

(** [while queue: ...] of [is_connected]; [None] when the fuel runs out. *)
Fixpoint is_connected_while (fuel : nat) (self : Network.t)
    (visited : gset string) (queue : list string) : option (gset string) :=
  match fuel with
  | O => None
  | S fuel' =>
      match queue with
      | [] => Some visited
      | current :: queue' =>
          let '(visited', queue'') :=
            is_connected_for (set_iter (Network.get_neighbors self current))
              visited queue' in
          is_connected_while fuel' self visited' queue''
      end
  end.

(** [is_connected]: [True] for a network without nodes; otherwise a
    breadth-first traversal from the first node the node set yields, and
    the comparison of the number of visited nodes with the number of
    nodes. *)
Definition is_connected (self : Network.t) : option bool :=
  let nodes := Network.get_all_nodes self in
  match set_iter nodes with
  | [] => Some true
  | start :: _ =>
      match is_connected_while (bfs_fuel self) self {[start]} [start] with
      | Some visited => Some (bool_decide (size visited = size nodes))
      | None => None
      end
  end.

End Connectivity.

(** ** utils/validators.py *)

(** The configuration dictionary read from the JSON file; a field is [None]
    when its key is absent.  An edge is the list it is in the file. *)
Record Config := {
  cfg_num_nodes : option Z;
  cfg_min_neighbors : option Z;
  cfg_max_neighbors : option Z;
  cfg_resources : option (gmap string (list string));
  cfg_edges : option (list (list string))
}.

(** The entries of the list [errors].  Each constructor stands for the
    message the code formats from the same data:
    - [MissingField]: f"Campo obrigatório ausente: {field}"
    - [NumNodesMismatch]: f"num_nodes ({num_nodes}) não corresponde ao
      número de nós em resources ({len(resources)})"
    - [NoResources]: f"Nó {node} não possui recursos"
    - [InvalidEdge]: f"Aresta inválida: {edge}"
    - [SelfLoop]: f"Aresta inválida (self-loop): {node1} -> {node2}"
    - [UnknownNode]: f"Nó {node} não existe em resources"
    - [NotConnected]: "A rede não é conectada"
    - [DegreeBelow]: f"Nó {node} tem {degree} vizinhos, mas mínimo é
      {min_neighbors}"
    - [DegreeAbove]: f"Nó {node} tem {degree} vizinhos, mas máximo é
      {max_neighbors}"
    - [CreateError]: f"Erro ao criar rede: {str(e)}", [e] being the
      [ValueError] that unpacking [edge] into [node1, node2] raises. *)
Inductive ValidationMsg :=
| MissingField (field : string)
| NumNodesMismatch (num_nodes : Z) (len_resources : nat)
| NoResources (node : string)
| InvalidEdge (edge : list string)
| SelfLoop (node1 node2 : string)
| UnknownNode (node : string)
| NotConnected
| DegreeBelow (node : string) (degree min_neighbors : Z)
| DegreeAbove (node : string) (degree max_neighbors : Z)
| CreateError (edge : list string).

(** [if field not in config: errors.append(...)] for one field. *)
Definition missing {A} (field : string) (value : option A)
    : list ValidationMsg :=
  match value with
  | Some _ => []
  | None => [MissingField field]
  end.

(** [for field in required_fields: ...] *)
Definition missing_fields (config : Config) : list ValidationMsg :=
  missing "num_nodes" (cfg_num_nodes config) ++
  missing "min_neighbors" (cfg_min_neighbors config) ++
  missing "max_neighbors" (cfg_max_neighbors config) ++
  missing "resources" (cfg_resources config) ++
  missing "edges" (cfg_edges config).

(** The body of [for edge in edges: ...]. *)
Definition edge_errors (all_nodes : gset string) (edge : list string)
    : list ValidationMsg :=
  match edge with
  | [node1; node2] =>
      (if bool_decide (node1 = node2) then [SelfLoop node1 node2] else []) ++
      (if bool_decide (node1 ∉ all_nodes) then [UnknownNode node1] else []) ++
      (if bool_decide (node2 ∉ all_nodes) then [UnknownNode node2] else [])
  | _ => [InvalidEdge edge]
  end.

(** [for node1, node2 in edges] of [Network.__init__] on the edges as they
    are in the file: the pairs, or the first edge that is not one. *)
Fixpoint unpack_edges (edges : list (list string))
    : list string + list (string * string) :=
  match edges with
  | [] => inr []
  | edge :: rest =>
      match edge with
      | [node1; node2] =>
          match unpack_edges rest with
          | inr pairs => inr ((node1, node2) :: pairs)
          | inl bad => inl bad
          end
      | _ => inl edge
      end
  end.

(** The body of [for node in all_nodes: ...]. *)
Definition degree_errors (network : Network.t) (min_neighbors max_neighbors : Z)
    (node : string) : list ValidationMsg :=
  let degree := Network.get_degree network node in
  (if (degree <? min_neighbors)%Z
   then [DegreeBelow node degree min_neighbors] else []) ++
  (if (degree >? max_neighbors)%Z
   then [DegreeAbove node degree max_neighbors] else []).

Section Validation.

(** The orders in which a set and the items of a dictionary are iterated. *)
Variable set_iter : gset string → list string.
Variable dict_items :
  gmap string (list string) → list (string * list string).

(** [validate_network]: the pair [(is_valid, errors)]; [None] when the
    traversal of [is_connected] runs out of fuel. *)
Definition validate_network (config : Config)
    : option (bool * list ValidationMsg) :=
  match cfg_num_nodes config, cfg_min_neighbors config,
        cfg_max_neighbors config, cfg_resources config, cfg_edges config with
  | Some num_nodes, Some min_neighbors, Some max_neighbors,
    Some resources, Some edges =>
      let errors1 :=
        if bool_decide (num_nodes ≠ Z.of_nat (size resources))
        then [NumNodesMismatch num_nodes (size resources)] else [] in
      let errors2 :=
        flat_map (λ kv, match kv.2 with
                        | [] => [NoResources kv.1]
                        | _ :: _ => []
                        end) (dict_items resources) in
      let all_nodes := dom resources in
      let errors3 := flat_map (edge_errors all_nodes) edges in
      let errors4 :=
        match unpack_edges edges with
        | inl bad => Some [CreateError bad]
        | inr pairs =>
            let network := Network.init num_nodes resources pairs in
            match is_connected set_iter network with
            | None => None
            | Some connected =>
                Some ((if connected then [] else [NotConnected]) ++
                      flat_map (degree_errors network min_neighbors
                                  max_neighbors) (set_iter all_nodes))
            end
        end in
      match errors4 with
      | None => None
      | Some errors4 =>
          let errors := errors1 ++ errors2 ++ errors3 ++ errors4 in
          Some (bool_decide (errors = []), errors)
      end
  | _, _, _, _, _ => Some (false, missing_fields config)
  end.

End Validation.

(** ** Vocabulary of the further properties *)

(** [p] is a walk of the network: each node is followed by one of its
    neighbours. *)
Fixpoint is_walk (network : Network.t) (p : list string) : Prop :=
  match p with
  | [] => True
  | a :: rest =>
      match rest with
      | [] => True
      | b :: _ => b ∈ Network.get_neighbors network a ∧ is_walk network rest
      end
  end.

(** The record of a search that ends at the start node without a probe. *)
Definition nothing_probed (start_node : string) (R : Result) : Prop :=
  found R = false ∧ messages R = 0%Z ∧ nodes_visited R = 1%Z ∧
  path R = [start_node].

(** What the local variables of a walk record about the way so far. *)
Definition walk_trace_inv (network : Network.t) (start_node resource : string)
    (ttl : Z) (v : WalkVars) : Prop :=
  wv_visited v = list_to_set (wv_path v) ∧
  is_walk network (wv_path v) ∧
  head (wv_path v) = Some start_node ∧
  last (wv_path v) = Some (wv_current v) ∧
  Forall (λ n, Network.has_resource network n resource = false) (wv_path v) ∧
  wv_messages v = wv_steps v ∧
  (0 ≤ wv_steps v ≤ Z.max ttl 0)%Z.

(** What the record of a walk says about the way it took: the path is a
    walk of the network from the start node, [nodes_visited] counts its
    distinct nodes, a successful walk ends on the first node that holds the
    resource, and an unsuccessful one met no such node and stopped because
    the budget was used up or the last node has no neighbour. *)
Definition walk_trace_post (network : Network.t) (start_node resource : string)
    (ttl : Z) (R : Result) : Prop :=
  nodes_visited R = Z.of_nat (size (list_to_set (path R) : gset string)) ∧
  is_walk network (path R) ∧
  head (path R) = Some start_node ∧
  (found R = true →
   ∃ p t, path R = p ++ [t] ∧
          Network.has_resource network t resource = true ∧
          Forall (λ n, Network.has_resource network n resource = false) p) ∧
  (found R = false →
   Forall (λ n, Network.has_resource network n resource = false) (path R) ∧
   (messages R = Z.max ttl 0 ∨
    ∃ t, last (path R) = Some t ∧ Network.get_neighbors network t = ∅)).

(** [hops network a k b]: [b] is reached from [a] by [k] edges. *)
Inductive hops (network : Network.t) (a : string) : nat → string → Prop :=
| hops_0 : hops network a 0 a
| hops_S k b c :
    hops network a k b → c ∈ Network.get_neighbors network b →
    hops network a (S k) c.

(** [b] is at most [k] edges away from [a]. *)
Definition within (network : Network.t) (a : string) (k : nat) (b : string)
    : Prop :=
  ∃ j, (j ≤ k)%nat ∧ hops network a j b.

(** A queue entry of level [k]: the node, its depth [k], and a walk of [k]
    edges from the start node to it through visited nodes. *)
Definition entry_ok (network : Network.t) (start_node : string)
    (V : gset string) (k : nat) (e : string * Z * list string) : Prop :=
  e.1.2 = Z.of_nat k ∧ is_walk network e.2 ∧ head e.2 = Some start_node ∧
  last e.2 = Some e.1.1 ∧ length e.2 = S k ∧ (∀ x, x ∈ e.2 → x ∈ V).

(** The record of a successful breadth-first search: the path is a walk of
    the network from the start node, of at most [ttl] edges, whose last
    node holds the resource and whose other nodes do not. *)
Definition found_ok (network : Network.t) (start_node resource : string)
    (ttl : Z) (R : Result) : Prop :=
  ∃ q t, path R = q ++ [t] ∧ is_walk network (path R) ∧
         head (path R) = Some start_node ∧
         Network.has_resource network t resource = true ∧
         Forall (λ n, Network.has_resource network n resource = false) q ∧
         (Z.of_nat (length q) ≤ ttl)%Z.

(** The invariant of the [while queue] loop of [flooding]: the queue holds
    the entries [A] of level [k] still to expand, then the entries [B] of
    level [k + 1]; every node within [k] edges is visited; one that no
    longer waits in [A] has all its neighbours visited; the visited nodes
    beyond level [k] are the nodes of [B]; no visited node holds the
    resource. *)
Definition level_inv (network : Network.t) (start_node resource : string)
    (ttl : Z) (k : nat) (v : BfsVars) : Prop :=
  ∃ A B,
    bv_queue v = A ++ B ∧
    Forall (entry_ok network start_node (bv_visited v) k) A ∧
    Forall (entry_ok network start_node (bv_visited v) (S k)) B ∧
    (Z.of_nat k < ttl)%Z ∧
    ((ttl ≤ Z.of_nat k + 1)%Z → B = []) ∧
    (∀ b, within network start_node k b → b ∈ bv_visited v) ∧
    (∀ b, within network start_node k b → (∀ e, e ∈ A → e.1.1 ≠ b) →
          Network.get_neighbors network b ⊆ bv_visited v) ∧
    ((Z.of_nat k + 1 < ttl)%Z →
     ∀ b, b ∈ bv_visited v →
          within network start_node k b ∨ ∃ e, e ∈ B ∧ e.1.1 = b) ∧
    (∀ b, b ∈ bv_visited v → Network.has_resource network b resource = false).

(** The same while the neighbours [l] of the node [cur], taken from the
    front of [A] with its path [p], are still to be probed. *)
Definition expand_inv (network : Network.t) (start_node resource : string)
    (ttl : Z) (k : nat) (cur : string) (p l : list string) (v : BfsVars)
    : Prop :=
  ∃ A B,
    bv_queue v = A ++ B ∧
    Forall (entry_ok network start_node (bv_visited v) k) A ∧
    Forall (entry_ok network start_node (bv_visited v) (S k)) B ∧
    (Z.of_nat k < ttl)%Z ∧
    ((ttl ≤ Z.of_nat k + 1)%Z → B = []) ∧
    (∀ b, within network start_node k b → b ∈ bv_visited v) ∧
    (∀ b, within network start_node k b → (∀ e, e ∈ A → e.1.1 ≠ b) →
          b ≠ cur → Network.get_neighbors network b ⊆ bv_visited v) ∧
    ((Z.of_nat k + 1 < ttl)%Z →
     ∀ b, b ∈ bv_visited v →
          within network start_node k b ∨ ∃ e, e ∈ B ∧ e.1.1 = b) ∧
    (∀ b, b ∈ bv_visited v → Network.has_resource network b resource = false) ∧
    entry_ok network start_node (bv_visited v) k (cur, Z.of_nat k, p) ∧
    (∀ x, x ∈ l → x ∈ Network.get_neighbors network cur) ∧
    (∀ x, x ∈ Network.get_neighbors network cur → x ∈ bv_visited v ∨ x ∈ l).

(** The local variables of [informed_flooding] against those of [flooding]
    on the same search: the same visited set, queue and count of nodes, and
    no more messages. *)
Definition informed_sim (vb vi : BfsVars) : Prop :=
  bv_visited vi = bv_visited vb ∧ bv_queue vi = bv_queue vb ∧
  bv_nodes_visited vi = bv_nodes_visited vb ∧
  (bv_messages vi ≤ bv_messages vb)%Z.

(** The same for the records returned. *)
Definition informed_result_sim (Rb Ri : Result) : Prop :=
  found Ri = found Rb ∧ path Ri = path Rb ∧
  nodes_visited Ri = nodes_visited Rb ∧ (messages Ri ≤ messages Rb)%Z.

(** Every node the cache believes to lack the resource has been visited. *)
Definition negatives_visited (c : Cache.t) (resource : string)
    (V : gset string) : Prop :=
  ∀ n, Cache.has_negative c n resource = true → n ∈ V.

(** How a search for [resource] may change a cache from [c] to [c']: the
    beliefs about other resources stay; no positive belief is dropped, and
    a negative one only about a node that holds the resource; a new
    positive belief is about a node that holds the resource, a new negative
    one about a node that does not. *)
Definition cache_extends (network : Network.t) (resource : string)
    (c c' : Cache.t) : Prop :=
  ∀ n r,
    (r ≠ resource →
     Cache.has c' n r = Cache.has c n r ∧
     Cache.has_negative c' n r = Cache.has_negative c n r) ∧
    (Cache.has c n r = true → Cache.has c' n r = true) ∧
    (Cache.has_negative c n r = true →
     Network.has_resource network n r = false →
     Cache.has_negative c' n r = true) ∧
    (Cache.has c' n r = true →
     Cache.has c n r = true ∨ Network.has_resource network n r = true) ∧
    (Cache.has_negative c' n r = true →
     Cache.has_negative c n r = true ∨
     Network.has_resource network n r = false).

(** An edge as the list it is in the configuration file. *)
Definition pair_list (e : string * string) : list string := [e.1; e.2].

(** What [validate_network] accepts: all five fields are there; [num_nodes]
    is the number of nodes; every node has a resource; every edge is a pair
    of two different nodes; every node can be reached from every node; and
    every degree lies between [min_neighbors] and [max_neighbors]. *)
Definition config_accepted (config : Config) : Prop :=
  ∃ num_nodes min_neighbors max_neighbors resources pairs,
    cfg_num_nodes config = Some num_nodes ∧
    cfg_min_neighbors config = Some min_neighbors ∧
    cfg_max_neighbors config = Some max_neighbors ∧
    cfg_resources config = Some resources ∧
    cfg_edges config = Some (pair_list <$> pairs) ∧
    num_nodes = Z.of_nat (size resources) ∧
    (∀ n rs, resources !! n = Some rs → rs ≠ []) ∧
    Forall (λ e, e.1 ≠ e.2 ∧ e.1 ∈ dom resources ∧ e.2 ∈ dom resources)
           pairs ∧
    let network := Network.init num_nodes resources pairs in
    (∀ a b, a ∈ dom resources → b ∈ dom resources →
            ∃ k, hops network a k b) ∧
    (∀ n, n ∈ dom resources →
          (min_neighbors ≤ Network.get_degree network n ≤ max_neighbors)%Z).

(** Two configurations: the ring of the specification's scenarios, whose
    nodes B and D hold nothing, and the same ring with a resource on every
    node. *)
Definition ring_config : Config :=
  {| cfg_num_nodes := Some 4%Z; cfg_min_neighbors := Some 1%Z;
     cfg_max_neighbors := Some 3%Z;
     cfg_resources := Some (Network.resources ring);
     cfg_edges := Some [["A"; "B"]; ["B"; "C"]; ["C"; "D"]; ["D"; "A"]] |}.

Definition full_ring_config : Config :=
  {| cfg_num_nodes := Some 4%Z; cfg_min_neighbors := Some 1%Z;
     cfg_max_neighbors := Some 3%Z;
     cfg_resources :=
       Some (<["A" := ["x"]]> (<["B" := ["w"]]> (<["C" := ["y"]]>
              (<["D" := ["v"]]> ∅))));
     cfg_edges := Some [["A"; "B"]; ["B"; "C"]; ["C"; "D"]; ["D"; "A"]] |}.

(** The nodes of the entries of a queue. *)
Definition queue_nodes (q : list (string * Z * list string)) : list string :=
  q.*1.*1.

(** The sum of the degrees of the nodes of [X]. *)
Definition degree_sum (network : Network.t) (X : gset string) : nat :=
  sum_list_with (λ n, size (Network.get_neighbors network n)) (elements X).

(** The invariant behind the bound on the messages: no node is queued
    twice, the queued nodes are visited, and the messages sent so far are
    paid for by the degrees of the visited nodes [X] that are not
    queued. *)
Definition cost_inv (network : Network.t) (W X : gset string) (v : BfsVars)
    : Prop :=
  NoDup (queue_nodes (bv_queue v)) ∧
  (∀ x, x ∈ queue_nodes (bv_queue v) → x ∈ bv_visited v) ∧
  bv_visited v ⊆ W ∧ X ⊆ bv_visited v ∧
  (∀ x, x ∈ queue_nodes (bv_queue v) → x ∉ X) ∧
  (bv_messages v ≤ Z.of_nat (degree_sum network X))%Z.

(** What one [for] loop over [l] does to the queue and the messages. *)
Definition cost_for_post (l : list string) (v : BfsVars)
    (r : Result + BfsVars) : Prop :=
  match r with
  | inl R => (messages R ≤ bv_messages v + Z.of_nat (length l))%Z
  | inr v' =>
      NoDup (queue_nodes (bv_queue v')) ∧
      (∀ x, x ∈ queue_nodes (bv_queue v') → x ∈ bv_visited v') ∧
      (∀ x, x ∈ queue_nodes (bv_queue v') →
            x ∈ queue_nodes (bv_queue v) ∨ x ∉ bv_visited v) ∧
      bv_visited v ⊆ bv_visited v' ∧
      bv_visited v' ⊆ bv_visited v ∪ list_to_set l ∧
      bv_messages v' = (bv_messages v + Z.of_nat (length l))%Z
  end.

(** * Properties *)

(** ** The cache *)

Lemma Cache_has_add c n r n' r' :
  Cache.has (Cache.add c n r) n' r' = true ↔
  (n' = n ∧ r' = r) ∨ Cache.has c n' r' = true.
Proof.
  unfold Cache.has, Cache.add; simpl.
  rewrite !bool_decide_eq_true.
  destruct (decide (n' = n)) as [->|Hne].
  - rewrite lookup_insert_eq; simpl.
    destruct (Cache.cache c !! n) eqn:E; simpl.
    + rewrite E; simpl. set_solver.
    + rewrite lookup_insert_eq; simpl. set_solver.
  - rewrite lookup_insert_ne by done.
    destruct (Cache.cache c !! n) eqn:E; simpl.
    + naive_solver.
    + rewrite lookup_insert_ne by done. naive_solver.
Qed.

Lemma Cache_has_negative_add c n r n' r' :
  Cache.has_negative (Cache.add c n r) n' r' = true ↔
  ¬ (n' = n ∧ r' = r) ∧ Cache.has_negative c n' r' = true.
Proof.
  unfold Cache.has_negative, Cache.add; simpl.
  rewrite !bool_decide_eq_true.
  destruct (Cache.negative_cache c !! n) eqn:E.
  - destruct (decide (n' = n)) as [->|Hne].
    + rewrite lookup_insert_eq, E; simpl. set_solver.
    + rewrite lookup_insert_ne by done. naive_solver.
  - destruct (decide (n' = n)) as [->|Hne].
    + rewrite E; simpl. set_solver.
    + naive_solver.
Qed.

Lemma Cache_has_add_negative c n r n' r' :
  Cache.has (Cache.add_negative c n r) n' r' = Cache.has c n' r'.
Proof. reflexivity. Qed.

Lemma Cache_has_negative_add_negative c n r n' r' :
  Cache.has_negative (Cache.add_negative c n r) n' r' = true ↔
  (n' = n ∧ r' = r) ∨ Cache.has_negative c n' r' = true.
Proof.
  unfold Cache.has_negative, Cache.add_negative; simpl.
  rewrite !bool_decide_eq_true.
  destruct (decide (n' = n)) as [->|Hne].
  - rewrite lookup_insert_eq; simpl.
    destruct (Cache.negative_cache c !! n) eqn:E; simpl.
    + rewrite E; simpl. set_solver.
    + rewrite lookup_insert_eq; simpl. set_solver.
  - rewrite lookup_insert_ne by done.
    destruct (Cache.negative_cache c !! n) eqn:E; simpl.
    + naive_solver.
    + rewrite lookup_insert_ne by done. naive_solver.
Qed.

Lemma Cache_has_init n r : Cache.has Cache.init n r = false.
Proof. reflexivity. Qed.

Lemma Cache_has_negative_init n r : Cache.has_negative Cache.init n r = false.
Proof. reflexivity. Qed.

Lemma cache_sound_init network : cache_sound network Cache.init.
Proof. intros n r. rewrite Cache_has_init, Cache_has_negative_init. done. Qed.

Lemma cache_sound_add network c n r :
  Network.has_resource network n r = true →
  cache_sound network c → cache_sound network (Cache.add c n r).
Proof.
  intros Hn Hc n' r'. rewrite Cache_has_add, Cache_has_negative_add.
  destruct (Hc n' r'). naive_solver.
Qed.

Lemma cache_sound_add_negative network c n r :
  Network.has_resource network n r = false →
  cache_sound network c → cache_sound network (Cache.add_negative c n r).
Proof.
  intros Hn Hc n' r'.
  rewrite Cache_has_add_negative, Cache_has_negative_add_negative.
  destruct (Hc n' r'). naive_solver.
Qed.

Lemma Cache_has_add_all c n rs n' r' :
  Cache.has (Cache.add_all c n rs) n' r' = true ↔
  (n' = n ∧ r' ∈ rs) ∨ Cache.has c n' r' = true.
Proof.
  unfold Cache.add_all. revert c.
  induction rs as [|r rs IH]; intros c; simpl.
  - set_solver.
  - rewrite IH, Cache_has_add. set_solver.
Qed.

Lemma Cache_has_negative_add_all c n rs n' r' :
  Cache.has_negative (Cache.add_all c n rs) n' r' = true →
  Cache.has_negative c n' r' = true.
Proof.
  unfold Cache.add_all. revert c.
  induction rs as [|r rs IH]; intros c; simpl; [done|].
  intros H%IH. apply Cache_has_negative_add in H. tauto.
Qed.

Lemma cache_fold_has (l : list (string * list string)) c n r :
  Cache.has (foldl (λ c kv, Cache.add_all c kv.1 kv.2) c l) n r = true ↔
  (∃ rs, (n, rs) ∈ l ∧ r ∈ rs) ∨ Cache.has c n r = true.
Proof.
  revert c. induction l as [|[k rs] l IH]; intros c; simpl.
  - set_solver.
  - rewrite IH, Cache_has_add_all. split.
    + intros [(rs' & Hin & Hr)|[[-> Hr]|H]]; [left; exists rs'| left; exists rs |by right];
        set_solver.
    + intros [(rs' & Hin & Hr)|H]; [|by right; right].
      apply elem_of_cons in Hin as [[= -> ->]|Hin]; [right; left; done|].
      left; eauto.
Qed.

Lemma cache_fold_has_negative (l : list (string * list string)) c n r :
  Cache.has_negative (foldl (λ c kv, Cache.add_all c kv.1 kv.2) c l) n r = true →
  Cache.has_negative c n r = true.
Proof.
  revert c. induction l as [|[k rs] l IH]; intros c; simpl; [done|].
  intros H%IH. by apply Cache_has_negative_add_all in H.
Qed.

(** Seeding records exactly the ground truth as positive beliefs. *)
Lemma Cache_has_update_from_network c network n r :
  Cache.has (Cache.update_from_network c network) n r = true ↔
  Network.has_resource network n r = true ∨ Cache.has c n r = true.
Proof.
  unfold Cache.update_from_network. rewrite cache_fold_has.
  unfold Network.has_resource. rewrite bool_decide_eq_true.
  split; (intros [H|H]; [left|by right]).
  - destruct H as (rs & Hin%elem_of_map_to_list & Hr). by rewrite Hin.
  - destruct (Network.resources network !! n) as [rs|] eqn:E; simpl in H.
    + exists rs. split; [by apply elem_of_map_to_list|done].
    + set_solver.
Qed.

Lemma Cache_has_negative_update_from_network c network n r :
  Cache.has_negative (Cache.update_from_network c network) n r = true →
  Cache.has_negative c n r = true.
Proof. apply cache_fold_has_negative. Qed.

Lemma cache_sound_seeded network :
  cache_sound network (Cache.update_from_network Cache.init network).
Proof.
  intros n r. split.
  - rewrite Cache_has_update_from_network, Cache_has_init. naive_solver.
  - intros H%Cache_has_negative_update_from_network.
    by rewrite Cache_has_negative_init in H.
Qed.

(** ** Bookkeeping of the breadth-first loops *)

Lemma all_neighbors_spec network n x :
  x ∈ Network.get_neighbors network n → x ∈ all_neighbors network.
Proof.
  unfold Network.get_neighbors, all_neighbors.
  destruct (Network.graph network !! n) as [s|] eqn:E; simpl; [|set_solver].
  intros Hx. apply elem_of_union_list. exists s. split; [|done].
  apply list_elem_of_fmap. exists (n, s). split; [done|].
  by apply elem_of_map_to_list.
Qed.

Lemma bfs_for_post_nil v : bfs_for_post [] v (inr v).
Proof. simpl. repeat split; try set_solver; lia. Qed.

Lemma size_add_fresh (x : string) (V : gset string) :
  x ∉ V → size ({[x]} ∪ V) = S (size V).
Proof. intros H. rewrite size_union by set_solver. by rewrite size_singleton. Qed.

Lemma bfs_for_post_skip x l v r :
  x ∈ bv_visited v →
  bfs_for_post l {| bv_visited := bv_visited v; bv_queue := bv_queue v;
                    bv_messages := bv_messages v + 1;
                    bv_nodes_visited := bv_nodes_visited v |} r →
  bfs_for_post (x :: l) v r.
Proof.
  intros Hx. destruct r as [R|v']; simpl.
  - intros (? & ? & V' & ? & ? & ?). split; [done|]. split; [lia|].
    exists V'. repeat split; [set_solver..|lia].
  - intros (? & ? & ? & ? & ?). repeat split; [set_solver..|lia|lia|lia].
Qed.

Lemma bfs_for_post_visit x l v q r :
  x ∉ bv_visited v →
  (length q ≤ S (length (bv_queue v)))%nat →
  bfs_for_post l {| bv_visited := {[x]} ∪ bv_visited v; bv_queue := q;
                    bv_messages := bv_messages v + 1;
                    bv_nodes_visited := bv_nodes_visited v + 1 |} r →
  bfs_for_post (x :: l) v r.
Proof.
  intros Hx Hq. pose proof (size_add_fresh x _ Hx) as Hs.
  destruct r as [R|v']; simpl; rewrite ?Hs.
  - intros (? & ? & V' & ? & ? & ?). split; [done|]. split; [lia|].
    exists V'. repeat split; [set_solver..|lia].
  - intros (? & ? & ? & ? & ?). repeat split; [set_solver..|lia|lia|lia].
Qed.

Lemma bfs_for_post_hit x l v R :
  x ∉ bv_visited v →
  found R = true → messages R = (bv_messages v + 1)%Z →
  nodes_visited R = (bv_nodes_visited v + 1)%Z →
  bfs_for_post (x :: l) v (inl R).
Proof.
  intros Hx Hf Hm Hn. pose proof (size_add_fresh x _ Hx) as Hs.
  simpl. split; [done|]. split; [lia|].
  exists ({[x]} ∪ bv_visited v). repeat split; [set_solver..|lia].
Qed.

Lemma store_ok_refl s : store_ok s s.
Proof. by split. Qed.

Lemma store_ok_trans s1 s2 s3 : store_ok s1 s2 → store_ok s2 s3 → store_ok s1 s3.
Proof. intros [E1 H1] [E2 H2]. rewrite E1 in *. split; [congruence|auto]. Qed.

Lemma store_ok_add s n r :
  Network.has_resource (st_network s) n r = true →
  store_ok s {| st_network := st_network s;
                st_cache := Cache.add (st_cache s) n r;
                st_random := st_random s |}.
Proof. intros H. split; [done|]. by apply cache_sound_add. Qed.

Lemma store_ok_add_negative s n r :
  Network.has_resource (st_network s) n r = false →
  store_ok s {| st_network := st_network s;
                st_cache := Cache.add_negative (st_cache s) n r;
                st_random := st_random s |}.
Proof. intros H. split; [done|]. by apply cache_sound_add_negative. Qed.

(** ** The loops of the strategies *)

Section Loops.

Variable set_iter : gset string → list string.

Lemma flooding_for_spec resource ttl depth path l v s :
  ∃ r, flooding_for set_iter resource ttl depth path l v s = (Ok r, s) ∧
       bfs_for_post l v r.
Proof.
  revert v. induction l as [|x l IH]; intros v.
  - exists (inr v). split. reflexivity. apply bfs_for_post_nil.
  - simpl flooding_for. case_bool_decide as Hx.
    + unfold bind, network_call.
      destruct (Network.has_resource (st_network s) x resource) eqn:Hr.
      * eexists. split; [reflexivity|]. by apply bfs_for_post_hit.
      * edestruct IH as (r & -> & Hp). exists r. split; [done|].
        eapply bfs_for_post_visit; [done| |exact Hp].
        simpl. destruct (_ <? _)%Z; rewrite ?length_app; simpl; lia.
    + edestruct IH as (r & -> & Hp). exists r. split; [done|].
      eapply bfs_for_post_skip; [|exact Hp]. destruct (decide (x ∈ bv_visited v)); [done|contradiction].
Qed.

Lemma bfs_while_post_for W l v r R :
  list_to_set l ⊆ W →
  bfs_for_post l v r →
  match r with
  | inl R' => R = R' ∧ bv_visited v ⊆ W
  | inr v' => bfs_while_post set_iter W v' R
  end →
  bfs_while_post set_iter W v R.
Proof.
  intros Hl. destruct r as [R'|v']; simpl.
  - intros (Hf & Hm & V' & ? & ? & ?) [-> ?]. split; [lia|].
    exists V'. repeat split; [set_solver..|lia|congruence].
  - intros (? & ? & ? & ? & ?) (? & V' & ? & ? & ? & ?). split; [lia|].
    exists V'. repeat split; [set_solver..|lia|done].
Qed.

Lemma flooding_while_spec W resource ttl s :
  (∀ n, list_to_set (set_iter (Network.get_neighbors (st_network s) n)) ⊆ W) →
  ∀ fuel v,
    bv_visited v ⊆ W →
    (size W + length (bv_queue v) < fuel + size (bv_visited v))%nat →
    ∃ R, flooding_while set_iter fuel resource ttl v s = (Ok R, s) ∧
         bfs_while_post set_iter W v R ∧
         (found R = false → all_visited R = Some (path R)).
Proof.
  intros HW. induction fuel as [|fuel IH]; intros v HV Hfuel.
  { apply subseteq_size in HV. lia. }
  simpl flooding_while. destruct (bv_queue v) as [|[[current depth] path] queue] eqn:Hq.
  - eexists. split; [reflexivity|]. split; [|done].
    split; [simpl; lia|]. exists (bv_visited v). simpl. split_and!; [done|done|lia|done].
  - simpl in Hfuel. destruct (depth >=? ttl)%Z.
    + edestruct (IH {| bv_visited := bv_visited v; bv_queue := queue;
                       bv_messages := bv_messages v;
                       bv_nodes_visited := bv_nodes_visited v |})
        as (R & -> & HR & Ha); [done|simpl; lia|].
      exists R. split; [done|]. split; [|done]. exact HR.
    + unfold bind at 1, network_call. unfold bind.
      edestruct (flooding_for_spec resource ttl depth path) as (r & -> & Hr).
      destruct r as [R|v'].
      * exists R. split; [reflexivity|]. split.
        -- eapply (bfs_while_post_for _ _
                 {| bv_visited := bv_visited v; bv_queue := queue;
                    bv_messages := bv_messages v;
                    bv_nodes_visited := bv_nodes_visited v |} (inl R));
             [apply HW|exact Hr|]. simpl. done.
        -- destruct Hr as (Hf & _). congruence.
      * pose proof Hr as (H1 & H2 & H3 & H4 & H5). simpl in H1, H2, H3.
        edestruct (IH v') as (R & -> & HR & Ha).
        { specialize (HW current). set_solver. }
        { lia. }
        exists R. split; [done|]. split; [|done].
        eapply (bfs_while_post_for _ _
                 {| bv_visited := bv_visited v; bv_queue := queue;
                    bv_messages := bv_messages v;
                    bv_nodes_visited := bv_nodes_visited v |} (inr v'));
          [apply HW|exact Hr|]. exact HR.
Qed.

Lemma informed_flooding_for_spec resource ttl depth path l v s :
  ∃ r s', informed_flooding_for resource ttl depth path l v s = (Ok r, s') ∧
          store_ok s s' ∧ bfs_for_post l v r ∧
          (∀ R, r = inl R → all_visited R = None).
Proof.
  revert v s. induction l as [|x l IH]; intros v s.
  - exists (inr v), s. split; [reflexivity|]. split; [apply store_ok_refl|].
    split; [apply bfs_for_post_nil|done].
  - simpl informed_flooding_for. case_bool_decide as Hx.
    + unfold bind at 1, network_call.
      destruct (Network.has_resource (st_network s) x resource) eqn:Hr.
      * eexists _, _. split; [reflexivity|]. split; [by apply store_ok_add|].
        split; [by apply bfs_for_post_hit|]. by intros R [= <-].
      * unfold bind, cache_update.
        edestruct IH as (r & s' & -> & Hs & Hp & Ha). exists r, s'. split; [done|].
        split; [eapply store_ok_trans; [by apply store_ok_add_negative|exact Hs]|].
        split; [|done].
        eapply bfs_for_post_visit; [done| |exact Hp].
        simpl. destruct (_ <? _)%Z; rewrite ?length_app; simpl; lia.
    + edestruct IH as (r & s' & -> & Hs & Hp & Ha). exists r, s'.
      split; [done|]. split; [done|]. split; [|done].
      eapply bfs_for_post_skip; [|exact Hp].
      destruct (decide (x ∈ bv_visited v)); [done|contradiction].
Qed.

Lemma informed_flooding_while_spec W network resource ttl :
  (∀ n, list_to_set (set_iter (Network.get_neighbors network n)) ⊆ W) →
  ∀ fuel v s,
    st_network s = network →
    bv_visited v ⊆ W →
    (size W + length (bv_queue v) < fuel + size (bv_visited v))%nat →
    ∃ R s', informed_flooding_while set_iter fuel resource ttl v s = (Ok R, s') ∧
            store_ok s s' ∧ bfs_while_post set_iter W v R ∧ all_visited R = None.
Proof.
  intros HW. induction fuel as [|fuel IH]; intros v s Hs HV Hfuel.
  { apply subseteq_size in HV. lia. }
  simpl informed_flooding_while.
  destruct (bv_queue v) as [|[[current depth] path] queue] eqn:Hq.
  - eexists _, _. split; [reflexivity|]. split; [apply store_ok_refl|].
    split; [|done].
    split; [simpl; lia|]. exists (bv_visited v). simpl. split_and!; [done|done|lia|done].
  - simpl in Hfuel. destruct (depth >=? ttl)%Z.
    + edestruct (IH {| bv_visited := bv_visited v; bv_queue := queue;
                       bv_messages := bv_messages v;
                       bv_nodes_visited := bv_nodes_visited v |})
        as (R & s' & -> & Hs' & HR & Ha); [done|done|simpl; lia|].
      exists R, s'. split; [done|]. split; [done|]. split; [|done]. exact HR.
    + unfold bind at 1, network_call. unfold bind at 1, cache_call.
      unfold bind.
      set (l := filter _ _).
      assert (list_to_set l ⊆ W) as Hl.
      { specialize (HW current). subst l network.
        intros x Hx. apply HW. rewrite elem_of_list_to_set in Hx |- *.
        by apply list_elem_of_filter in Hx as [_ ?]. }
      edestruct (informed_flooding_for_spec resource ttl depth path l)
        as (r & s1 & -> & Hs1 & Hr & Hnone).
      destruct r as [R|v'].
      * exists R, s1. split; [reflexivity|]. split; [done|]. split.
        -- eapply (bfs_while_post_for _ _
                 {| bv_visited := bv_visited v; bv_queue := queue;
                    bv_messages := bv_messages v;
                    bv_nodes_visited := bv_nodes_visited v |} (inl R));
             [exact Hl|exact Hr|]. simpl. done.
        -- by apply Hnone.
      * pose proof Hr as (H1 & H2 & H3 & H4 & H5). simpl in H1, H2, H3.
        edestruct (IH v' s1) as (R & s2 & -> & Hs2 & HR & Ha).
        { destruct Hs1. congruence. }
        { set_solver. }
        { lia. }
        exists R, s2. split; [done|].
        split; [by eapply store_ok_trans|]. split; [|done].
        eapply (bfs_while_post_for _ _
                 {| bv_visited := bv_visited v; bv_queue := queue;
                    bv_messages := bv_messages v;
                    bv_nodes_visited := bv_nodes_visited v |} (inr v'));
          [exact Hl|exact Hr|]. exact HR.
Qed.

(** *** The walks *)

Lemma random_choice_spec (l : list string) s :
  l ≠ [] →
  ∃ x, random_choice l s =
         (Ok x, {| st_network := st_network s; st_cache := st_cache s;
                   st_random := λ i, st_random s (S i) |}) ∧ x ∈ l.
Proof.
  intros Hl. unfold random_choice.
  assert (st_random s 0 `mod` length l < length l)%nat as Hlt.
  { apply Nat.mod_upper_bound. by destruct l. }
  apply lookup_lt_is_Some_2 in Hlt as [x Hx]. rewrite Hx.
  exists x. split; [done|]. by eapply list_elem_of_lookup_2.
Qed.

Lemma walk_inv_step v x : walk_inv v → walk_inv (walk_step v x).
Proof.
  intros [H1 H2]. split; simpl; [|lia]. rewrite length_app; simpl. lia.
Qed.

Lemma walk_post_result ttl b v :
  walk_inv v → (wv_steps v ≤ Z.max ttl (wv_steps v))%Z →
  walk_post ttl v (walk_result b v).
Proof. intros [H1 H2] H. split_and!; simpl; [done|lia|done]. Qed.

Lemma random_walk_while_spec resource ttl :
  ∀ fuel v s,
    walk_inv v →
    (Z.to_nat (ttl - wv_steps v) < fuel)%nat →
    ∃ R s', random_walk_while set_iter fuel resource ttl v s = (Ok R, s') ∧
            st_network s' = st_network s ∧ st_cache s' = st_cache s ∧
            walk_post ttl v R.
Proof.
  induction fuel as [|fuel IH]; intros v s Hinv Hfuel; [lia|].
  simpl random_walk_while. destruct (wv_steps v <? ttl)%Z eqn:Hlt.
  - apply Z.ltb_lt in Hlt. unfold bind at 1, network_call.
    destruct (set_iter _) as [|y l] eqn:El.
    { eexists _, _. split; [reflexivity|]. split_and!; [done..|].
      apply walk_post_result; [done|lia]. }
    destruct (random_choice_spec (y :: l) s) as (x & Hx & _); [done|].
    unfold bind at 1. rewrite Hx. unfold bind, network_call.
    simpl st_network. destruct (Network.has_resource _ _ _).
    + eexists _, _. split; [reflexivity|]. split_and!; [done..|].
      pose proof (walk_inv_step v x Hinv) as [H1 H2].
      split_and!; simpl in *; [done|lia|done].
    + edestruct (IH (walk_step v x)) as (R & s' & -> & Hn & Hc & H1 & H2 & H3).
      { by apply walk_inv_step. }
      { simpl. lia. }
      exists R, s'. split; [done|]. split_and!; [done..|].
      split_and!; [done| |done]. simpl in H2. lia.
  - eexists _, _. split; [reflexivity|]. split_and!; [done..|].
    apply walk_post_result; [done|lia].
Qed.

Lemma informed_random_walk_while_spec resource ttl :
  ∀ fuel v s,
    walk_inv v →
    (Z.to_nat (ttl - wv_steps v) < fuel)%nat →
    ∃ R s', informed_random_walk_while set_iter fuel resource ttl v s = (Ok R, s') ∧
            store_ok s s' ∧ walk_post ttl v R.
Proof.
  induction fuel as [|fuel IH]; intros v s Hinv Hfuel; [lia|].
  simpl informed_random_walk_while. destruct (wv_steps v <? ttl)%Z eqn:Hlt.
  - apply Z.ltb_lt in Hlt. unfold bind at 1, network_call.
    destruct (set_iter _) as [|y l] eqn:El.
    { eexists _, _. split; [reflexivity|]. split; [apply store_ok_refl|].
      apply walk_post_result; [done|lia]. }
    unfold bind at 1, cache_call.
    set (cands := match filter _ _ with [] => _ | _ => _ end).
    destruct (random_choice_spec cands s) as (x & Hx & _).
    { subst cands. by destruct (filter _ _). }
    unfold bind at 1. rewrite Hx. unfold bind at 1, network_call.
    simpl st_network.
    destruct (Network.has_resource _ _ _) eqn:Hr; unfold bind, cache_update.
    + eexists _, _. split; [reflexivity|]. split.
      { split; [done|]. simpl. by apply cache_sound_add. }
      pose proof (walk_inv_step v x Hinv) as [H1 H2].
      split_and!; simpl in *; [done|lia|done].
    + edestruct (IH (walk_step v x)) as (R & s' & -> & Hs & H1 & H2 & H3).
      { by apply walk_inv_step. }
      { simpl. lia. }
      exists R, s'. split; [done|]. split.
      { eapply store_ok_trans; [|exact Hs].
        split; [done|]. simpl. by apply cache_sound_add_negative. }
      split_and!; [done| |done]. simpl in H2. lia.
  - eexists _, _. split; [reflexivity|]. split; [apply store_ok_refl|].
    apply walk_post_result; [done|lia].
Qed.
End Loops.

(** ** Two breadth-first runs that differ in their TTL *)

Lemma bfs_sim_init t1 start_node :
  (0 < t1)%Z → bfs_sim t1 0 (bfs_init start_node) (bfs_init start_node).
Proof.
  intros Ht. split_and!; [done..|].
  exists [(start_node, 0%Z, [start_node])], [], []. simpl.
  split_and!; [done|done|by repeat constructor|done|done|done|done].
Qed.

Lemma bfs_sim_skip t1 d v1 v2 :
  bfs_sim t1 d v1 v2 →
  bfs_sim t1 d
    {| bv_visited := bv_visited v1; bv_queue := bv_queue v1;
       bv_messages := bv_messages v1 + 1;
       bv_nodes_visited := bv_nodes_visited v1 |}
    {| bv_visited := bv_visited v2; bv_queue := bv_queue v2;
       bv_messages := bv_messages v2 + 1;
       bv_nodes_visited := bv_nodes_visited v2 |}.
Proof.
  intros (HV & Hm & Hn & HQ). split_and!; simpl; [done|congruence|done|done].
Qed.

Lemma bfs_sim_visit t1 t2 d v1 v2 x p :
  (t1 ≤ t2)%Z →
  bfs_sim t1 d v1 v2 →
  bfs_sim t1 d
    {| bv_visited := {[x]} ∪ bv_visited v1;
       bv_queue := if (d + 1 <? t1)%Z
                   then bv_queue v1 ++ [(x, (d + 1)%Z, p)] else bv_queue v1;
       bv_messages := bv_messages v1 + 1;
       bv_nodes_visited := bv_nodes_visited v1 + 1 |}
    {| bv_visited := {[x]} ∪ bv_visited v2;
       bv_queue := if (d + 1 <? t2)%Z
                   then bv_queue v2 ++ [(x, (d + 1)%Z, p)] else bv_queue v2;
       bv_messages := bv_messages v2 + 1;
       bv_nodes_visited := bv_nodes_visited v2 + 1 |}.
Proof.
  intros Ht (HV & Hm & Hn & A & B & E & Hq1 & Hq2 & HA & HB & Hd & HE & HB0).
  split_and!; simpl; [congruence..|].
  destruct (d + 1 <? t1)%Z eqn:H1.
  - apply Z.ltb_lt in H1. rewrite (proj2 (Z.ltb_lt _ _)) by lia.
    rewrite (HE H1), app_nil_r in Hq2.
    exists A, (B ++ [(x, (d + 1)%Z, p)]), [].
    rewrite Hq1, Hq2, app_nil_r, <- !app_assoc.
    split_and!; [done|done|done| |done|done|lia].
    apply Forall_app. split; [done|]. by repeat constructor.
  - apply Z.ltb_ge in H1. rewrite (HB0 H1) in *.
    destruct (d + 1 <? t2)%Z.
    + exists A, [], (E ++ [(x, (d + 1)%Z, p)]).
      rewrite Hq1, Hq2. simpl. rewrite <- app_assoc.
      split_and!; [done|done|done|done|done|lia|done].
    + exists A, [], E. split_and!; [done|done|done|done|done|lia|done].
Qed.

Lemma bfs_sim_pop t1 d v1 v2 e rest :
  bfs_sim t1 d v1 v2 →
  bv_queue v1 = e :: rest →
  ∃ rest2,
    bv_queue v2 = e :: rest2 ∧ (entry_depth e < t1)%Z ∧
    bfs_sim t1 (entry_depth e)
      {| bv_visited := bv_visited v1; bv_queue := rest;
         bv_messages := bv_messages v1;
         bv_nodes_visited := bv_nodes_visited v1 |}
      {| bv_visited := bv_visited v2; bv_queue := rest2;
         bv_messages := bv_messages v2;
         bv_nodes_visited := bv_nodes_visited v2 |}.
Proof.
  intros (HV & Hm & Hn & A & B & E & Hq1 & Hq2 & HA & HB & Hd & HE & HB0) Hq.
  rewrite Hq in Hq1. destruct A as [|a A].
  - destruct B as [|b B]; [done|]. simpl in Hq1. injection Hq1 as <- ->.
    apply Forall_cons_1 in HB as [Hb HB].
    assert (d + 1 < t1)%Z as Hlt.
    { destruct (decide (t1 ≤ d + 1)%Z) as [H|H]; [by specialize (HB0 H)|lia]. }
    rewrite (HE Hlt) in Hq2. simpl in Hq2. rewrite app_nil_r in Hq2.
    exists B. rewrite Hb. split_and!; [done|lia|].
    split_and!; simpl; [done..|].
    exists B, [], []. rewrite !app_nil_r.
    split_and!; [done|done|done|done|lia|done|done].
  - simpl in Hq1. injection Hq1 as <- ->.
    apply Forall_cons_1 in HA as [Ha HA]. rewrite Ha.
    exists (A ++ B ++ E). split_and!; [done|lia|].
    split_and!; simpl; [done..|].
    exists A, B, E. split_and!; done.
Qed.

Section Simulation.

Variable set_iter : gset string → list string.

Lemma flooding_for_sim resource t1 t2 d p l s :
  (t1 ≤ t2)%Z →
  ∀ v1 v2,
    bfs_sim t1 d v1 v2 →
    ∃ r1 r2,
      flooding_for set_iter resource t1 d p l v1 s = (Ok r1, s) ∧
      flooding_for set_iter resource t2 d p l v2 s = (Ok r2, s) ∧
      match r1, r2 with
      | inl R1, inl R2 => R1 = R2
      | inr v1', inr v2' => bfs_sim t1 d v1' v2'
      | _, _ => False
      end.
Proof.
  intros Ht. induction l as [|x l IH]; intros v1 v2 Hsim.
  - exists (inr v1), (inr v2). by split_and!.
  - simpl flooding_for. pose proof Hsim as (HV & Hm & Hn & _).
    rewrite <- HV. case_bool_decide as Hx.
    + unfold bind, network_call.
      destruct (Network.has_resource (st_network s) x resource).
      * eexists (inl _), (inl _). split_and!; [done..|].
        by rewrite HV, Hm, Hn.
      * pose proof (bfs_sim_visit t1 t2 d v1 v2 x (p ++ [x]) Ht Hsim) as H.
        rewrite <- HV in H. apply IH, H.
    + pose proof (bfs_sim_skip t1 d v1 v2 Hsim) as H.
      rewrite <- HV in H. apply IH, H.
Qed.

Lemma flooding_while_messages resource ttl fuel :
  ∀ v s R s',
    flooding_while set_iter fuel resource ttl v s = (Ok R, s') →
    (bv_messages v ≤ messages R)%Z.
Proof.
  induction fuel as [|fuel IH]; intros v s R s'; [done|].
  simpl flooding_while.
  destruct (bv_queue v) as [|[[current depth] path] queue] eqn:Hq.
  - intros [= <- _]. simpl. lia.
  - destruct (depth >=? ttl)%Z.
    + intros H%IH. exact H.
    + unfold bind at 1, network_call. unfold bind.
      edestruct (flooding_for_spec set_iter resource ttl depth path)
        as (r & -> & Hr).
      destruct r as [R'|v'].
      * intros [= <- _]. destruct Hr as (_ & ? & _). simpl in *. lia.
      * intros H%IH. destruct Hr as (_ & _ & _ & _ & ?). simpl in *. lia.
Qed.

Lemma flooding_while_sim resource t1 t2 :
  (t1 ≤ t2)%Z →
  ∀ fuel1 fuel2 d v1 v2 s R1 R2 s1 s2,
    bfs_sim t1 d v1 v2 →
    flooding_while set_iter fuel1 resource t1 v1 s = (Ok R1, s1) →
    flooding_while set_iter fuel2 resource t2 v2 s = (Ok R2, s2) →
    (messages R1 ≤ messages R2)%Z.
Proof.
  intros Ht. induction fuel1 as [|fuel1 IH];
    intros fuel2 d v1 v2 s R1 R2 s1 s2 Hsim H1 H2; [done|].
  simpl in H1.
  destruct (bv_queue v1) as [|[[current depth] path] queue] eqn:Hq.
  - injection H1 as <- _. simpl.
    apply flooding_while_messages in H2. destruct Hsim as (_ & -> & _). done.
  - destruct (bfs_sim_pop _ _ _ _ _ _ Hsim Hq) as (rest2 & Hq2 & Hd & Hsim').
    unfold entry_depth in Hd, Hsim'. simpl in Hd, Hsim'.
    destruct fuel2 as [|fuel2]; [done|]. simpl in H2. rewrite Hq2 in H2.
    assert ((depth >=? t1)%Z = false) as G1
      by (rewrite Z.geb_leb; apply Z.leb_gt; lia).
    assert ((depth >=? t2)%Z = false) as G2
      by (rewrite Z.geb_leb; apply Z.leb_gt; lia).
    rewrite G1 in H1. rewrite G2 in H2.
    unfold bind at 1, network_call in H1. unfold bind at 1, network_call in H2.
    unfold bind in H1, H2.
    edestruct (flooding_for_sim resource t1 t2 depth path
                 (set_iter (Network.get_neighbors (st_network s) current)) s Ht)
      as (r1 & r2 & E1 & E2 & Hr); [exact Hsim'|].
    rewrite E1 in H1. rewrite E2 in H2.
    destruct r1 as [R1'|v1'], r2 as [R2'|v2']; try done.
    + injection H1 as <- _. injection H2 as <- _. subst. lia.
    + eapply IH; [exact Hr|exact H1|exact H2].
Qed.

Lemma informed_flooding_for_sim resource t1 t2 d p l :
  (t1 ≤ t2)%Z →
  ∀ v1 v2 s,
    bfs_sim t1 d v1 v2 →
    ∃ r1 r2 s',
      informed_flooding_for resource t1 d p l v1 s = (Ok r1, s') ∧
      informed_flooding_for resource t2 d p l v2 s = (Ok r2, s') ∧
      match r1, r2 with
      | inl R1, inl R2 => R1 = R2
      | inr v1', inr v2' => bfs_sim t1 d v1' v2'
      | _, _ => False
      end.
Proof.
  intros Ht. induction l as [|x l IH]; intros v1 v2 s Hsim.
  - exists (inr v1), (inr v2), s. by split_and!.
  - simpl informed_flooding_for. pose proof Hsim as (HV & Hm & Hn & _).
    rewrite <- HV. case_bool_decide as Hx.
    + unfold bind, network_call, cache_update.
      destruct (Network.has_resource (st_network s) x resource).
      * eexists (inl _), (inl _), _. split_and!; [reflexivity|reflexivity|].
        by rewrite Hm, Hn.
      * pose proof (bfs_sim_visit t1 t2 d v1 v2 x (p ++ [x]) Ht Hsim) as H.
        rewrite <- HV in H. apply IH, H.
    + pose proof (bfs_sim_skip t1 d v1 v2 Hsim) as H.
      rewrite <- HV in H. apply IH, H.
Qed.

Lemma informed_flooding_while_messages resource ttl fuel :
  ∀ v s R s',
    informed_flooding_while set_iter fuel resource ttl v s = (Ok R, s') →
    (bv_messages v ≤ messages R)%Z.
Proof.
  induction fuel as [|fuel IH]; intros v s R s'; [done|].
  simpl informed_flooding_while.
  destruct (bv_queue v) as [|[[current depth] path] queue] eqn:Hq.
  - intros [= <- _]. simpl. lia.
  - destruct (depth >=? ttl)%Z.
    + intros H%IH. exact H.
    + unfold bind at 1, network_call. unfold bind at 1, cache_call.
      unfold bind.
      edestruct (informed_flooding_for_spec resource ttl depth path)
        as (r & s1 & -> & _ & Hr & _).
      destruct r as [R'|v'].
      * intros [= <- _]. destruct Hr as (_ & ? & _). simpl in *. lia.
      * intros H%IH. destruct Hr as (_ & _ & _ & _ & ?). simpl in *. lia.
Qed.

Lemma informed_flooding_while_sim resource t1 t2 :
  (t1 ≤ t2)%Z →
  ∀ fuel1 fuel2 d v1 v2 s R1 R2 s1 s2,
    bfs_sim t1 d v1 v2 →
    informed_flooding_while set_iter fuel1 resource t1 v1 s = (Ok R1, s1) →
    informed_flooding_while set_iter fuel2 resource t2 v2 s = (Ok R2, s2) →
    (messages R1 ≤ messages R2)%Z.
Proof.
  intros Ht. induction fuel1 as [|fuel1 IH];
    intros fuel2 d v1 v2 s R1 R2 s1 s2 Hsim H1 H2; [done|].
  simpl in H1.
  destruct (bv_queue v1) as [|[[current depth] path] queue] eqn:Hq.
  - injection H1 as <- _. simpl.
    apply informed_flooding_while_messages in H2.
    destruct Hsim as (_ & -> & _). done.
  - destruct (bfs_sim_pop _ _ _ _ _ _ Hsim Hq) as (rest2 & Hq2 & Hd & Hsim').
    unfold entry_depth in Hd, Hsim'. simpl in Hd, Hsim'.
    destruct fuel2 as [|fuel2]; [done|]. simpl in H2. rewrite Hq2 in H2.
    assert ((depth >=? t1)%Z = false) as G1
      by (rewrite Z.geb_leb; apply Z.leb_gt; lia).
    assert ((depth >=? t2)%Z = false) as G2
      by (rewrite Z.geb_leb; apply Z.leb_gt; lia).
    rewrite G1 in H1. rewrite G2 in H2.
    unfold bind at 1, network_call in H1. unfold bind at 1, network_call in H2.
    unfold bind at 1, cache_call in H1. unfold bind at 1, cache_call in H2.
    unfold bind in H1, H2.
    edestruct (informed_flooding_for_sim resource t1 t2 depth path
                 (filter (λ n, candidate (st_cache s) resource n = true)
                    (set_iter (Network.get_neighbors (st_network s) current)))
                 Ht)
      as (r1 & r2 & s' & E1 & E2 & Hr); [exact Hsim'|].
    rewrite E1 in H1. rewrite E2 in H2.
    destruct r1 as [R1'|v1'], r2 as [R2'|v2']; try done.
    + injection H1 as <- _. injection H2 as <- _. subst. lia.
    + eapply IH; [exact Hr|exact H1|exact H2].
Qed.
End Simulation.

(** ** The strategies *)

Lemma all_neighbors_nodes network :
  neighbors_are_nodes network →
  all_neighbors network ⊆ Network.get_all_nodes network.
Proof.
  intros Hv x Hx. unfold all_neighbors in Hx.
  apply elem_of_union_list in Hx as (s & Hs & Hx).
  apply list_elem_of_fmap in Hs as ([n s'] & -> & Hin).
  apply elem_of_map_to_list in Hin. by apply (Hv n s' Hin).
Qed.

Lemma size_union_singleton_le (X : gset string) (x : string) :
  (size (X ∪ {[x]}) ≤ S (size X))%nat.
Proof.
  rewrite size_union_alt.
  assert (size ({[x]} ∖ X : gset string) ≤ size ({[x]} : gset string))%nat
    by (apply subseteq_size; set_solver).
  rewrite size_singleton in *. lia.
Qed.

Lemma dd_add_closed (N : gset string) g k x :
  x ∈ N → map_Forall (λ _ s, s ⊆ N) g →
  map_Forall (λ _ s, s ⊆ N) (Network.dd_add g k x).
Proof.
  intros Hx Hg. unfold Network.dd_add. apply map_Forall_insert_2; [|done].
  destruct (g !! k) as [s|] eqn:E; simpl; [|set_solver].
  specialize (Hg k s E). simpl in Hg. set_solver.
Qed.

Lemma Network_init_valid num_nodes resources edges :
  edges_valid resources edges →
  neighbors_are_nodes (Network.init num_nodes resources edges).
Proof.
  intros Hv. unfold neighbors_are_nodes, Network.init, Network.get_all_nodes.
  cbn [Network.graph Network.resources].
  set (N := dom resources) in *.
  apply (map_fold_weak_ind (λ r _, map_Forall (λ _ s, s ⊆ N) r)).
  - assert (∀ g, map_Forall (λ _ s, s ⊆ N) g →
              map_Forall (λ _ s, s ⊆ N)
                (foldl (λ g e, Network.dd_add (Network.dd_add g e.1 e.2) e.2 e.1)
                   g edges)) as H; [|apply H, map_Forall_empty].
    induction Hv as [|e es [He1 He2] _ IH]; intros g Hg; simpl; [done|].
    apply IH. by repeat apply dd_add_closed.
  - intros i x m r _ Hr. destruct (r !! i); [done|].
    apply map_Forall_insert_2; [set_solver|done].
Qed.

Lemma passed_over_visit network resource v v' x l :
  Network.has_resource network x resource = false →
  bv_visited v' = {[x]} ∪ bv_visited v →
  Forall (passed_over network resource v') l →
  Forall (passed_over network resource v) (x :: l).
Proof.
  intros Hr Hv Hl. constructor; [by right|].
  eapply Forall_impl; [exact Hl|]. intros y [Hy|Hy]; [|by right].
  rewrite Hv in Hy. apply elem_of_union in Hy as [->%elem_of_singleton|Hy];
    [by right|by left].
Qed.

Lemma passed_over_skip network resource v v' x l :
  x ∈ bv_visited v →
  bv_visited v' = bv_visited v →
  Forall (passed_over network resource v') l →
  Forall (passed_over network resource v) (x :: l).
Proof.
  intros Hx Hv Hl. constructor; [by left|].
  eapply Forall_impl; [exact Hl|]. intros y [Hy|Hy]; [|by right].
  left. by rewrite <- Hv.
Qed.

Lemma informed_flooding_for_expansion network resource ttl depth p l :
  ∀ v s,
    st_network s = network →
    ∃ r s', informed_flooding_for resource ttl depth p l v s = (Ok r, s') ∧
            expansion_post network resource p l v r.
Proof.
  induction l as [|x l IH]; intros v s Hs.
  - exists (inr v), s. split; [done|]. simpl.
    split_and!; [constructor|lia|set_solver].
  - simpl informed_flooding_for. case_bool_decide as Hx.
    + unfold bind at 1, network_call. rewrite Hs.
      destruct (Network.has_resource network x resource) eqn:Hr.
      * eexists (inl _), _. split; [reflexivity|].
        exists [], x, l. simpl.
        split_and!; [done|done|set_solver|done|constructor|done|lia|done].
      * unfold bind, cache_update.
        edestruct IH as (r & s' & -> & Hp); [|exists r, s'; split; [done|]].
        { done. }
        destruct r as [R|v']; simpl in Hp |- *.
        -- destruct Hp
             as (l1 & y & l2 & -> & Hy & Hy1 & Hyr & Hl1 & Hf & Hm & Hpath).
           exists (x :: l1), y, l2. simpl.
           split_and!; [done|set_solver|set_solver|done| |done|lia|done].
           eapply (passed_over_visit _ _ _ _ _ _ Hr); [|exact Hl1]. done.
        -- destruct Hp as (Hl & -> & ->).
           split_and!; [|lia|set_solver].
           eapply (passed_over_visit _ _ _ _ _ _ Hr); [|exact Hl]. done.
    + edestruct IH as (r & s' & -> & Hp); [|exists r, s'; split; [done|]].
      { done. }
      assert (x ∈ bv_visited v) as Hin
        by (destruct (decide (x ∈ bv_visited v)); [done|contradiction]).
      destruct r as [R|v']; simpl in Hp |- *.
      * destruct Hp
          as (l1 & y & l2 & -> & Hy & Hy1 & Hyr & Hl1 & Hf & Hm & Hpath).
        exists (x :: l1), y, l2. simpl.
        split_and!; [done|done|set_solver|done| |done|lia|done].
        eapply (passed_over_skip _ _ _ _ _ _ Hin); [|exact Hl1]. done.
      * destruct Hp as (Hl & -> & ->).
        split_and!; [|lia|set_solver].
        eapply (passed_over_skip _ _ _ _ _ _ Hin); [|exact Hl]. done.
Qed.

(** The expansion returns a record exactly when some candidate is new and
    holds the resource. *)
Lemma expansion_post_returns network resource p l v r :
  expansion_post network resource p l v r →
  (∃ R, r = inl R) ↔
  (∃ x, x ∈ l ∧ x ∉ bv_visited v ∧
        Network.has_resource network x resource = true).
Proof.
  destruct r as [R|v']; simpl.
  - intros (l1 & x & l2 & -> & Hx & _ & Hr & _). split; [|by exists R].
    intros _. exists x. split_and!; [|done..].
    apply elem_of_app. right. by left.
  - intros (Hl & _). split; [by intros [R [=]]|].
    intros (x & Hin & Hx & Hr). rewrite Forall_forall in Hl.
    destruct (Hl x Hin) as [?|Hn]; [done|congruence].
Qed.

Lemma candidate_false c resource n :
  candidate c resource n = false ↔
  Cache.has_negative c n resource = true ∧ Cache.has c n resource = false.
Proof.
  unfold candidate.
  destruct (Cache.has c n resource), (Cache.has_negative c n resource);
    simpl; naive_solver.
Qed.

Section Properties.

Variable set_iter : gset string → list string.

(** Iterating over a set yields each of its members once. *)
Hypothesis set_iter_perm : ∀ s, set_iter s ≡ₚ elements s.

Lemma set_iter_elem x s : x ∈ set_iter s ↔ x ∈ s.
Proof. rewrite set_iter_perm. apply elem_of_elements. Qed.

Lemma neighbors_closed network start_node n :
  list_to_set (set_iter (Network.get_neighbors network n))
    ⊆ all_neighbors network ∪ ({[start_node]} : gset string).
Proof.
  intros x Hx. apply elem_of_list_to_set, set_iter_elem in Hx.
  apply elem_of_union_l. by eapply all_neighbors_spec.
Qed.

Lemma bfs_fuel_enough network start_node :
  (size (all_neighbors network ∪ {[start_node]})
     + length (bv_queue (bfs_init start_node))
   < bfs_fuel network + size (bv_visited (bfs_init start_node)))%nat.
Proof.
  pose proof (size_union_singleton_le (all_neighbors network) start_node).
  unfold bfs_fuel, bfs_init. cbn [bv_queue bv_visited length].
  rewrite size_singleton. lia.
Qed.

(** The traversal of [flooding] returns, with its counters in order. *)
Lemma flooding_search resource ttl s start_node :
  ∃ R, flooding_while set_iter (bfs_fuel (st_network s)) resource ttl
         (bfs_init start_node) s = (Ok R, s) ∧
       bfs_while_post set_iter (all_neighbors (st_network s) ∪ {[start_node]})
         (bfs_init start_node) R ∧
       (found R = false → all_visited R = Some (path R)).
Proof.
  apply flooding_while_spec.
  - intros n. apply neighbors_closed.
  - simpl. set_solver.
  - apply bfs_fuel_enough.
Qed.

Lemma informed_flooding_search resource ttl s start_node :
  ∃ R s', informed_flooding_while set_iter (bfs_fuel (st_network s)) resource
            ttl (bfs_init start_node) s = (Ok R, s') ∧
          store_ok s s' ∧
          bfs_while_post set_iter
            (all_neighbors (st_network s) ∪ {[start_node]})
            (bfs_init start_node) R ∧
          all_visited R = None.
Proof.
  eapply informed_flooding_while_spec.
  - intros n. apply neighbors_closed.
  - done.
  - simpl. set_solver.
  - apply bfs_fuel_enough.
Qed.

Lemma flooding_spec start_node resource ttl s :
  ∃ R, flooding set_iter start_node resource ttl s = (Ok R, s) ∧
       bfs_outcome set_iter (st_network s) start_node R ∧
       (found R = false → start_node ∈ Network.get_all_nodes (st_network s) →
        all_visited R = Some (path R)).
Proof.
  unfold flooding, bind, network_call, ret. case_bool_decide as Hn.
  { eexists. split_and!; [done|by apply bfs_invalid|done]. }
  destruct (Network.has_resource _ _ _).
  { eexists. split_and!; [done|by apply bfs_at_start|done]. }
  destruct (flooding_search resource ttl s start_node) as (R & -> & HR & Ha).
  exists R. split_and!; [done|by apply bfs_searched|auto].
Qed.

Lemma cache_param_run cache s :
  cache_param cache s = (Ok tt, cache_param_store cache s).
Proof. by destruct cache. Qed.

Lemma informed_flooding_spec start_node resource ttl cache s :
  ∃ R s', informed_flooding set_iter start_node resource ttl cache s
            = (Ok R, s') ∧
          store_ok (cache_param_store cache s) s' ∧
          bfs_outcome set_iter (st_network s) start_node R ∧
          all_visited R = None.
Proof.
  unfold informed_flooding. unfold bind at 1. rewrite cache_param_run.
  set (s0 := cache_param_store cache s).
  change (st_network s) with (st_network s0).
  unfold bind, network_call, cache_call, cache_update, ret.
  case_bool_decide as Hn.
  { eexists _, _. split_and!; [done|apply store_ok_refl|by apply bfs_invalid|done]. }
  destruct (Cache.has _ _ _).
  { eexists _, _. split_and!; [done|apply store_ok_refl|by apply bfs_at_start|done]. }
  destruct (Network.has_resource _ _ _) eqn:Hr.
  { eexists _, _. split_and!; [done|by apply store_ok_add|by apply bfs_at_start|done]. }
  destruct (informed_flooding_search resource ttl s0 start_node)
    as (R & s' & -> & Hs & HR & Ha).
  exists R, s'. split_and!; [done|done|by apply bfs_searched|done].
Qed.


Lemma walk_init_inv start_node : walk_inv (walk_init start_node).
Proof. by split. Qed.

Lemma walk_fuel_enough ttl start_node :
  (Z.to_nat (ttl - wv_steps (walk_init start_node)) < walk_fuel ttl)%nat.
Proof. unfold walk_fuel. simpl. lia. Qed.

Lemma random_walk_spec start_node resource ttl s :
  ∃ R s', random_walk set_iter start_node resource ttl s = (Ok R, s') ∧
          st_network s' = st_network s ∧ st_cache s' = st_cache s ∧
          walk_outcome (st_network s) start_node ttl R.
Proof.
  unfold random_walk, bind, network_call, ret. case_bool_decide as Hn.
  { eexists _, _. split_and!; [done..|]. by split. }
  destruct (Network.has_resource _ _ _).
  { eexists _, _. split_and!; [done..|]. split; [done|]. intros _. simpl. lia. }
  destruct (random_walk_while_spec set_iter resource ttl (walk_fuel ttl)
              (walk_init start_node) s (walk_init_inv _) (walk_fuel_enough _ _))
    as (R & s' & -> & ? & ? & H1 & H2 & H3).
  exists R, s'. split_and!; [done..|]. split; [done|]. intros _.
  simpl in H2. by split.
Qed.

Lemma informed_random_walk_spec start_node resource ttl cache s :
  ∃ R s', informed_random_walk set_iter start_node resource ttl cache s
            = (Ok R, s') ∧
          store_ok (cache_param_store cache s) s' ∧
          walk_outcome (st_network s) start_node ttl R.
Proof.
  unfold informed_random_walk. unfold bind at 1. rewrite cache_param_run.
  set (s0 := cache_param_store cache s).
  change (st_network s) with (st_network s0).
  unfold bind, network_call, cache_call, cache_update, ret.
  case_bool_decide as Hn.
  { eexists _, _. split_and!; [done|apply store_ok_refl|]. by split. }
  destruct (Cache.has _ _ _).
  { eexists _, _. split_and!; [done|apply store_ok_refl|].
    split; [done|]. intros _. simpl. lia. }
  destruct (Network.has_resource _ _ _) eqn:Hr.
  { eexists _, _. split_and!; [done|by apply store_ok_add|].
    split; [done|]. intros _. simpl. lia. }
  destruct (informed_random_walk_while_spec set_iter resource ttl (walk_fuel ttl)
              (walk_init start_node) s0 (walk_init_inv _) (walk_fuel_enough _ _))
    as (R & s' & -> & ? & H1 & H2 & H3).
  exists R, s'. split_and!; [done..|]. split; [done|]. intros _.
  simpl in H2. by split.
Qed.

Lemma cache_param_store_sound cache s :
  cache = None ∨ cache = Some Cache.init ∨
  cache = Some (Cache.update_from_network Cache.init (st_network s)) →
  cache_sound (st_network s) (st_cache (cache_param_store cache s)).
Proof.
  intros [->|[->| ->]]; simpl;
    [apply cache_sound_seeded|apply cache_sound_init|apply cache_sound_seeded].
Qed.

(** C1. After an informed search ([informed_flooding] or
    [informed_random_walk]) on a cache that starts empty or seeded from the
    network (by the caller, or by the strategy when no cache is passed), the
    search returns and every belief of the cache is true: a pair recorded
    positive is held by the node, a pair recorded negative is not. *)
Theorem informed_search_cache_sound start_node resource ttl cache s :
  cache = None ∨ cache = Some Cache.init ∨
  cache = Some (Cache.update_from_network Cache.init (st_network s)) →
  (∃ R s', informed_flooding set_iter start_node resource ttl cache s
             = (Ok R, s') ∧
           cache_sound (st_network s) (st_cache s')) ∧
  (∃ R s', informed_random_walk set_iter start_node resource ttl cache s
             = (Ok R, s') ∧
           cache_sound (st_network s) (st_cache s')).
Proof.
  intros Hc%cache_param_store_sound. split.
  - destruct (informed_flooding_spec start_node resource ttl cache s)
      as (R & s' & E & [_ Hs] & _).
    exists R, s'. split; [done|]. by apply Hs.
  - destruct (informed_random_walk_spec start_node resource ttl cache s)
      as (R & s' & E & [_ Hs] & _).
    exists R, s'. split; [done|]. by apply Hs.
Qed.


(** C3 (as amended). For [random_walk] and [informed_random_walk], when the
    start node is a node of the network and the TTL is not negative, the walk
    returns a record with [len(path) - 1 == messages] and
    [messages <= ttl]. *)
Theorem walk_path_messages_ttl start_node resource ttl cache s :
  start_node ∈ Network.get_all_nodes (st_network s) →
  (0 ≤ ttl)%Z →
  (∃ R s', random_walk set_iter start_node resource ttl s = (Ok R, s') ∧
           (Z.of_nat (length (path R)) - 1 = messages R)%Z ∧
           (messages R ≤ ttl)%Z) ∧
  (∃ R s', informed_random_walk set_iter start_node resource ttl cache s
             = (Ok R, s') ∧
           (Z.of_nat (length (path R)) - 1 = messages R)%Z ∧
           (messages R ≤ ttl)%Z).
Proof.
  intros Hn Ht. split.
  - destruct (random_walk_spec start_node resource ttl s)
      as (R & s' & E & _ & _ & _ & H). destruct (H Hn) as [H1 H2].
    exists R, s'. split_and!; [done|done|lia].
  - destruct (informed_random_walk_spec start_node resource ttl cache s)
      as (R & s' & E & _ & _ & H). destruct (H Hn) as [H1 H2].
    exists R, s'. split_and!; [done|done|lia].
Qed.

(** C5. When the start node is a node of the network and holds the
    resource, each of the four strategies returns [found=True],
    [messages=0], [nodes_visited=1], [path=[start_node]], whatever the TTL
    (and whatever cache an informed strategy is given). *)
Theorem start_node_holds_resource start_node resource ttl cache s :
  start_node ∈ Network.get_all_nodes (st_network s) →
  Network.has_resource (st_network s) start_node resource = true →
  (∃ R s', flooding set_iter start_node resource ttl s = (Ok R, s') ∧
           found_at_start start_node R) ∧
  (∃ R s', informed_flooding set_iter start_node resource ttl cache s
             = (Ok R, s') ∧ found_at_start start_node R) ∧
  (∃ R s', random_walk set_iter start_node resource ttl s = (Ok R, s') ∧
           found_at_start start_node R) ∧
  (∃ R s', informed_random_walk set_iter start_node resource ttl cache s
             = (Ok R, s') ∧ found_at_start start_node R).
Proof.
  intros Hn Hr. split_and!.
  - unfold flooding, bind, network_call, ret.
    rewrite bool_decide_eq_false_2 by (by intros H). rewrite Hr.
    by eexists _, _.
  - unfold informed_flooding. unfold bind at 1. rewrite cache_param_run.
    unfold bind, network_call, cache_call, cache_update, ret, cache_param_store.
    cbn [st_network st_cache]. rewrite bool_decide_eq_false_2 by (by intros H).
    destruct (Cache.has _ _ _); [by eexists _, _|].
    cbn [st_network]. rewrite Hr. by eexists _, _.
  - unfold random_walk, bind, network_call, ret.
    rewrite bool_decide_eq_false_2 by (by intros H). rewrite Hr.
    by eexists _, _.
  - unfold informed_random_walk. unfold bind at 1. rewrite cache_param_run.
    unfold bind, network_call, cache_call, cache_update, ret, cache_param_store.
    cbn [st_network st_cache]. rewrite bool_decide_eq_false_2 by (by intros H).
    destruct (Cache.has _ _ _); [by eexists _, _|].
    cbn [st_network]. rewrite Hr. by eexists _, _.
Qed.

(** C10. An informed strategy trusts the positive belief of the cache it is
    given about the start node: when the start node is a node of the
    network and the cache records (start node, resource) as positive, the
    search returns [found=True], [messages=0], [nodes_visited=1],
    [path=[start_node]] at once and leaves the cache as it was, whether or
    not the node holds the resource in the network. *)
Theorem start_node_believed_positive start_node resource ttl c s :
  start_node ∈ Network.get_all_nodes (st_network s) →
  Cache.has c start_node resource = true →
  (∃ R s', informed_flooding set_iter start_node resource ttl (Some c) s
             = (Ok R, s') ∧
           found_at_start start_node R ∧ st_cache s' = c) ∧
  (∃ R s', informed_random_walk set_iter start_node resource ttl (Some c) s
             = (Ok R, s') ∧
           found_at_start start_node R ∧ st_cache s' = c).
Proof.
  intros Hn Hc. split.
  - unfold informed_flooding. unfold bind at 1. rewrite cache_param_run.
    unfold bind, network_call, cache_call, ret, cache_param_store.
    cbn [st_network st_cache].
    rewrite bool_decide_eq_false_2 by (by intros H).
    cbn [st_network st_cache]. rewrite Hc. by eexists _, _.
  - unfold informed_random_walk. unfold bind at 1. rewrite cache_param_run.
    unfold bind, network_call, cache_call, ret, cache_param_store.
    cbn [st_network st_cache].
    rewrite bool_decide_eq_false_2 by (by intros H).
    cbn [st_network st_cache]. rewrite Hc. by eexists _, _.
Qed.

Lemma bfs_outcome_exhausted network start_node R :
  start_node ∈ Network.get_all_nodes network →
  bfs_outcome set_iter network start_node R →
  found R = false →
  ∃ V, start_node ∈ V ∧ path R = set_iter V ∧
       nodes_visited R = Z.of_nat (size V).
Proof.
  intros Hn [H ->| _ ->|_ (_ & V & HV & _ & Hnv & Hp)] Hf; [done..|].
  exists V. unfold bfs_init in HV, Hnv.
  cbn [bv_visited bv_nodes_visited] in HV, Hnv. rewrite size_singleton in Hnv.
  split_and!; [set_solver|by apply Hp|lia].
Qed.

(** C7 (as amended). When the start node is a node of the network and the
    search ends without success, [flooding] returns [found=False] with the
    visited set as [path] and again as [all_visited]; [informed_flooding]
    returns [found=False] with the visited set as [path] and no
    [all_visited] key.  In both, [nodes_visited] is the size of that set,
    which contains the start node. *)
Theorem flooding_exhausted start_node resource ttl cache s :
  start_node ∈ Network.get_all_nodes (st_network s) →
  (∃ R s', flooding set_iter start_node resource ttl s = (Ok R, s') ∧
           (found R = false →
            ∃ V, start_node ∈ V ∧ nodes_visited R = Z.of_nat (size V) ∧
                 path R = set_iter V ∧ all_visited R = Some (set_iter V))) ∧
  (∃ R s', informed_flooding set_iter start_node resource ttl cache s
             = (Ok R, s') ∧
           (found R = false →
            ∃ V, start_node ∈ V ∧ nodes_visited R = Z.of_nat (size V) ∧
                 path R = set_iter V ∧ all_visited R = None)).
Proof.
  intros Hn. split.
  - destruct (flooding_spec start_node resource ttl s) as (R & E & Ho & Ha).
    exists R, s. split; [done|]. intros Hf.
    destruct (bfs_outcome_exhausted _ _ _ Hn Ho Hf) as (V & ? & HV & ?).
    exists V. split_and!; [done..|]. rewrite <- HV. by apply Ha.
  - destruct (informed_flooding_spec start_node resource ttl cache s)
      as (R & s' & E & _ & Ho & Ha).
    exists R, s'. split; [done|]. intros Hf.
    destruct (bfs_outcome_exhausted _ _ _ Hn Ho Hf) as (V & ? & HV & ?).
    exists V. by split_and!.
Qed.

(** C8. No strategy changes the network: each of the four returns, and the
    [Network] object of the store it leaves is the one it was given, with
    the same nodes, adjacency sets and resource lists.  (The strategies only
    make reading calls; the adjacency set that [get_neighbors] hands out is
    iterated or copied, never assigned to.) *)
Theorem strategies_leave_network start_node resource ttl cache s :
  (∃ R s', flooding set_iter start_node resource ttl s = (Ok R, s') ∧
           st_network s' = st_network s) ∧
  (∃ R s', informed_flooding set_iter start_node resource ttl cache s
             = (Ok R, s') ∧ st_network s' = st_network s) ∧
  (∃ R s', random_walk set_iter start_node resource ttl s = (Ok R, s') ∧
           st_network s' = st_network s) ∧
  (∃ R s', informed_random_walk set_iter start_node resource ttl cache s
             = (Ok R, s') ∧ st_network s' = st_network s).
Proof.
  split_and!.
  - destruct (flooding_spec start_node resource ttl s) as (R & E & _).
    by exists R, s.
  - destruct (informed_flooding_spec start_node resource ttl cache s)
      as (R & s' & E & [Hs _] & _). by exists R, s'.
  - destruct (random_walk_spec start_node resource ttl s)
      as (R & s' & E & Hs & _). by exists R, s'.
  - destruct (informed_random_walk_spec start_node resource ttl cache s)
      as (R & s' & E & [Hs _] & _). by exists R, s'.
Qed.


(** C9. [run_search] raises, with the message that names the unknown
    algorithm, exactly when the identifier is none of [flooding],
    [informed_flooding], [random_walk], [informed_random_walk]; for each of
    the four it is the call of that strategy (the informed ones on a fresh
    cache seeded from the network) and returns its record. *)
Theorem run_search_dispatch algorithm start_node resource ttl s :
  let seeded := Cache.update_from_network Cache.init (st_network s) in
  ((∃ e s', run_search set_iter algorithm start_node resource ttl s
              = (Raise e, s')) ↔ ¬ recognized algorithm) ∧
  (¬ recognized algorithm →
   run_search set_iter algorithm start_node resource ttl s
   = (Raise (ValueError ("Algoritmo desconhecido: " +:+ algorithm)), s)) ∧
  (recognized algorithm →
   ∃ R s', run_search set_iter algorithm start_node resource ttl s
           = (Ok R, s')) ∧
  run_search set_iter "flooding" start_node resource ttl s
  = flooding set_iter start_node resource ttl s ∧
  run_search set_iter "informed_flooding" start_node resource ttl s
  = informed_flooding set_iter start_node resource ttl (Some seeded) s ∧
  run_search set_iter "random_walk" start_node resource ttl s
  = random_walk set_iter start_node resource ttl s ∧
  run_search set_iter "informed_random_walk" start_node resource ttl s
  = informed_random_walk set_iter start_node resource ttl (Some seeded) s.
Proof.
  intros seeded.
  assert (recognized algorithm →
          ∃ R s', run_search set_iter algorithm start_node resource ttl s
                  = (Ok R, s')) as Hok.
  { unfold recognized. rewrite !elem_of_cons, elem_of_nil.
    unfold run_search. intros [->|[->|[->|[->|[]]]]]; simpl.
    - destruct (flooding_spec start_node resource ttl s) as (R & E & _).
      by exists R, s.
    - destruct (informed_flooding_spec start_node resource ttl (Some seeded) s)
        as (R & s' & E & _). by exists R, s'.
    - destruct (random_walk_spec start_node resource ttl s)
        as (R & s' & E & _). by exists R, s'.
    - destruct (informed_random_walk_spec start_node resource ttl
                  (Some seeded) s) as (R & s' & E & _). by exists R, s'. }
  assert (¬ recognized algorithm →
          run_search set_iter algorithm start_node resource ttl s
          = (Raise (ValueError ("Algoritmo desconhecido: " +:+ algorithm)), s))
    as Hraise.
  { unfold recognized. rewrite !elem_of_cons, elem_of_nil. intros Hn.
    unfold run_search. repeat (case_bool_decide; [tauto|]). done. }
  split_and!; [|done..].
  split.
  - intros (e & s' & E) Hr. destruct (Hok Hr) as (R & s'' & E'). congruence.
  - intros Hn. eexists _, _. by apply Hraise.
Qed.


Lemma bfs_outcome_nodes_visited network start_node R :
  neighbors_are_nodes network →
  bfs_outcome set_iter network start_node R →
  (nodes_visited R ≤ Z.of_nat (size (Network.get_all_nodes network)))%Z.
Proof.
  intros Hv [_ ->|Hn ->|Hn (_ & V & HV & HW & Hnv & _)].
  - simpl. lia.
  - simpl. assert (size ({[start_node]} : gset string)
                   ≤ size (Network.get_all_nodes network))%nat as H
      by (apply subseteq_size; set_solver).
    rewrite size_singleton in H. lia.
  - unfold bfs_init in Hnv. cbn [bv_visited bv_nodes_visited] in Hnv.
    rewrite size_singleton in Hnv.
    assert (size V ≤ size (Network.get_all_nodes network))%nat as H.
    { apply subseteq_size. apply all_neighbors_nodes in Hv. set_solver. }
    lia.
Qed.

Lemma geb_false (a b : Z) : (a < b)%Z → (a >=? b)%Z = false.
Proof. intros H. rewrite Z.geb_leb. apply Z.leb_gt. lia. Qed.

Lemma geb_true (a b : Z) : (b ≤ a)%Z → (a >=? b)%Z = true.
Proof. intros H. rewrite Z.geb_leb. apply Z.leb_le. lia. Qed.

Lemma flooding_messages_mono start_node resource t1 t2 s R1 R2 s1 s2 :
  (t1 ≤ t2)%Z →
  flooding set_iter start_node resource t1 s = (Ok R1, s1) →
  flooding set_iter start_node resource t2 s = (Ok R2, s2) →
  (messages R1 ≤ messages R2)%Z.
Proof.
  intros Ht. unfold flooding, bind, network_call, ret.
  case_bool_decide; [by intros [= <- _] [= <- _]|].
  destruct (Network.has_resource _ _ _); [by intros [= <- _] [= <- _]|].
  destruct (decide (0 < t1)%Z) as [Hpos|Hneg].
  - intros H1 H2.
    eapply (flooding_while_sim set_iter resource t1 t2 Ht);
      [by apply bfs_sim_init|exact H1|exact H2].
  - unfold bfs_fuel at 1. simpl flooding_while at 1.
    rewrite geb_true by lia. intros [= <- _] H2%flooding_while_messages.
    exact H2.
Qed.

Lemma informed_flooding_messages_mono start_node resource t1 t2 cache s
    R1 R2 s1 s2 :
  (t1 ≤ t2)%Z →
  informed_flooding set_iter start_node resource t1 cache s = (Ok R1, s1) →
  informed_flooding set_iter start_node resource t2 cache s = (Ok R2, s2) →
  (messages R1 ≤ messages R2)%Z.
Proof.
  intros Ht H1 H2. unfold informed_flooding in H1, H2.
  unfold bind at 1 in H1. unfold bind at 1 in H2.
  rewrite cache_param_run in H1, H2. revert H1 H2.
  generalize (cache_param_store cache s). intros s0.
  unfold bind, network_call, cache_call, cache_update, ret.
  case_bool_decide; [by intros [= <- _] [= <- _]|].
  destruct (Cache.has _ _ _); [by intros [= <- _] [= <- _]|].
  destruct (Network.has_resource _ _ _); [by intros [= <- _] [= <- _]|].
  destruct (decide (0 < t1)%Z) as [Hpos|Hneg].
  - intros H1 H2.
    eapply (informed_flooding_while_sim set_iter resource t1 t2 Ht);
      [by apply bfs_sim_init|exact H1|exact H2].
  - unfold bfs_fuel at 1. simpl informed_flooding_while at 1.
    rewrite geb_true by lia.
    intros [= <- _] H2%informed_flooding_while_messages. exact H2.
Qed.

(** C4. On a network whose neighbours are all nodes, for a fixed start node,
    resource, initial store (and cache argument, for [informed_flooding]):
    the searches with budgets [t1 <= t2] both return, the one with the
    larger budget reports at least as many messages, and [nodes_visited]
    does not exceed the number of nodes. *)
Theorem flooding_messages_monotone_visits_bounded start_node resource t1 t2
    cache s :
  neighbors_are_nodes (st_network s) →
  (t1 ≤ t2)%Z →
  let n := Z.of_nat (size (Network.get_all_nodes (st_network s))) in
  (∃ R1 R2 s1 s2,
     flooding set_iter start_node resource t1 s = (Ok R1, s1) ∧
     flooding set_iter start_node resource t2 s = (Ok R2, s2) ∧
     (messages R1 ≤ messages R2)%Z ∧
     (nodes_visited R1 ≤ n)%Z ∧ (nodes_visited R2 ≤ n)%Z) ∧
  (∃ R1 R2 s1 s2,
     informed_flooding set_iter start_node resource t1 cache s = (Ok R1, s1) ∧
     informed_flooding set_iter start_node resource t2 cache s = (Ok R2, s2) ∧
     (messages R1 ≤ messages R2)%Z ∧
     (nodes_visited R1 ≤ n)%Z ∧ (nodes_visited R2 ≤ n)%Z).
Proof.
  intros Hv Ht n. split.
  - destruct (flooding_spec start_node resource t1 s) as (R1 & E1 & Ho1 & _).
    destruct (flooding_spec start_node resource t2 s) as (R2 & E2 & Ho2 & _).
    exists R1, R2, s, s.
    split_and!; [done|done| |by eapply bfs_outcome_nodes_visited..].
    by eapply flooding_messages_mono.
  - destruct (informed_flooding_spec start_node resource t1 cache s)
      as (R1 & s1 & E1 & _ & Ho1 & _).
    destruct (informed_flooding_spec start_node resource t2 cache s)
      as (R2 & s2 & E2 & _ & Ho2 & _).
    exists R1, R2, s1, s2.
    split_and!; [done|done| |by eapply bfs_outcome_nodes_visited..].
    by eapply informed_flooding_messages_mono.
Qed.


(** C6 (as amended). When [informed_flooding] expands a node of depth below
    the TTL, a neighbour is left out of the candidates exactly when the
    cache believes the pair negative and does not believe it positive.  The
    candidates are then probed in order, one message each, visited or not.
    When some candidate is new and holds the resource, the search returns at
    the first such candidate, with [found] true and the path to it: every
    candidate before it was visited already or lacks the resource, and the
    candidates after it are not counted.  Only when no candidate is new and
    holds the resource does the loop run to its end, with one message per
    candidate and all of them visited, and the search goes on. *)
Theorem informed_flooding_expansion fuel resource ttl v s current depth p
    queue :
  bv_queue v = (current, depth, p) :: queue →
  (depth < ttl)%Z →
  let neighbors := set_iter (Network.get_neighbors (st_network s) current) in
  let candidates :=
    filter (λ n, candidate (st_cache s) resource n = true) neighbors in
  let v0 := {| bv_visited := bv_visited v; bv_queue := queue;
               bv_messages := bv_messages v;
               bv_nodes_visited := bv_nodes_visited v |} in
  (∀ n, n ∈ neighbors →
        (n ∉ candidates ↔
         Cache.has_negative (st_cache s) n resource = true ∧
         Cache.has (st_cache s) n resource = false)) ∧
  ∃ r s',
    informed_flooding_for resource ttl depth p candidates v0 s = (Ok r, s') ∧
    informed_flooding_while set_iter (S fuel) resource ttl v s
    = match r with
      | inl R => (Ok R, s')
      | inr v' => informed_flooding_while set_iter fuel resource ttl v' s'
      end ∧
    expansion_post (st_network s) resource p candidates v0 r.
Proof.
  intros Hq Hd neighbors candidates v0. split.
  - intros n Hn. subst candidates. rewrite list_elem_of_filter.
    rewrite <- candidate_false. destruct (candidate _ _ _); naive_solver.
  - destruct (informed_flooding_for_expansion (st_network s) resource ttl depth
                p candidates v0 s eq_refl) as (r & s' & E & Hp).
    exists r, s'. split_and!; [done| |done].
    simpl informed_flooding_while. rewrite Hq, geb_false by done.
    unfold bind at 1, network_call. unfold bind at 1, cache_call.
    unfold bind. fold neighbors. fold candidates. fold v0. rewrite E.
    by destruct r.
Qed.

End Properties.

(** ** The cache operations *)

(** C2 (as amended). [add_negative] is not guarded: it always records the
    pair in the negative set and leaves the positive map as it is, also when
    the pair is recorded positive, so that the pair is then in both.  The
    guard is on the other side: [add] records the pair positive and removes
    it from the negative set, so right after [add] the pair is positive and
    not negative. *)
Theorem add_negative_unguarded c n r :
  Cache.has_negative (Cache.add_negative c n r) n r = true ∧
  Cache.cache (Cache.add_negative c n r) = Cache.cache c ∧
  Cache.has (Cache.add_negative c n r) n r = Cache.has c n r ∧
  Cache.has (Cache.add c n r) n r = true ∧
  Cache.has_negative (Cache.add c n r) n r = false.
Proof.
  split_and!; [|done|done| |].
  - apply Cache_has_negative_add_negative. by left.
  - apply Cache_has_add. by left.
  - apply not_true_is_false. rewrite Cache_has_negative_add. naive_solver.
Qed.

(** ** Concrete runs *)

(** The iteration order used for the concrete runs. *)
Lemma elements_iter (s : gset string) : elements s ≡ₚ elements s.
Proof. reflexivity. Qed.

Lemma ring_valid : neighbors_are_nodes ring.
Proof.
  apply Network_init_valid. unfold edges_valid.
  repeat constructor; by vm_compute.
Qed.

(** The two scenarios of the specification on the ring A-B-C-D-A, run with
    [elements] as the iteration order (B lists its neighbours as C, A). *)
Example ring_flooding_y :
  (flooding elements "A" "y" 3 (store0 ring)).1
  = Ok {| found := true; messages := 3; nodes_visited := 4;
          path := ["A"; "B"; "C"];
          all_visited := Some ["C"; "A"; "B"; "D"] |}.
Proof. vm_compute. reflexivity. Qed.

Example ring_flooding_z :
  (flooding elements "A" "z" 2 (store0 ring)).1
  = Ok {| found := false; messages := 6; nodes_visited := 4;
          path := ["C"; "A"; "B"; "D"];
          all_visited := Some ["C"; "A"; "B"; "D"] |}.
Proof. vm_compute. reflexivity. Qed.

(** C2, counterexample: a pair recorded positive; [add_negative] changes the
    cache, and the pair is then both positive and negative. *)
Lemma add_negative_after_add :
  let c := Cache.add Cache.init "A" "x" in
  Cache.has c "A" "x" = true ∧
  Cache.add_negative c "A" "x" ≠ c ∧
  Cache.has (Cache.add_negative c "A" "x") "A" "x" = true ∧
  Cache.has_negative (Cache.add_negative c "A" "x") "A" "x" = true.
Proof.
  split_and!; [by vm_compute| |by vm_compute..].
  intros H. apply (f_equal (λ c, Cache.has_negative c "A" "x")) in H.
  vm_compute in H. discriminate.
Qed.

(** C3, counterexample: a walk from a start node that is not in the network
    returns an empty path and no message, so [len(path) - 1] is [-1]. *)
Lemma walk_invalid_start :
  ∃ R, (random_walk elements "Q" "y" 3 (store0 ring)).1 = Ok R ∧
       path R = [] ∧ messages R = 0%Z ∧
       (Z.of_nat (length (path R)) - 1)%Z ≠ messages R.
Proof. exists result_invalid_start. split_and!; by vm_compute. Qed.

(** C6, counterexample: S has the neighbours P and Q, neither is excluded
    by the empty cache, and both hold the resource.  Whichever is probed
    first is a hit: the search returns with one message, and the other
    candidate is never probed. *)
Lemma expansion_stops_at_hit :
  Network.get_neighbors star "S" = {["P"; "Q"]} ∧
  candidate Cache.init "y" "P" = true ∧
  candidate Cache.init "y" "Q" = true ∧
  ∃ R, (informed_flooding elements "S" "y" 3 (Some Cache.init)
          (store0 star)).1 = Ok R ∧
       found R = true ∧ messages R = 1%Z ∧ nodes_visited R = 2%Z ∧
       length (path R) = 2%nat.
Proof.
  split_and!; [by vm_compute..|].
  eexists. split; [vm_compute; reflexivity|]. by split_and!.
Qed.

(** C7, counterexample: on the ring, with no node holding z,
    [informed_flooding] runs out of nodes within two hops and returns a
    record without [all_visited]. *)
Lemma informed_flooding_no_all_visited :
  ∃ R, (informed_flooding elements "A" "z" 2 None (store0 ring)).1 = Ok R ∧
       found R = false ∧ messages R = 5%Z ∧ nodes_visited R = 4%Z ∧
       path R ≡ₚ ["A"; "B"; "C"; "D"] ∧ all_visited R = None.
Proof.
  eexists. split; [vm_compute; reflexivity|].
  split_and!; [done..| |done]. simpl.
  etrans; [apply perm_swap|]. apply perm_skip, perm_swap.
Qed.

(** Instances of the theorems above on the ring. *)

Lemma informed_search_cache_sound_ring :
  (∃ R s', informed_flooding elements "A" "y" 3 (Some Cache.init)
             (store0 ring) = (Ok R, s') ∧
           cache_sound ring (st_cache s')) ∧
  (∃ R s', informed_random_walk elements "A" "y" 3 (Some Cache.init)
             (store0 ring) = (Ok R, s') ∧
           cache_sound ring (st_cache s')).
Proof.
  apply (informed_search_cache_sound elements elements_iter "A" "y" 3
           (Some Cache.init) (store0 ring)).
  right. left. reflexivity.
Defined.

Lemma walk_path_messages_ttl_ring :
  "A" ∈ Network.get_all_nodes ring ∧
  (∃ R s', random_walk elements "A" "y" 3 (store0 ring) = (Ok R, s') ∧
           (Z.of_nat (length (path R)) - 1 = messages R)%Z ∧
           (messages R ≤ 3)%Z) ∧
  (∃ R s', informed_random_walk elements "A" "y" 3 None (store0 ring)
             = (Ok R, s') ∧
           (Z.of_nat (length (path R)) - 1 = messages R)%Z ∧
           (messages R ≤ 3)%Z).
Proof.
  assert ("A" ∈ Network.get_all_nodes ring) as Hn by (by vm_compute).
  split; [exact Hn|].
  apply (walk_path_messages_ttl elements "A" "y" 3 None (store0 ring) Hn).
  lia.
Defined.

Lemma start_node_holds_resource_ring :
  Network.has_resource ring "A" "x" = true ∧
  (∃ R s', flooding elements "A" "x" 5 (store0 ring) = (Ok R, s') ∧
           found_at_start "A" R) ∧
  (∃ R s', informed_flooding elements "A" "x" 5 None (store0 ring)
             = (Ok R, s') ∧ found_at_start "A" R) ∧
  (∃ R s', random_walk elements "A" "x" 5 (store0 ring) = (Ok R, s') ∧
           found_at_start "A" R) ∧
  (∃ R s', informed_random_walk elements "A" "x" 5 None (store0 ring)
             = (Ok R, s') ∧ found_at_start "A" R).
Proof.
  split; [reflexivity|].
  apply (start_node_holds_resource elements "A" "x" 5 None (store0 ring)).
  - by vm_compute.
  - reflexivity.
Defined.

Lemma start_node_believed_positive_ring :
  let c := Cache.add Cache.init "B" "y" in
  Network.has_resource ring "B" "y" = false ∧
  (∃ R s', informed_flooding elements "B" "y" 3 (Some c) (store0 ring)
             = (Ok R, s') ∧ found_at_start "B" R ∧ st_cache s' = c) ∧
  (∃ R s', informed_random_walk elements "B" "y" 3 (Some c) (store0 ring)
             = (Ok R, s') ∧ found_at_start "B" R ∧ st_cache s' = c).
Proof.
  intros c. split; [reflexivity|].
  apply (start_node_believed_positive elements "B" "y" 3 c (store0 ring)).
  - by vm_compute.
  - by vm_compute.
Defined.

Lemma flooding_exhausted_ring :
  (∃ R s', flooding elements "A" "z" 2 (store0 ring) = (Ok R, s') ∧
           (found R = false →
            ∃ V : gset string, "A" ∈ V ∧ nodes_visited R = Z.of_nat (size V) ∧
                 path R = elements V ∧ all_visited R = Some (elements V))) ∧
  (∃ R s', informed_flooding elements "A" "z" 2 None (store0 ring)
             = (Ok R, s') ∧
           (found R = false →
            ∃ V : gset string, "A" ∈ V ∧ nodes_visited R = Z.of_nat (size V) ∧
                 path R = elements V ∧ all_visited R = None)).
Proof.
  apply (flooding_exhausted elements elements_iter "A" "z" 2 None
           (store0 ring)).
  by vm_compute.
Defined.

Lemma strategies_leave_network_ring :
  (∃ R s', flooding elements "A" "y" 3 (store0 ring) = (Ok R, s') ∧
           st_network s' = ring) ∧
  (∃ R s', informed_flooding elements "A" "y" 3 None (store0 ring)
             = (Ok R, s') ∧ st_network s' = ring) ∧
  (∃ R s', random_walk elements "A" "y" 3 (store0 ring) = (Ok R, s') ∧
           st_network s' = ring) ∧
  (∃ R s', informed_random_walk elements "A" "y" 3 None (store0 ring)
             = (Ok R, s') ∧ st_network s' = ring).
Proof.
  exact (strategies_leave_network elements elements_iter "A" "y" 3 None
           (store0 ring)).
Defined.

Lemma run_search_dispatch_ring :
  (∃ e s', run_search elements "dfs" "A" "y" 3 (store0 ring) = (Raise e, s')) ∧
  (∃ R s', run_search elements "flooding" "A" "y" 3 (store0 ring)
           = (Ok R, s')).
Proof.
  destruct (run_search_dispatch elements elements_iter "dfs" "A" "y" 3
              (store0 ring)) as (_ & Hraise & _).
  destruct (run_search_dispatch elements elements_iter "flooding" "A" "y" 3
              (store0 ring)) as (_ & _ & Hok & _).
  split.
  - eexists _, _. apply Hraise. unfold recognized.
    rewrite !elem_of_cons, elem_of_nil. intros [H|[H|[H|[H|[]]]]]; discriminate H.
  - apply Hok. unfold recognized. apply elem_of_cons. by left.
Defined.

Lemma flooding_messages_monotone_visits_bounded_ring :
  let n := Z.of_nat (size (Network.get_all_nodes ring)) in
  (∃ R1 R2 s1 s2,
     flooding elements "A" "z" 1 (store0 ring) = (Ok R1, s1) ∧
     flooding elements "A" "z" 2 (store0 ring) = (Ok R2, s2) ∧
     (messages R1 ≤ messages R2)%Z ∧
     (nodes_visited R1 ≤ n)%Z ∧ (nodes_visited R2 ≤ n)%Z) ∧
  (∃ R1 R2 s1 s2,
     informed_flooding elements "A" "z" 1 None (store0 ring) = (Ok R1, s1) ∧
     informed_flooding elements "A" "z" 2 None (store0 ring) = (Ok R2, s2) ∧
     (messages R1 ≤ messages R2)%Z ∧
     (nodes_visited R1 ≤ n)%Z ∧ (nodes_visited R2 ≤ n)%Z).
Proof.
  apply (flooding_messages_monotone_visits_bounded elements elements_iter
           "A" "z" 1 2 None (store0 ring)).
  - exact ring_valid.
  - lia.
Defined.

Lemma informed_flooding_expansion_ring :
  let candidates := filter (λ n, candidate Cache.init "y" n = true)
                      (elements (Network.get_neighbors ring "B")) in
  let v0 := {| bv_visited := {["B"]}; bv_queue := [];
               bv_messages := 0; bv_nodes_visited := 1 |} in
  ∃ r s',
    informed_flooding_for "y" 3 0 ["B"] candidates v0 (store0 ring)
    = (Ok r, s') ∧
    expansion_post ring "y" ["B"] candidates v0 r.
Proof.
  intros candidates v0.
  destruct (informed_flooding_expansion elements 5 "y" 3 (bfs_init "B")
              (store0 ring) "B" 0 ["B"] [] eq_refl ltac:(lia))
    as [_ (r & s' & E & _ & Hp)].
  exists r, s'. split; [exact E|exact Hp].
Defined.

(** * Further properties of the code *)

(** ** utils/cache.py *)

Lemma Cache_has_elem c n r : Cache.has c n r = true ↔ r ∈ Cache.get c n.
Proof. unfold Cache.has, Cache.get. apply bool_decide_eq_true. Qed.

Lemma Cache_eq (c1 c2 : Cache.t) :
  Cache.cache c1 = Cache.cache c2 →
  Cache.negative_cache c1 = Cache.negative_cache c2 → c1 = c2.
Proof. destruct c1, c2; simpl; congruence. Qed.

(** X1. Recording an observation twice is recording it once: a second
    [add], or a second [add_negative], with the same arguments leaves the
    cache exactly as the first one did. *)
Theorem cache_updates_idempotent c n r :
  Cache.add (Cache.add c n r) n r = Cache.add c n r ∧
  Cache.add_negative (Cache.add_negative c n r) n r = Cache.add_negative c n r.
Proof.
  split; apply Cache_eq; unfold Cache.add, Cache.add_negative; simpl.
  - destruct (Cache.cache c !! n) as [s|] eqn:E; simpl;
      rewrite ?E, ?lookup_insert_eq; simpl; rewrite ?lookup_insert_eq; simpl;
      rewrite insert_insert_eq; f_equal; set_solver.
  - destruct (Cache.negative_cache c !! n) as [s|] eqn:E.
    + rewrite lookup_insert_eq, insert_insert_eq. f_equal. set_solver.
    + by rewrite E.
  - done.
  - destruct (Cache.negative_cache c !! n) as [s|] eqn:E; simpl;
      rewrite ?E, ?lookup_insert_eq; simpl; rewrite ?lookup_insert_eq; simpl;
      rewrite insert_insert_eq; f_equal; set_solver.
Qed.

Lemma cache_update_other c n r n' r' :
  (n', r') ≠ (n, r) →
  Cache.has (Cache.add c n r) n' r' = Cache.has c n' r' ∧
  Cache.has_negative (Cache.add c n r) n' r' = Cache.has_negative c n' r' ∧
  Cache.has (Cache.add_negative c n r) n' r' = Cache.has c n' r' ∧
  Cache.has_negative (Cache.add_negative c n r) n' r'
  = Cache.has_negative c n' r'.
Proof.
  intros Hne.
  assert (¬ (n' = n ∧ r' = r)) as Hne' by (intros [-> ->]; done).
  split_and!; [| |done|]; apply eq_true_iff_eq.
  - rewrite Cache_has_add. tauto.
  - rewrite Cache_has_negative_add. tauto.
  - rewrite Cache_has_negative_add_negative. tauto.
Qed.

(** X2. An update is local to its pair: [add] and [add_negative] on
    [(n, r)] leave the positive and the negative belief about every other
    pair as they were. *)
Theorem cache_update_frame c n r n' r' :
  (n', r') ≠ (n, r) →
  Cache.has (Cache.add c n r) n' r' = Cache.has c n' r' ∧
  Cache.has_negative (Cache.add c n r) n' r' = Cache.has_negative c n' r' ∧
  Cache.has (Cache.add_negative c n r) n' r' = Cache.has c n' r' ∧
  Cache.has_negative (Cache.add_negative c n r) n' r'
  = Cache.has_negative c n' r'.
Proof. apply cache_update_other. Qed.

Lemma cache_update_frame_instance :
  Cache.has (Cache.add Cache.init "A" "x") "B" "x" = false ∧
  Cache.has_negative (Cache.add_negative Cache.init "A" "x") "A" "y" = false.
Proof.
  destruct (cache_update_frame Cache.init "A" "x" "B" "x") as (H1 & _);
    [discriminate|].
  destruct (cache_update_frame Cache.init "A" "x" "A" "y") as (_ & _ & _ & H4);
    [discriminate|].
  split; [rewrite H1|rewrite H4]; reflexivity.
Defined.

Lemma Cache_has_negative_add_all_iff c n rs n' r' :
  Cache.has_negative (Cache.add_all c n rs) n' r' = true ↔
  ¬ (n' = n ∧ r' ∈ rs) ∧ Cache.has_negative c n' r' = true.
Proof.
  unfold Cache.add_all. revert c.
  induction rs as [|r rs IH]; intros c; simpl.
  - set_solver.
  - rewrite IH, Cache_has_negative_add. set_solver.
Qed.

Lemma cache_fold_has_negative_iff (l : list (string * list string)) c n r :
  Cache.has_negative (foldl (λ c kv, Cache.add_all c kv.1 kv.2) c l) n r = true ↔
  ¬ (∃ rs, (n, rs) ∈ l ∧ r ∈ rs) ∧ Cache.has_negative c n r = true.
Proof.
  revert c. induction l as [|[k rs] l IH]; intros c; simpl.
  - set_solver.
  - rewrite IH, Cache_has_negative_add_all_iff. split.
    + intros (H1 & H2 & H3). split; [|done].
      intros (rs' & Hin & Hr). apply elem_of_cons in Hin as [[= -> ->]|Hin].
      * by apply H2.
      * apply H1. eauto.
    + intros (H1 & H2). split_and!; [|  |done].
      * intros (rs' & Hin & Hr). apply H1. exists rs'. set_solver.
      * intros [-> Hr]. apply H1. exists rs. set_solver.
Qed.

(** X3. Seeding adds to the positive set of every node exactly the
    resources the network lists for it, and drops from the negative sets
    exactly the pairs the network contradicts; on a fresh cache the result
    is the ground truth with no negative belief. *)
Theorem update_from_network_beliefs c network n r :
  Cache.get (Cache.update_from_network c network) n
  = Cache.get c n ∪ list_to_set (default [] (Network.resources network !! n)) ∧
  Cache.has_negative (Cache.update_from_network c network) n r
  = Cache.has_negative c n r && negb (Network.has_resource network n r) ∧
  Cache.has (Cache.update_from_network Cache.init network) n r
  = Network.has_resource network n r ∧
  Cache.has_negative (Cache.update_from_network Cache.init network) n r = false.
Proof.
  assert (∀ c, Cache.has_negative (Cache.update_from_network c network) n r
               = Cache.has_negative c n r
                 && negb (Network.has_resource network n r)) as Hneg.
  { intros c'. apply eq_true_iff_eq.
    unfold Cache.update_from_network. rewrite cache_fold_has_negative_iff.
    rewrite andb_true_iff, negb_true_iff.
    unfold Network.has_resource. rewrite bool_decide_eq_false.
    split.
    - intros [H1 H2]. split; [done|]. intros H. apply H1.
      destruct (Network.resources network !! n) as [rs|] eqn:E; simpl in H.
      + exists rs. split; [by apply elem_of_map_to_list|done].
      + set_solver.
    - intros [H1 H2]. split; [|done].
      intros (rs & Hin%elem_of_map_to_list & Hr). rewrite Hin in H2. done. }
  split_and!.
  - apply set_eq. intros x.
    rewrite <- Cache_has_elem, Cache_has_update_from_network, elem_of_union.
    rewrite <- Cache_has_elem, elem_of_list_to_set.
    unfold Network.has_resource. rewrite bool_decide_eq_true. tauto.
  - apply Hneg.
  - apply eq_true_iff_eq. rewrite Cache_has_update_from_network.
    rewrite Cache_has_init. naive_solver.
  - rewrite Hneg. done.
Qed.

(** ** network.py *)

Lemma dd_add_lookup g k v x y :
  y ∈ default (∅ : gset string) (Network.dd_add g k v !! x) ↔
  (x = k ∧ y = v) ∨ y ∈ default (∅ : gset string) (g !! x).
Proof.
  unfold Network.dd_add. destruct (decide (x = k)) as [->|Hne].
  - rewrite lookup_insert_eq. simpl. set_solver.
  - rewrite lookup_insert_ne by done. naive_solver.
Qed.

Lemma dd_add_dom g k v : dom (Network.dd_add g k v) = {[k]} ∪ dom g.
Proof. unfold Network.dd_add. by rewrite dom_insert_L. Qed.

Lemma edges_fold_lookup (es : list (string * string)) g x y :
  y ∈ default (∅ : gset string)
        (foldl (λ g e, Network.dd_add (Network.dd_add g e.1 e.2) e.2 e.1) g es
           !! x) ↔
  (x, y) ∈ es ∨ (y, x) ∈ es ∨ y ∈ default (∅ : gset string) (g !! x).
Proof.
  revert g. induction es as [|[a b] es IH]; intros g; simpl.
  - set_solver.
  - rewrite IH, !dd_add_lookup, !elem_of_cons. naive_solver.
Qed.

Lemma edges_fold_dom (es : list (string * string)) g :
  dom (foldl (λ g e, Network.dd_add (Network.dd_add g e.1 e.2) e.2 e.1) g es)
  = dom g ∪ list_to_set es.*1 ∪ list_to_set es.*2.
Proof.
  revert g. induction es as [|[a b] es IH]; intros g; simpl.
  - set_solver.
  - rewrite IH, !dd_add_dom. set_solver.
Qed.

Lemma Network_init_graph num_nodes resources edges :
  let g0 := foldl (λ g e, Network.dd_add (Network.dd_add g e.1 e.2) e.2 e.1)
              ∅ edges in
  let g := Network.graph (Network.init num_nodes resources edges) in
  (∀ x, default ∅ (g !! x) = default ∅ (g0 !! x)) ∧
  dom g = dom g0 ∪ dom resources.
Proof.
  intros g0 g. subst g. unfold Network.init. cbn [Network.graph]. fold g0.
  apply (map_fold_weak_ind
           (λ r m, (∀ x, default ∅ (r !! x) = default ∅ (g0 !! x)) ∧
                   dom r = dom g0 ∪ dom m)).
  - split; [done|]. rewrite dom_empty_L. set_solver.
  - intros i v m r Hi [H1 H2]. destruct (r !! i) as [s|] eqn:E.
    + split; [done|]. rewrite dom_insert_L, H2.
      apply (elem_of_dom_2 r) in E. rewrite H2 in E. set_solver.
    + split.
      * intros x. destruct (decide (x = i)) as [->|Hne].
        -- rewrite lookup_insert_eq, <- H1, E. done.
        -- rewrite lookup_insert_ne by done. apply H1.
      * rewrite !dom_insert_L, H2. set_solver.
Qed.

Lemma Network_init_neighbors num_nodes resources edges x y :
  y ∈ Network.get_neighbors (Network.init num_nodes resources edges) x ↔
  (x, y) ∈ edges ∨ (y, x) ∈ edges.
Proof.
  destruct (Network_init_graph num_nodes resources edges) as [H1 _].
  unfold Network.get_neighbors.
  rewrite H1, edges_fold_lookup, lookup_empty. simpl. set_solver.
Qed.

(** X4. The network built by [Network(num_nodes, resources, edges)]: [y] is
    a neighbour of [x] exactly when the list has the edge in one direction
    or the other, so adjacency is symmetric; the keys of [graph] are the
    keys of [resources] and the end points of the edges; and the node set
    is the key set of [resources]. *)
Theorem Network_init_adjacency num_nodes resources edges x y :
  let network := Network.init num_nodes resources edges in
  (y ∈ Network.get_neighbors network x ↔ (x, y) ∈ edges ∨ (y, x) ∈ edges) ∧
  (y ∈ Network.get_neighbors network x ↔ x ∈ Network.get_neighbors network y) ∧
  dom (Network.graph network)
  = dom resources ∪ list_to_set edges.*1 ∪ list_to_set edges.*2 ∧
  Network.get_all_nodes network = dom resources.
Proof.
  intros network.
  destruct (Network_init_graph num_nodes resources edges) as [H1 H2].
  assert (∀ a b, b ∈ Network.get_neighbors network a ↔
                 (a, b) ∈ edges ∨ (b, a) ∈ edges) as Hadj.
  { intros a b. unfold Network.get_neighbors, network.
    rewrite H1, edges_fold_lookup, lookup_empty. simpl. set_solver. }
  split_and!; [apply Hadj|rewrite !Hadj; tauto| |done].
  subst network. rewrite H2, edges_fold_dom, dom_empty_L. set_solver.
Qed.

(** X5. The cache the network object carries: [add_to_cache] adds the
    resource to the set [get_cache] returns for that node, leaves the sets
    of the other nodes, the graph and the resources as they were, and
    [clear_cache] empties the set of every node. *)
Theorem Network_cache_round_trip network node resource n :
  Network.get_cache (Network.add_to_cache network node resource) n
  = (if decide (n = node) then {[resource]} ∪ Network.get_cache network n
     else Network.get_cache network n) ∧
  Network.get_cache (Network.clear_cache network) n = ∅ ∧
  Network.get_neighbors (Network.add_to_cache network node resource)
  = Network.get_neighbors network ∧
  Network.has_resource (Network.add_to_cache network node resource)
  = Network.has_resource network ∧
  Network.get_all_nodes (Network.add_to_cache network node resource)
  = Network.get_all_nodes network.
Proof.
  split_and!; [|done..].
  unfold Network.get_cache, Network.add_to_cache, Network.dd_add. simpl.
  case_decide as Hn.
  - subst. by rewrite lookup_insert_eq.
  - by rewrite lookup_insert_ne.
Qed.

(** ** The strategies at the edges of their input *)

Section Edges.

Variable set_iter : gset string → list string.
Hypothesis set_iter_perm : ∀ s, set_iter s ≡ₚ elements s.

(** X6. A start node that is not a node of the network: each of the four
    strategies returns [found=False], [messages=0], [nodes_visited=0],
    [path=[]] (no [all_visited]) without a probe or a random draw; the blind
    ones leave the store as it is, the informed ones only bind (and, when
    none is passed, seed) their cache. *)
Theorem invalid_start_node start_node resource ttl cache s :
  start_node ∉ Network.get_all_nodes (st_network s) →
  let R := {| found := false; messages := 0; nodes_visited := 0; path := [];
              all_visited := None |} in
  flooding set_iter start_node resource ttl s = (Ok R, s) ∧
  informed_flooding set_iter start_node resource ttl cache s
  = (Ok R, cache_param_store cache s) ∧
  random_walk set_iter start_node resource ttl s = (Ok R, s) ∧
  informed_random_walk set_iter start_node resource ttl cache s
  = (Ok R, cache_param_store cache s).
Proof.
  intros Hn R. split_and!.
  - unfold flooding, bind, network_call, ret.
    by rewrite bool_decide_eq_true_2.
  - unfold informed_flooding. unfold bind at 1. rewrite cache_param_run.
    unfold bind, network_call, ret, cache_param_store. cbn [st_network].
    by rewrite bool_decide_eq_true_2.
  - unfold random_walk, bind, network_call, ret.
    by rewrite bool_decide_eq_true_2.
  - unfold informed_random_walk. unfold bind at 1. rewrite cache_param_run.
    unfold bind, network_call, ret, cache_param_store. cbn [st_network].
    by rewrite bool_decide_eq_true_2.
Qed.

Lemma set_iter_empty : set_iter ∅ = [].
Proof.
  apply Permutation_nil_r. rewrite set_iter_perm. by rewrite elements_empty.
Qed.

Lemma set_iter_singleton x : set_iter {[x]} = [x].
Proof.
  apply Permutation_singleton_r. rewrite set_iter_perm.
  by rewrite elements_singleton.
Qed.

Lemma walk_init_nothing_probed start_node :
  nothing_probed start_node (walk_result false (walk_init start_node)).
Proof.
  unfold nothing_probed, walk_result, walk_init.
  cbn [found messages nodes_visited path wv_messages wv_visited wv_path].
  rewrite size_singleton. by split_and!.
Qed.

(** X7. When the budget is not positive or the start node has no neighbour
    (and the start node is a node that neither holds the resource nor is
    believed to by the cache), no probe is sent: each strategy returns
    [found=False], [messages=0], [nodes_visited=1], [path=[start_node]];
    [flooding] repeats the path as [all_visited]. *)
Theorem nothing_to_probe start_node resource ttl cache s :
  start_node ∈ Network.get_all_nodes (st_network s) →
  Network.has_resource (st_network s) start_node resource = false →
  Cache.has (st_cache (cache_param_store cache s)) start_node resource = false →
  (ttl ≤ 0)%Z ∨ Network.get_neighbors (st_network s) start_node = ∅ →
  (∃ R, flooding set_iter start_node resource ttl s = (Ok R, s) ∧
        nothing_probed start_node R ∧ all_visited R = Some [start_node]) ∧
  (∃ R, informed_flooding set_iter start_node resource ttl cache s
        = (Ok R, cache_param_store cache s) ∧
        nothing_probed start_node R ∧ all_visited R = None) ∧
  (∃ R, random_walk set_iter start_node resource ttl s = (Ok R, s) ∧
        nothing_probed start_node R) ∧
  (∃ R, informed_random_walk set_iter start_node resource ttl cache s
        = (Ok R, cache_param_store cache s) ∧
        nothing_probed start_node R).
Proof.
  intros Hn Hr Hc Hedge. split_and!.
  - unfold flooding, bind, network_call, ret.
    rewrite bool_decide_eq_false_2 by (by intros H). rewrite Hr.
    unfold bfs_fuel. simpl flooding_while.
    destruct Hedge as [Ht|He].
    + rewrite geb_true by lia. eexists. split; [reflexivity|].
      simpl. rewrite set_iter_singleton. by split_and!.
    + destruct (0 >=? ttl)%Z.
      * eexists. split; [reflexivity|].
        simpl. rewrite set_iter_singleton. by split_and!.
      * unfold bind, network_call. rewrite He, set_iter_empty. simpl.
        eexists. split; [reflexivity|].
        simpl. rewrite set_iter_singleton. by split_and!.
  - unfold informed_flooding. unfold bind at 1. rewrite cache_param_run.
    unfold bind, network_call, cache_call, ret.
    change (st_network (cache_param_store cache s)) with (st_network s).
    rewrite bool_decide_eq_false_2 by (by intros H). rewrite Hc.
    cbv beta iota.
    change (st_network (cache_param_store cache s)) with (st_network s).
    rewrite Hr. cbv beta iota.
    change (st_network (cache_param_store cache s)) with (st_network s).
    unfold bfs_fuel. simpl informed_flooding_while.
    destruct Hedge as [Ht|He].
    + rewrite geb_true by lia. eexists. split; [reflexivity|].
      simpl. rewrite set_iter_singleton. by split_and!.
    + destruct (0 >=? ttl)%Z.
      * eexists. split; [reflexivity|].
        simpl. rewrite set_iter_singleton. by split_and!.
      * unfold bind, network_call, cache_call.
        change (st_network (cache_param_store cache s)) with (st_network s).
        rewrite He, set_iter_empty.
        simpl. eexists. split; [reflexivity|].
        simpl. rewrite set_iter_singleton. by split_and!.
  - unfold random_walk, bind, network_call, ret.
    rewrite bool_decide_eq_false_2 by (by intros H). rewrite Hr.
    unfold walk_fuel. simpl random_walk_while.
    destruct Hedge as [Ht|He].
    + rewrite (proj2 (Z.ltb_ge 0 ttl)) by lia.
      eexists. split; [reflexivity|].
      apply walk_init_nothing_probed.
    + destruct (0 <? ttl)%Z.
      * unfold bind, network_call. simpl. rewrite He, set_iter_empty.
        eexists. split; [reflexivity|].
        apply walk_init_nothing_probed.
      * eexists. split; [reflexivity|].
        apply walk_init_nothing_probed.
  - unfold informed_random_walk. unfold bind at 1. rewrite cache_param_run.
    unfold bind, network_call, cache_call, ret.
    change (st_network (cache_param_store cache s)) with (st_network s).
    rewrite bool_decide_eq_false_2 by (by intros H). rewrite Hc.
    cbv beta iota.
    change (st_network (cache_param_store cache s)) with (st_network s).
    rewrite Hr. cbv beta iota.
    change (st_network (cache_param_store cache s)) with (st_network s).
    unfold walk_fuel. simpl informed_random_walk_while.
    destruct Hedge as [Ht|He].
    + rewrite (proj2 (Z.ltb_ge 0 ttl)) by lia.
      eexists. split; [reflexivity|].
      apply walk_init_nothing_probed.
    + destruct (0 <? ttl)%Z.
      * unfold bind, network_call. simpl.
        change (st_network (cache_param_store cache s)) with (st_network s).
        rewrite He, set_iter_empty.
        eexists. split; [reflexivity|].
        apply walk_init_nothing_probed.
      * eexists. split; [reflexivity|].
        apply walk_init_nothing_probed.
Qed.

End Edges.

(** ** The way of a walk *)

Lemma is_walk_snoc network p a b :
  is_walk network p → last p = Some a →
  b ∈ Network.get_neighbors network a →
  is_walk network (p ++ [b]).
Proof.
  induction p as [|x p IH]; [done|]. intros Hw Hl Hb.
  destruct p as [|y p].
  - simpl in *. injection Hl as ->. done.
  - destruct Hw as [Hxy Hw]. split; [done|]. by apply IH.
Qed.

Lemma walk_trace_inv_step network start_node resource ttl v x :
  walk_trace_inv network start_node resource ttl v →
  (wv_steps v < ttl)%Z →
  x ∈ Network.get_neighbors network (wv_current v) →
  Network.has_resource network x resource = false →
  walk_trace_inv network start_node resource ttl (walk_step v x).
Proof.
  intros (HV & Hw & Hh & Hl & Hf & Hm & Hs) Hlt Hx Hr.
  unfold walk_step. split_and!; cbn [wv_visited wv_path wv_current wv_messages wv_steps].
  - rewrite list_to_set_app_L, <- HV. case_bool_decide; set_solver.
  - by eapply is_walk_snoc.
  - destruct (wv_path v); [done|]. done.
  - apply last_snoc.
  - apply Forall_app. split; [done|]. by repeat constructor.
  - lia.
  - lia.
  - lia.
Qed.

Lemma walk_trace_hit network start_node resource ttl v x :
  walk_trace_inv network start_node resource ttl v →
  x ∈ Network.get_neighbors network (wv_current v) →
  Network.has_resource network x resource = true →
  walk_trace_post network start_node resource ttl
    (walk_result true (walk_step v x)).
Proof.
  intros (HV & Hw & Hh & Hl & Hf & Hm & Hs) Hx Hr.
  unfold walk_result, walk_step.
  split_and!; cbn [found path nodes_visited wv_visited wv_path].
  - f_equal. f_equal. rewrite list_to_set_app_L, <- HV.
    case_bool_decide; set_solver.
  - by eapply is_walk_snoc.
  - destruct (wv_path v); [done|]. done.
  - intros _. by exists (wv_path v), x.
  - done.
Qed.

Lemma walk_trace_stop network start_node resource ttl v :
  walk_trace_inv network start_node resource ttl v →
  (ttl ≤ wv_steps v)%Z ∨ Network.get_neighbors network (wv_current v) = ∅ →
  walk_trace_post network start_node resource ttl (walk_result false v).
Proof.
  intros (HV & Hw & Hh & Hl & Hf & Hm & Hs) Hstop.
  unfold walk_result.
  split_and!; cbn [found path nodes_visited messages]; [by rewrite HV|done..| ].
  intros _. split; [done|]. destruct Hstop as [Ht|He].
  - left. lia.
  - right. by exists (wv_current v).
Qed.

Section Walks.

Variable set_iter : gset string → list string.
Hypothesis set_iter_perm : ∀ s, set_iter s ≡ₚ elements s.

Lemma set_iter_nil_inv s : set_iter s = [] → s = ∅.
Proof.
  intros H. apply leibniz_equiv, elements_empty_inv.
  apply Permutation_nil. by rewrite <- set_iter_perm, H.
Qed.

Lemma random_walk_while_trace network start_node resource ttl :
  ∀ fuel v s R s',
    st_network s = network →
    walk_trace_inv network start_node resource ttl v →
    random_walk_while set_iter fuel resource ttl v s = (Ok R, s') →
    walk_trace_post network start_node resource ttl R.
Proof.
  induction fuel as [|fuel IH]; intros v s R s' Hs Hinv; [done|].
  simpl random_walk_while. destruct (wv_steps v <? ttl)%Z eqn:Hlt.
  - apply Z.ltb_lt in Hlt. unfold bind at 1, network_call. rewrite Hs.
    destruct (set_iter _) as [|y l] eqn:El.
    { intros [= <- _]. apply walk_trace_stop; [done|].
      right. by apply set_iter_nil_inv. }
    destruct (random_choice_spec (y :: l) s) as (x & Hx & Hin); [done|].
    unfold bind at 1. rewrite Hx. unfold bind, network_call.
    cbn [st_network]. rewrite Hs.
    rewrite <- El in Hin.
    apply (set_iter_elem set_iter set_iter_perm) in Hin.
    change (wv_current (walk_step v x)) with x.
    destruct (Network.has_resource network x resource) eqn:Hr.
    + intros [= <- _]. by apply walk_trace_hit.
    + intros H. eapply IH; [|by apply walk_trace_inv_step|exact H]. done.
  - apply Z.ltb_ge in Hlt. intros [= <- _].
    apply walk_trace_stop; [done|]. by left.
Qed.

Lemma informed_random_walk_while_trace network start_node resource ttl :
  ∀ fuel v s R s',
    st_network s = network →
    walk_trace_inv network start_node resource ttl v →
    informed_random_walk_while set_iter fuel resource ttl v s = (Ok R, s') →
    walk_trace_post network start_node resource ttl R.
Proof.
  induction fuel as [|fuel IH]; intros v s R s' Hs Hinv; [done|].
  simpl informed_random_walk_while. destruct (wv_steps v <? ttl)%Z eqn:Hlt.
  - apply Z.ltb_lt in Hlt. unfold bind at 1, network_call. rewrite Hs.
    destruct (set_iter _) as [|y l] eqn:El.
    { intros [= <- _]. apply walk_trace_stop; [done|].
      right. by apply set_iter_nil_inv. }
    unfold bind at 1, cache_call.
    set (cands := match filter _ _ with [] => _ | _ => _ end).
    assert (cands ≠ [] ∧ ∀ z, z ∈ cands → z ∈ y :: l) as [Hne Hsub].
    { subst cands. destruct (filter _ _) as [|z f] eqn:Ef; [done|].
      split; [done|]. intros z' Hz. rewrite <- Ef in Hz.
      by apply list_elem_of_filter in Hz as [_ ?]. }
    destruct (random_choice_spec cands s) as (x & Hx & Hin); [done|].
    apply Hsub in Hin. rewrite <- El in Hin.
    apply (set_iter_elem set_iter set_iter_perm) in Hin.
    unfold bind at 1. rewrite Hx. unfold bind at 1, network_call.
    cbn [st_network]. rewrite Hs.
    change (wv_current (walk_step v x)) with x.
    destruct (Network.has_resource network x resource) eqn:Hr;
      unfold bind, cache_update.
    + intros [= <- _]. by apply walk_trace_hit.
    + intros H. eapply IH; [|by apply walk_trace_inv_step|exact H]. done.
  - apply Z.ltb_ge in Hlt. intros [= <- _].
    apply walk_trace_stop; [done|]. by left.
Qed.

Lemma walk_init_trace_inv network start_node resource ttl :
  Network.has_resource network start_node resource = false →
  walk_trace_inv network start_node resource ttl (walk_init start_node).
Proof.
  intros Hr. unfold walk_init. split_and!; simpl; try done;
    [set_solver|by repeat constructor|lia..].
Qed.

Lemma walk_trace_at_start network start_node resource ttl :
  Network.has_resource network start_node resource = true →
  walk_trace_post network start_node resource ttl (result_at_start start_node).
Proof.
  intros Hr. unfold result_at_start.
  split_and!; cbn [found nodes_visited path]; try done.
  - assert (list_to_set [start_node] = ({[start_node]} : gset string)) as ->
      by set_solver.
    by rewrite size_singleton.
  - intros _. by exists [], start_node.
Qed.

(** X8. What a walk reports is the way it took.  From a start node of the
    network, [random_walk] returns a record whose path is a walk of the
    network from the start node and whose [nodes_visited] is the number of
    distinct nodes on it; when it found the resource, the last node holds it
    and no earlier node does; when it did not, no node of the path holds it
    and either [messages] is the whole budget or the last node has no
    neighbour.  [informed_random_walk] does the same, except when it
    answers from the cache's belief about the start node. *)
Theorem walk_reports_its_way start_node resource ttl cache s :
  start_node ∈ Network.get_all_nodes (st_network s) →
  (∃ R s', random_walk set_iter start_node resource ttl s = (Ok R, s') ∧
           walk_trace_post (st_network s) start_node resource ttl R) ∧
  (∃ R s', informed_random_walk set_iter start_node resource ttl cache s
           = (Ok R, s') ∧
           (walk_trace_post (st_network s) start_node resource ttl R ∨
            Cache.has (st_cache (cache_param_store cache s)) start_node resource
            = true ∧ R = result_at_start start_node)).
Proof.
  intros Hn. split.
  - destruct (random_walk_spec set_iter start_node resource ttl s)
      as (R & s' & E & _). exists R, s'. split; [done|].
    revert E. unfold random_walk, bind, network_call, ret.
    rewrite bool_decide_eq_false_2 by (by intros H).
    destruct (Network.has_resource _ _ _) eqn:Hr.
    + intros [= <- _]. by apply walk_trace_at_start.
    + intros E. eapply random_walk_while_trace; [done| |exact E].
      by apply walk_init_trace_inv.
  - destruct (informed_random_walk_spec set_iter start_node resource ttl cache s)
      as (R & s' & E & _). exists R, s'. split; [done|].
    revert E. unfold informed_random_walk. unfold bind at 1.
    rewrite cache_param_run. unfold bind, network_call, cache_call, ret.
    change (st_network (cache_param_store cache s)) with (st_network s).
    rewrite bool_decide_eq_false_2 by (by intros H).
    destruct (Cache.has _ _ _) eqn:Hc.
    { intros [= <- _]. by right. }
    cbv beta iota.
    change (st_network (cache_param_store cache s)) with (st_network s).
    destruct (Network.has_resource _ _ _) eqn:Hr.
    + unfold cache_update. intros [= <- _]. left. by apply walk_trace_at_start.
    + intros E. left. eapply informed_random_walk_while_trace; [|by apply walk_init_trace_inv|exact E].
      done.
Qed.

End Walks.

(** ** What flooding finds *)

Lemma is_walk_snoc_inv network p b :
  is_walk network (p ++ [b]) →
  is_walk network p ∧
  ∀ a, last p = Some a → b ∈ Network.get_neighbors network a.
Proof.
  induction p as [|x p IH]; [done|]. intros Hw.
  destruct p as [|y p].
  - simpl in Hw. destruct Hw as [Hb _]. split; [done|].
    intros a [= <-]. done.
  - destruct Hw as [Hxy Hw]. apply IH in Hw as [Hw Hl].
    split; [by split|]. intros a Ha. apply Hl. done.
Qed.

Lemma walk_hops network a :
  ∀ p b k, is_walk network p → head p = Some a → last p = Some b →
           length p = S k → hops network a k b.
Proof.
  induction p as [|x p IH] using rev_ind; [done|].
  intros b k Hw Hh Hl Hlen. rewrite last_snoc in Hl. injection Hl as ->.
  rewrite length_app in Hlen. simpl in Hlen.
  destruct p as [|y p].
  - simpl in *. injection Hh as ->. assert (k = 0)%nat as -> by lia.
    constructor.
  - apply is_walk_snoc_inv in Hw as [Hw Hb].
    destruct k as [|k]; [simpl in Hlen; lia|].
    destruct (last (y :: p)) as [c|] eqn:Hc.
    + eapply hops_S; [|by apply Hb].
      apply IH; [done|done|done|simpl in *; lia].
    + apply last_None in Hc. done.
Qed.

Lemma entry_ok_hops network start_node V k e :
  entry_ok network start_node V k e → hops network start_node k e.1.1.
Proof. intros (_ & Hw & Hh & Hl & Hlen & _). by eapply walk_hops. Qed.

Lemma entry_ok_mono network start_node (V V' : gset string) k e :
  V ⊆ V' → entry_ok network start_node V k e →
  entry_ok network start_node V' k e.
Proof.
  intros HV (H1 & H2 & H3 & H4 & H5 & H6). split_and!; [done..|].
  intros x Hx. apply HV, H6, Hx.
Qed.

Lemma within_mono network a k k' b :
  (k ≤ k')%nat → within network a k b → within network a k' b.
Proof. intros Hk (j & Hj & Hh). exists j. split; [lia|done]. Qed.

Lemma expand_inv_skip network start_node resource ttl k cur p x l v :
  expand_inv network start_node resource ttl k cur p (x :: l) v →
  x ∈ bv_visited v →
  expand_inv network start_node resource ttl k cur p l
    {| bv_visited := bv_visited v; bv_queue := bv_queue v;
       bv_messages := bv_messages v + 1;
       bv_nodes_visited := bv_nodes_visited v |}.
Proof.
  intros (A & B & Hq & HA & HB & Hk & HB0 & HL & Hkey & H3 & Hlack & Hcur
          & Hl1 & Hl2) Hx.
  exists A, B. cbn [bv_visited bv_queue].
  split_and!; try done.
  - intros y Hy. apply Hl1. by right.
  - intros y Hy. destruct (Hl2 y Hy) as [?|Hin]; [by left|].
    apply elem_of_cons in Hin as [->|?]; [by left|by right].
Qed.

Lemma expand_inv_visit network start_node resource ttl k cur p x l v :
  expand_inv network start_node resource ttl k cur p (x :: l) v →
  x ∉ bv_visited v →
  Network.has_resource network x resource = false →
  expand_inv network start_node resource ttl k cur p l
    {| bv_visited := {[x]} ∪ bv_visited v;
       bv_queue := if (Z.of_nat k + 1 <? ttl)%Z
                   then bv_queue v ++ [(x, (Z.of_nat k + 1)%Z, p ++ [x])]
                   else bv_queue v;
       bv_messages := bv_messages v + 1;
       bv_nodes_visited := bv_nodes_visited v + 1 |}.
Proof.
  intros (A & B & Hq & HA & HB & Hk & HB0 & HL & Hkey & H3 & Hlack & Hcur
          & Hl1 & Hl2) Hx Hr.
  assert (bv_visited v ⊆ {[x]} ∪ bv_visited v) as Hsub by set_solver.
  assert (entry_ok network start_node ({[x]} ∪ bv_visited v) (S k)
            (x, (Z.of_nat k + 1)%Z, p ++ [x])) as Hnew.
  { destruct Hcur as (_ & Hw & Hh & Hlast & Hlen & Hin). simpl in *.
    split_and!; simpl.
    - lia.
    - eapply is_walk_snoc; [done|done|]. apply Hl1. by left.
    - destruct p; [done|]. done.
    - apply last_snoc.
    - rewrite length_app. simpl. lia.
    - intros y Hy. apply elem_of_app in Hy as [Hy|Hy]; [|set_solver].
      apply Hsub, Hin, Hy. }
  destruct (Z.of_nat k + 1 <? ttl)%Z eqn:Hlt.
  - apply Z.ltb_lt in Hlt.
    exists A, (B ++ [(x, (Z.of_nat k + 1)%Z, p ++ [x])]).
    cbn [bv_visited bv_queue]. split_and!.
    + by rewrite Hq, app_assoc.
    + eapply Forall_impl; [exact HA|]. intros e. by apply entry_ok_mono.
    + apply Forall_app. split; [|constructor; [exact Hnew|constructor]].
      eapply Forall_impl; [exact HB|]. intros e. by apply entry_ok_mono.
    + done.
    + lia.
    + intros b Hb. apply Hsub, HL, Hb.
    + intros b Hb HbA Hbc. etrans; [by apply Hkey|done].
    + intros _ b Hb. apply elem_of_union in Hb as [Hb|Hb].
      * apply elem_of_singleton in Hb as ->. right.
        eexists. split; [apply elem_of_app; right; by left|done].
      * destruct (H3 Hlt b Hb) as [?|(e & He & Heb)]; [by left|].
        right. exists e. split; [apply elem_of_app; by left|done].
    + intros b Hb. apply elem_of_union in Hb as [Hb|Hb]; [|by apply Hlack].
      by apply elem_of_singleton in Hb as ->.
    + by eapply entry_ok_mono.
    + intros y Hy. apply Hl1. by right.
    + intros y Hy. destruct (Hl2 y Hy) as [?|Hin]; [left; set_solver|].
      apply elem_of_cons in Hin as [->|?]; [left; set_solver|by right].
  - apply Z.ltb_ge in Hlt. exists A, B.
    cbn [bv_visited bv_queue]. split_and!.
    + done.
    + eapply Forall_impl; [exact HA|]. intros e. by apply entry_ok_mono.
    + eapply Forall_impl; [exact HB|]. intros e. by apply entry_ok_mono.
    + done.
    + done.
    + intros b Hb. apply Hsub, HL, Hb.
    + intros b Hb HbA Hbc. etrans; [by apply Hkey|done].
    + intros Hlt'. lia.
    + intros b Hb. apply elem_of_union in Hb as [Hb|Hb]; [|by apply Hlack].
      by apply elem_of_singleton in Hb as ->.
    + by eapply entry_ok_mono.
    + intros y Hy. apply Hl1. by right.
    + intros y Hy. destruct (Hl2 y Hy) as [?|Hin]; [left; set_solver|].
      apply elem_of_cons in Hin as [->|?]; [left; set_solver|by right].
Qed.

Lemma expand_inv_hit network start_node resource ttl k cur p x l v R :
  expand_inv network start_node resource ttl k cur p (x :: l) v →
  Network.has_resource network x resource = true →
  path R = p ++ [x] →
  found_ok network start_node resource ttl R.
Proof.
  intros (A & B & Hq & HA & HB & Hk & HB0 & HL & Hkey & H3 & Hlack & Hcur
          & Hl1 & Hl2) Hr Hp.
  destruct Hcur as (_ & Hw & Hh & Hlast & Hlen & Hin). simpl in *.
  exists p, x. rewrite Hp. split_and!.
  - done.
  - eapply is_walk_snoc; [done|done|]. apply Hl1. by left.
  - destruct p; [done|]. done.
  - done.
  - apply Forall_forall. intros y Hy. apply Hlack, Hin, Hy.
  - lia.
Qed.

Lemma expand_inv_done network start_node resource ttl k cur p v :
  expand_inv network start_node resource ttl k cur p [] v →
  level_inv network start_node resource ttl k v.
Proof.
  intros (A & B & Hq & HA & HB & Hk & HB0 & HL & Hkey & H3 & Hlack & Hcur
          & Hl1 & Hl2).
  exists A, B. split_and!; try done.
  intros b Hb HbA. destruct (decide (b = cur)) as [->|Hne]; [|by apply Hkey].
  intros y Hy. destruct (Hl2 y Hy) as [?|Hin]; [done|]. by apply elem_of_nil in Hin.
Qed.

Lemma within_S_inv network a k b :
  within network a (S k) b →
  within network a k b ∨
  ∃ c, within network a k c ∧ b ∈ Network.get_neighbors network c.
Proof.
  intros (j & Hj & Hh). destruct (decide (j ≤ k)%nat) as [Hle|Hgt].
  - left. by exists j.
  - right. assert (j = S k) as -> by lia. inversion Hh as [|k' c b' Hc Hb]; subst.
    exists c. split; [|done]. by exists k.
Qed.

Lemma level_inv_pop network start_node resource ttl k v cur d p rest :
  level_inv network start_node resource ttl k v →
  bv_queue v = (cur, d, p) :: rest →
  ∃ k', d = Z.of_nat k' ∧ (Z.of_nat k' < ttl)%Z ∧
        ∀ l, (∀ x, x ∈ l ↔ x ∈ Network.get_neighbors network cur) →
             expand_inv network start_node resource ttl k' cur p l
               {| bv_visited := bv_visited v; bv_queue := rest;
                  bv_messages := bv_messages v;
                  bv_nodes_visited := bv_nodes_visited v |}.
Proof.
  intros (A & B & Hq & HA & HB & Hk & HB0 & HL & Hkey & H3 & Hlack) Hpop.
  rewrite Hpop in Hq. destruct A as [|a A].
  - destruct B as [|b0 B]; [done|]. simpl in Hq. injection Hq as <- ->.
    apply Forall_cons_1 in HB as [Hb0 HB].
    assert (Z.of_nat k + 1 < ttl)%Z as Hlt.
    { destruct (decide (ttl ≤ Z.of_nat k + 1)%Z) as [H|H];
        [by specialize (HB0 H)|lia]. }
    assert (∀ b, within network start_node (S k) b → b ∈ bv_visited v) as HL'.
    { intros b [Hb|(c & Hc & Hb)]%within_S_inv; [by apply HL|].
      eapply Hkey; [exact Hc| |exact Hb]. intros e He. by apply elem_of_nil in He. }
    exists (S k). pose proof Hb0 as (Hd & _). simpl in Hd.
    split_and!; [done|lia|]. intros l Hl.
    exists B, []. cbn [bv_visited bv_queue]. rewrite app_nil_r.
    split_and!; try done.
    + lia.
    + intros b Hb HbB Hbc.
      destruct (H3 Hlt b (HL' b Hb)) as [Hw|(e & He & Heb)].
      * apply Hkey; [done|]. intros e He. by apply elem_of_nil in He.
      * apply elem_of_cons in He as [->|He]; [simpl in Heb; congruence|].
        by destruct (HbB e He).
    + intros _ b Hb. left.
      destruct (H3 Hlt b Hb) as [Hw|(e & He & Heb)].
      * eapply within_mono; [|done]. lia.
      * exists (S k). split; [done|]. subst b. eapply entry_ok_hops.
        eapply Forall_forall in He; [exact He|].
        constructor; [exact Hb0|exact HB].
    + by rewrite <- Hd.
    + intros x. by apply Hl.
    + intros x Hx. right. by apply Hl.
  - simpl in Hq. injection Hq as <- ->.
    apply Forall_cons_1 in HA as [Ha HA].
    exists k. pose proof Ha as (Hd & _). simpl in Hd.
    split_and!; [done|lia|]. intros l Hl.
    exists A, B. cbn [bv_visited bv_queue].
    split_and!; try done.
    + intros b Hb HbA Hbc. apply Hkey; [done|].
      intros e He. apply elem_of_cons in He as [->|He]; [simpl; congruence|].
      by apply HbA.
    + by rewrite <- Hd.
    + intros x. by apply Hl.
    + intros x Hx. right. by apply Hl.
Qed.

Lemma level_inv_end network start_node resource ttl k v :
  level_inv network start_node resource ttl k v →
  bv_queue v = [] →
  ∀ b, within network start_node (Z.to_nat ttl) b → b ∈ bv_visited v.
Proof.
  intros (A & B & Hq & HA & HB & Hk & HB0 & HL & Hkey & H3 & Hlack) Hnil.
  rewrite Hnil in Hq. symmetry in Hq. apply app_eq_nil in Hq as [-> ->].
  assert (∀ b, within network start_node k b →
               Network.get_neighbors network b ⊆ bv_visited v) as Hclosed.
  { intros b Hb. apply Hkey; [done|]. intros e He. by apply elem_of_nil in He. }
  destruct (decide (Z.of_nat k + 1 < ttl)%Z) as [Hlt|Hge].
  - intros b (j & _ & Hh).
    assert (b ∈ bv_visited v ∧ within network start_node k b) as [? _]; [|done].
    induction Hh as [|j c b Hc IH Hb].
    + assert (within network start_node k start_node) as H0
        by (exists 0%nat; split; [lia|constructor]).
      split; [by apply HL|done].
    + destruct IH as [Hcv Hcw].
      assert (b ∈ bv_visited v) as Hbv by (by apply (Hclosed c)).
      split; [done|]. destruct (H3 Hlt b Hbv) as [?|(e & He & _)]; [done|].
      by apply elem_of_nil in He.
  - intros b Hb. apply (within_mono _ _ _ (S k)) in Hb; [|lia].
    apply within_S_inv in Hb as [Hb|(c & Hc & Hb)]; [by apply HL|].
    by apply (Hclosed c).
Qed.

Lemma level_inv_init network start_node resource ttl :
  (0 < ttl)%Z →
  Network.has_resource network start_node resource = false →
  level_inv network start_node resource ttl 0 (bfs_init start_node).
Proof.
  intros Ht Hr.
  assert (∀ b, within network start_node 0 b → b = start_node) as H0.
  { intros b (j & Hj & Hh). assert (j = 0)%nat as -> by lia.
    by inversion Hh. }
  exists [(start_node, 0%Z, [start_node])], [].
  unfold bfs_init. cbn [bv_visited bv_queue]. split_and!.
  - done.
  - constructor; [|constructor].
    split_and!; simpl; try done. intros x Hx. set_solver.
  - constructor.
  - done.
  - done.
  - intros b ->%H0. set_solver.
  - intros b ->%H0 He. exfalso. eapply He; [by left|done].
  - intros _ b Hb. left. apply elem_of_singleton in Hb as ->.
    exists 0%nat. split; [lia|constructor].
  - intros b Hb. by apply elem_of_singleton in Hb as ->.
Qed.

Section Levels.

Variable set_iter : gset string → list string.
Hypothesis set_iter_perm : ∀ s, set_iter s ≡ₚ elements s.

Lemma flooding_for_levels network start_node resource ttl k cur p :
  ∀ l v s r s',
    st_network s = network →
    expand_inv network start_node resource ttl k cur p l v →
    flooding_for set_iter resource ttl (Z.of_nat k) p l v s = (Ok r, s') →
    match r with
    | inl R => found R = true ∧ found_ok network start_node resource ttl R
    | inr v' => expand_inv network start_node resource ttl k cur p [] v'
    end.
Proof.
  induction l as [|x l IH]; intros v s r s' Hs Hinv.
  - intros [= <- _]. done.
  - simpl flooding_for. case_bool_decide as Hx.
    + unfold bind, network_call. rewrite Hs.
      destruct (Network.has_resource network x resource) eqn:Hr.
      * intros [= <- _]. split; [done|].
        eapply (expand_inv_hit _ _ _ _ _ _ _ x l v);
          [exact Hinv|exact Hr|reflexivity].
      * apply IH; [done|].
        exact (expand_inv_visit _ _ _ _ _ _ _ x l v Hinv Hx Hr).
    + apply IH; [done|].
      apply (expand_inv_skip _ _ _ _ _ _ _ x l v Hinv).
      destruct (decide (x ∈ bv_visited v)); [done|contradiction].
Qed.

Lemma flooding_while_levels network start_node resource ttl :
  ∀ fuel k v s R s',
    st_network s = network →
    level_inv network start_node resource ttl k v →
    flooding_while set_iter fuel resource ttl v s = (Ok R, s') →
    (found R = true → found_ok network start_node resource ttl R) ∧
    (found R = false →
     ∃ V : gset string,
       path R = set_iter V ∧
       (∀ b, within network start_node (Z.to_nat ttl) b → b ∈ V) ∧
       (∀ b, b ∈ V → Network.has_resource network b resource = false)).
Proof.
  induction fuel as [|fuel IH]; intros k v s R s' Hs Hinv; [done|].
  simpl flooding_while.
  destruct (bv_queue v) as [|[[cur d] p] rest] eqn:Hq.
  - intros [= <- _]. split; [done|]. intros _.
    exists (bv_visited v). split_and!; [done| |].
    + by eapply level_inv_end.
    + by destruct Hinv as (A & B & _ & _ & _ & _ & _ & _ & _ & _ & Hlack).
  - destruct (level_inv_pop _ _ _ _ _ _ _ _ _ _ Hinv Hq) as (k' & -> & Hk' & Hexp).
    rewrite geb_false by done.
    unfold bind at 1, network_call. rewrite Hs.
    specialize (Hexp (set_iter (Network.get_neighbors network cur))
                  (λ x, set_iter_elem set_iter set_iter_perm x _)).
    unfold bind.
    destruct (flooding_for set_iter resource ttl (Z.of_nat k') p _ _ s)
      as [[r| |] s1] eqn:Efor; [|done..].
    pose proof (flooding_for_levels _ _ _ _ _ _ _ _ _ _ _ _ Hs Hexp Efor) as Hr.
    assert (s1 = s) as ->.
    { destruct (flooding_for_spec set_iter resource ttl (Z.of_nat k') p
                  (set_iter (Network.get_neighbors network cur))
                  {| bv_visited := bv_visited v; bv_queue := rest;
                     bv_messages := bv_messages v;
                     bv_nodes_visited := bv_nodes_visited v |} s)
        as (r' & E' & _). congruence. }
    destruct r as [R'|v'].
    + intros [= <- _]. destruct Hr as [Hf Hok]. split; [done|congruence].
    + intros H. eapply IH; [done| |exact H]. by eapply expand_inv_done.
Qed.

Lemma found_ok_within network start_node resource ttl R :
  found_ok network start_node resource ttl R →
  ∃ t, within network start_node (Z.to_nat ttl) t ∧
       Network.has_resource network t resource = true.
Proof.
  intros (q & t & Hp & Hw & Hh & Hr & _ & Hlen).
  exists t. split; [|done]. exists (length q). split; [lia|].
  eapply walk_hops; [exact Hw|exact Hh|..]; rewrite Hp.
  - apply last_snoc.
  - rewrite length_app. simpl. lia.
Qed.

(** X9. [flooding] from a start node of the network with a budget
    [ttl >= 0] finds the resource exactly when some node within [ttl] edges
    of the start node holds it.  When it does, the path is a walk of the
    network from the start node, of at most [ttl] edges, ending on a node
    that holds the resource, through nodes that do not; when it does not,
    every node within [ttl] edges is among the visited nodes it returns as
    [path]. *)
Theorem flooding_finds_within_ttl start_node resource ttl s :
  start_node ∈ Network.get_all_nodes (st_network s) →
  (0 ≤ ttl)%Z →
  ∃ R, flooding set_iter start_node resource ttl s = (Ok R, s) ∧
       (found R = true ↔
        ∃ t, within (st_network s) start_node (Z.to_nat ttl) t ∧
             Network.has_resource (st_network s) t resource = true) ∧
       (found R = true → found_ok (st_network s) start_node resource ttl R) ∧
       (found R = false →
        ∀ b, within (st_network s) start_node (Z.to_nat ttl) b → b ∈ path R).
Proof.
  intros Hn Ht.
  destruct (flooding_spec set_iter set_iter_perm start_node resource ttl s)
    as (R & E & _). exists R. split; [done|].
  revert E. unfold flooding, bind, network_call, ret.
  rewrite bool_decide_eq_false_2 by (by intros H).
  destruct (Network.has_resource _ _ _) eqn:Hr.
  { intros [= <-].
    assert (found_ok (st_network s) start_node resource ttl
              (result_at_start start_node)) as Hok.
    { exists [], start_node. by split_and!. }
    split_and!; [|done|done]. split; [|done]. intros _.
    exists start_node. split; [|done]. exists 0%nat. split; [lia|constructor]. }
  destruct (decide (0 < ttl)%Z) as [Hpos|Hneg].
  - intros E.
    destruct (flooding_while_levels (st_network s) start_node resource ttl
                _ 0%nat _ _ _ _ eq_refl
                (level_inv_init _ _ _ _ Hpos Hr) E) as [Hfound Hnot].
    destruct (found R) eqn:Hf.
    + specialize (Hfound eq_refl). split_and!; [|done|done].
      split; [|done]. intros _. by eapply found_ok_within.
    + destruct (Hnot eq_refl) as (V & Hp & Hall & Hlack).
      split_and!; [|done|].
      * split; [done|]. intros (t & Hw & Htr).
        rewrite (Hlack t (Hall t Hw)) in Htr. done.
      * intros _ b Hb. rewrite Hp.
        apply (set_iter_elem set_iter set_iter_perm). by apply Hall.
  - assert (ttl = 0)%Z as -> by lia.
    unfold bfs_fuel. simpl flooding_while. intros [= <-].
    cbn [found path].
    assert (∀ b, within (st_network s) start_node 0 b → b = start_node) as H0.
    { intros b (j & Hj & Hh). assert (j = 0)%nat as -> by lia.
      by inversion Hh. }
    split_and!; [|done|].
    + split; [done|]. intros (t & ->%H0 & Htr). congruence.
    + intros _ b ->%H0. apply (set_iter_elem set_iter set_iter_perm).
      set_solver.
Qed.

End Levels.

(** ** Informed flooding against flooding *)

Section Informed.

Variable set_iter : gset string → list string.
Hypothesis set_iter_perm : ∀ s, set_iter s ≡ₚ elements s.

Lemma informed_for_sim network resource ttl d p c0 :
  ∀ l vb vi sb si,
    st_network sb = network → st_network si = network →
    informed_sim vb vi →
    (∀ n, n ∈ l → candidate c0 resource n = false → n ∈ bv_visited vb) →
    negatives_visited (st_cache si) resource (bv_visited vb) →
    ∃ rb ri si',
      flooding_for set_iter resource ttl d p l vb sb = (Ok rb, sb) ∧
      informed_flooding_for resource ttl d p
        (filter (λ n, candidate c0 resource n = true) l) vi si = (Ok ri, si') ∧
      st_network si' = network ∧
      match rb, ri with
      | inl Rb, inl Ri => informed_result_sim Rb Ri
      | inr vb', inr vi' =>
          informed_sim vb' vi' ∧
          negatives_visited (st_cache si') resource (bv_visited vb')
      | _, _ => False
      end.
Proof.
  induction l as [|x l IH]; intros vb vi sb si Hb Hi Hsim Hl Hneg.
  - exists (inr vb), (inr vi), si. by split_and!.
  - destruct Hsim as (HV & HQ & Hnv & Hm).
    simpl flooding_for. rewrite filter_cons.
    destruct (decide (candidate c0 resource x = true)) as [Hc|Hc].
    + simpl informed_flooding_for. rewrite HV. case_bool_decide as Hx.
      * unfold bind, network_call, cache_update, ret. rewrite Hb, Hi.
        destruct (Network.has_resource network x resource) eqn:Hr.
        -- eexists (inl _), (inl _), _. split_and!; [done..|].
           split_and!; simpl; [done|done|lia|lia].
        -- rewrite HQ, Hnv.
           apply IH; [done|done| | |].
           ++ split_and!; simpl; [done|done|done|lia].
           ++ intros n Hn Hcn. cbn [bv_visited]. apply elem_of_union_r.
              apply Hl; [by right|done].
           ++ intros n. cbn [st_cache bv_visited].
              rewrite Cache_has_negative_add_negative.
              intros [[-> _]|Hn]; [set_solver|]. apply elem_of_union_r.
              by apply Hneg.
      * apply IH; [done|done| | |done].
        -- split_and!; simpl; [done|done|done|lia].
        -- intros n Hn Hcn. apply Hl; [by right|done].
    + apply not_true_is_false in Hc.
      assert (x ∈ bv_visited vb) as Hx by (apply Hl; [by left|done]).
      rewrite bool_decide_eq_false_2 by (by intros H).
      apply IH; [done|done| | |done].
      * split_and!; simpl; [done|done|done|lia].
      * intros n Hn Hcn. apply Hl; [by right|done].
Qed.

Lemma informed_while_sim network resource ttl :
  ∀ fuelb fueli vb vi sb si Rb Ri sb' si',
    st_network sb = network → st_network si = network →
    informed_sim vb vi →
    negatives_visited (st_cache si) resource (bv_visited vb) →
    flooding_while set_iter fuelb resource ttl vb sb = (Ok Rb, sb') →
    informed_flooding_while set_iter fueli resource ttl vi si = (Ok Ri, si') →
    informed_result_sim Rb Ri.
Proof.
  induction fuelb as [|fuelb IH];
    intros fueli vb vi sb si Rb Ri sb' si' Hb Hi Hsim Hneg; [done|].
  destruct fueli as [|fueli]; [done|].
  pose proof Hsim as (HV & HQ & Hnv & Hm).
  simpl flooding_while. simpl informed_flooding_while. rewrite HQ.
  destruct (bv_queue vb) as [|[[cur d] p] rest] eqn:Hq.
  - intros [= <- _] [= <- _]. split_and!; simpl; [done|by rewrite HV|done|done].
  - destruct (d >=? ttl)%Z.
    + apply IH; [done|done| |done]. by split_and!.
    + unfold bind, network_call, cache_call, ret. rewrite Hb, Hi.
      edestruct (informed_for_sim network resource ttl d p (st_cache si)
                   (set_iter (Network.get_neighbors network cur))
                   {| bv_visited := bv_visited vb; bv_queue := rest;
                      bv_messages := bv_messages vb;
                      bv_nodes_visited := bv_nodes_visited vb |}
                   {| bv_visited := bv_visited vi; bv_queue := rest;
                      bv_messages := bv_messages vi;
                      bv_nodes_visited := bv_nodes_visited vi |} sb si)
        as (rb & ri & si1 & -> & -> & Hi1 & Hr); [done|done| | |done|].
      { by split_and!. }
      { intros n Hn Hcn. cbn [bv_visited]. apply Hneg.
        apply candidate_false in Hcn. tauto. }
      destruct rb as [Rb'|vb'], ri as [Ri'|vi']; try done.
      * by intros [= <- _] [= <- _].
      * destruct Hr as [Hsim' Hneg']. by apply IH.
Qed.

(** X10. When the cache [informed_flooding] works on holds no negative
    belief about the resource and is right if it believes the start node to
    hold it (as the cache seeded from the network is), [informed_flooding]
    returns what [flooding] returns, with the same [found], [path] and
    [nodes_visited] and no more [messages]: what it prunes are nodes this
    very search has already visited. *)
Theorem informed_flooding_as_flooding start_node resource ttl cache s :
  let c0 := st_cache (cache_param_store cache s) in
  (∀ n, Cache.has_negative c0 n resource = false) →
  (Cache.has c0 start_node resource = true →
   Network.has_resource (st_network s) start_node resource = true) →
  ∃ Rb Ri si',
    flooding set_iter start_node resource ttl s = (Ok Rb, s) ∧
    informed_flooding set_iter start_node resource ttl cache s = (Ok Ri, si') ∧
    found Ri = found Rb ∧ path Ri = path Rb ∧
    nodes_visited Ri = nodes_visited Rb ∧ (messages Ri ≤ messages Rb)%Z.
Proof.
  intros c0 Hnoneg Hstart.
  destruct (flooding_spec set_iter set_iter_perm start_node resource ttl s)
    as (Rb & Eb & _).
  destruct (informed_flooding_spec set_iter set_iter_perm start_node resource
              ttl cache s) as (Ri & si' & Ei & _).
  exists Rb, Ri, si'. split; [done|]. split; [done|].
  revert Eb Ei. unfold flooding, informed_flooding.
  unfold bind at 4. rewrite cache_param_run.
  unfold bind, network_call, cache_call, cache_update, ret.
  change (st_network (cache_param_store cache s)) with (st_network s).
  case_bool_decide; [by intros [= <-] [= <- _]|].
  fold c0. destruct (Cache.has c0 start_node resource) eqn:Hc.
  { rewrite (Hstart eq_refl). by intros [= <-] [= <- _]. }
  cbv beta iota.
  change (st_network (cache_param_store cache s)) with (st_network s).
  destruct (Network.has_resource _ _ _); [by intros [= <-] [= <- _]|].
  cbv beta iota.
  change (st_network (cache_param_store cache s)) with (st_network s).
  intros Eb Ei.
  refine (informed_while_sim (st_network s) resource ttl
            _ _ _ _ _ _ _ _ _ _ eq_refl _ _ _ Eb Ei).
  - done.
  - by split_and!.
  - intros n Hn. cbn [st_cache] in Hn. fold c0 in Hn. by rewrite Hnoneg in Hn.
Qed.

End Informed.

(** ** What an informed search does to its cache *)

Lemma cache_extends_refl network resource c :
  cache_extends network resource c c.
Proof. intros n r. split_and!; auto. Qed.

Lemma cache_extends_trans network resource c1 c2 c3 :
  cache_extends network resource c1 c2 →
  cache_extends network resource c2 c3 →
  cache_extends network resource c1 c3.
Proof.
  intros H12 H23 n r.
  destruct (H12 n r) as (A1 & B1 & C1 & D1 & E1).
  destruct (H23 n r) as (A2 & B2 & C2 & D2 & E2).
  split_and!.
  - intros Hr. destruct (A1 Hr) as [<- <-]. by apply A2.
  - auto.
  - auto.
  - intros [H|H]%D2; [by apply D1|by right].
  - intros [H|H]%E2; [by apply E1|by right].
Qed.

Lemma cache_extends_add network resource c n :
  Network.has_resource network n resource = true →
  cache_extends network resource c (Cache.add c n resource).
Proof.
  intros Hr n' r'. split_and!.
  - intros Hne.
    destruct (cache_update_other c n resource n' r') as (H1 & H2 & _);
      [congruence|done].
  - intros H. apply Cache_has_add. by right.
  - intros H Hl. apply Cache_has_negative_add. split; [|done].
    intros [-> ->]. congruence.
  - intros [[-> ->]|H]%Cache_has_add; [by right|by left].
  - intros [_ H]%Cache_has_negative_add. by left.
Qed.

Lemma cache_extends_add_negative network resource c n :
  Network.has_resource network n resource = false →
  cache_extends network resource c (Cache.add_negative c n resource).
Proof.
  intros Hr n' r'. split_and!.
  - intros Hne.
    destruct (cache_update_other c n resource n' r') as (_ & _ & H3 & H4);
      [congruence|done].
  - done.
  - intros H Hl. apply Cache_has_negative_add_negative. by right.
  - intros H. by left.
  - intros [[-> ->]|H]%Cache_has_negative_add_negative; [by right|by left].
Qed.

Section CacheTrace.

Variable set_iter : gset string → list string.
Hypothesis set_iter_perm : ∀ s, set_iter s ≡ₚ elements s.

Lemma informed_flooding_for_cache network resource ttl d p :
  ∀ l v s r s',
    st_network s = network →
    informed_flooding_for resource ttl d p l v s = (Ok r, s') →
    st_network s' = network ∧
    cache_extends network resource (st_cache s) (st_cache s').
Proof.
  induction l as [|x l IH]; intros v s r s' Hs.
  - intros [= _ <-]. split; [done|apply cache_extends_refl].
  - simpl informed_flooding_for. case_bool_decide as Hx; [|by apply IH].
    unfold bind at 1, network_call. rewrite Hs.
    destruct (Network.has_resource network x resource) eqn:Hr;
      unfold bind, cache_update, ret.
    + intros [= _ <-]. split; [done|]. by apply cache_extends_add.
    + intros H. apply IH in H as [H1 H2]; [|done]. split; [done|].
      eapply cache_extends_trans; [|exact H2].
      by apply cache_extends_add_negative.
Qed.

Lemma informed_flooding_while_cache network resource ttl :
  ∀ fuel v s R s',
    st_network s = network →
    informed_flooding_while set_iter fuel resource ttl v s = (Ok R, s') →
    cache_extends network resource (st_cache s) (st_cache s').
Proof.
  induction fuel as [|fuel IH]; intros v s R s' Hs; [done|].
  simpl informed_flooding_while.
  destruct (bv_queue v) as [|[[cur d] p] rest].
  - intros [= _ <-]. apply cache_extends_refl.
  - destruct (d >=? ttl)%Z; [by apply IH|].
    unfold bind at 1, network_call. unfold bind at 1, cache_call. unfold bind.
    destruct (informed_flooding_for _ _ _ _ _ _ s) as [[r| |] s1] eqn:E;
      [|done..].
    apply informed_flooding_for_cache with (network := network) in E
      as [Hs1 Hc1]; [|done].
    destruct r as [R'|v'].
    + by intros [= _ <-].
    + intros H%IH; [|done]. by eapply cache_extends_trans.
Qed.

Lemma informed_random_walk_while_cache network resource ttl :
  ∀ fuel v s R s',
    st_network s = network →
    informed_random_walk_while set_iter fuel resource ttl v s = (Ok R, s') →
    cache_extends network resource (st_cache s) (st_cache s').
Proof.
  induction fuel as [|fuel IH]; intros v s R s' Hs; [done|].
  simpl informed_random_walk_while. destruct (wv_steps v <? ttl)%Z.
  - unfold bind at 1, network_call.
    destruct (set_iter _) as [|y l] eqn:El.
    { intros [= _ <-]. apply cache_extends_refl. }
    unfold bind at 1, cache_call.
    set (cands := match filter _ _ with [] => _ | _ => _ end).
    destruct (random_choice_spec cands s) as (x & Hx & _).
    { subst cands. by destruct (filter _ _). }
    unfold bind at 1. rewrite Hx. unfold bind at 1, network_call.
    cbn [st_network]. rewrite Hs.
    change (wv_current (walk_step v x)) with x.
    destruct (Network.has_resource network x resource) eqn:Hr;
      unfold bind, cache_update, ret.
    + intros [= _ <-]. cbn [st_cache]. by apply cache_extends_add.
    + intros H%IH; [|done]. cbn [st_cache] in H.
      eapply cache_extends_trans; [|exact H].
      by apply cache_extends_add_negative.
  - intros [= _ <-]. apply cache_extends_refl.
Qed.

(** X11. What an informed search for [resource] does to the cache it works
    on: beliefs about other resources are untouched; no positive belief is
    dropped, and a negative one only about a node that holds the resource;
    every new positive belief is about a node that holds the resource and
    every new negative belief about a node that does not. *)
Theorem informed_search_extends_cache start_node resource ttl cache s :
  let c0 := st_cache (cache_param_store cache s) in
  (∃ R s', informed_flooding set_iter start_node resource ttl cache s
           = (Ok R, s') ∧
           cache_extends (st_network s) resource c0 (st_cache s')) ∧
  (∃ R s', informed_random_walk set_iter start_node resource ttl cache s
           = (Ok R, s') ∧
           cache_extends (st_network s) resource c0 (st_cache s')).
Proof.
  intros c0. split.
  - destruct (informed_flooding_spec set_iter set_iter_perm start_node resource
                ttl cache s) as (R & s' & E & _).
    exists R, s'. split; [done|]. revert E.
    unfold informed_flooding. unfold bind at 1. rewrite cache_param_run.
    unfold bind, network_call, cache_call, cache_update, ret.
    change (st_network (cache_param_store cache s)) with (st_network s).
    case_bool_decide; [intros [= _ <-]; apply cache_extends_refl|].
    fold c0. destruct (Cache.has c0 start_node resource).
    { intros [= _ <-]. apply cache_extends_refl. }
    cbv beta iota.
    change (st_network (cache_param_store cache s)) with (st_network s).
    destruct (Network.has_resource _ _ _) eqn:Hr.
    { intros [= _ <-]. by apply cache_extends_add. }
    cbv beta iota. intros E.
    by apply informed_flooding_while_cache with (network := st_network s) in E.
  - destruct (informed_random_walk_spec set_iter start_node resource
                ttl cache s) as (R & s' & E & _).
    exists R, s'. split; [done|]. revert E.
    unfold informed_random_walk. unfold bind at 1. rewrite cache_param_run.
    unfold bind, network_call, cache_call, cache_update, ret.
    change (st_network (cache_param_store cache s)) with (st_network s).
    case_bool_decide; [intros [= _ <-]; apply cache_extends_refl|].
    fold c0. destruct (Cache.has c0 start_node resource).
    { intros [= _ <-]. apply cache_extends_refl. }
    cbv beta iota.
    change (st_network (cache_param_store cache s)) with (st_network s).
    destruct (Network.has_resource _ _ _) eqn:Hr.
    { intros [= _ <-]. by apply cache_extends_add. }
    cbv beta iota. intros E.
    by apply informed_random_walk_while_cache
      with (network := st_network s) in E.
Qed.

End CacheTrace.

(** ** network.py: [is_connected] *)

Section Connected.

Variable set_iter : gset string → list string.
Hypothesis set_iter_perm : ∀ s, set_iter s ≡ₚ elements s.

(** While the neighbours [l] of [cur] are scanned: the visited nodes are
    reachable, the queue holds visited nodes, and every visited node that
    is neither queued nor [cur] has all its neighbours visited. *)
Lemma is_connected_for_spec network start cur :
  ∀ l V q V' q',
    is_connected_for l V q = (V', q') →
    (∀ x, x ∈ l → x ∈ Network.get_neighbors network cur) →
    (∃ k, hops network start k cur) →
    (∀ b, b ∈ V → ∃ k, hops network start k b) →
    (∀ b, b ∈ q → b ∈ V) →
    (∀ b, b ∈ V → b ∉ q → b ≠ cur → Network.get_neighbors network b ⊆ V) →
    V ⊆ V' ∧ V' ⊆ V ∪ list_to_set l ∧ list_to_set l ⊆ V' ∧
    (length q' + size V ≤ length q + size V')%nat ∧
    (∀ b, b ∈ V' → ∃ k, hops network start k b) ∧
    (∀ b, b ∈ q' → b ∈ V') ∧
    (∀ b, b ∈ V' → b ∉ q' → b ≠ cur → Network.get_neighbors network b ⊆ V').
Proof.
  induction l as [|x l IH]; intros V q V' q' E Hl Hcur Hreach Hq Hkey.
  - injection E as <- <-. split_and!; try done; set_solver.
  - simpl in E. case_bool_decide as Hx.
    + apply IH in E as (H1 & H2 & H3 & H4 & H5 & H6 & H7).
      * rewrite size_add_fresh in H4 by done. rewrite length_app in H4.
        simpl in H4. split_and!; try done; [set_solver..|lia].
      * intros y Hy. apply Hl. by right.
      * done.
      * intros b [Hb|Hb]%elem_of_union; [|by apply Hreach].
        apply elem_of_singleton in Hb as ->.
        destruct Hcur as [k Hk]. exists (S k). eapply hops_S; [done|].
        apply Hl. by left.
      * intros b [Hb|Hb]%elem_of_app; set_solver.
      * intros b [Hb|Hb]%elem_of_union Hbq Hbc.
        -- apply elem_of_singleton in Hb as ->. exfalso. apply Hbq. apply elem_of_app. right. by left.
        -- etrans; [apply Hkey; [done| |done]|set_solver].
           intros Hin. apply Hbq. apply elem_of_app. by left.
    + assert (x ∈ V) as HxV by (destruct (decide (x ∈ V)); [done|contradiction]).
      apply IH in E as (H1 & H2 & H3 & H4 & H5 & H6 & H7); try done.
      * split_and!; try done; set_solver.
      * intros y Hy. apply Hl. by right.
Qed.

Lemma is_connected_while_spec network start W :
  (∀ n, list_to_set (set_iter (Network.get_neighbors network n)) ⊆ W) →
  ∀ fuel V q,
    V ⊆ W →
    (size W + length q < fuel + size V)%nat →
    start ∈ V →
    (∀ b, b ∈ V → ∃ k, hops network start k b) →
    (∀ b, b ∈ q → b ∈ V) →
    (∀ b, b ∈ V → b ∉ q → Network.get_neighbors network b ⊆ V) →
    ∃ V', is_connected_while set_iter fuel network V q = Some V' ∧
          ∀ b, b ∈ V' ↔ ∃ k, hops network start k b.
Proof.
  intros HW. induction fuel as [|fuel IH];
    intros V q HV Hfuel Hstart Hreach Hq Hkey.
  { apply subseteq_size in HV. lia. }
  simpl. destruct q as [|cur q].
  - exists V. split; [done|]. intros b. split; [by apply Hreach|].
    intros [k Hk]. induction Hk as [|k c b Hc IHc Hb]; [done|].
    eapply Hkey; [exact IHc| |exact Hb]. intros Hin. by apply elem_of_nil in Hin.
  - destruct (is_connected_for _ V q) as [V1 q1] eqn:E.
    assert (cur ∈ V) as HcurV by (apply Hq; by left).
    apply (is_connected_for_spec network start cur) in E
      as (H1 & H2 & H3 & H4 & H5 & H6 & H7).
    + simpl in Hfuel. apply IH.
      * specialize (HW cur). set_solver.
      * lia.
      * by apply H1.
      * done.
      * done.
      * intros b Hb Hbq. destruct (decide (b = cur)) as [->|Hne].
        -- intros y Hy. apply H3. apply elem_of_list_to_set.
           by apply (set_iter_elem set_iter set_iter_perm).
        -- by apply H7.
    + intros x Hx. by apply (set_iter_elem set_iter set_iter_perm) in Hx.
    + by apply Hreach.
    + done.
    + intros b Hb. apply Hq. by right.
    + intros b Hb Hbq Hbc. apply Hkey; [done|].
      intros [Heq|Hin]%elem_of_cons; done.
Qed.

Lemma is_connected_run network :
  match set_iter (Network.get_all_nodes network) with
  | [] => Network.get_all_nodes network = ∅ ∧
          is_connected set_iter network = Some true
  | start :: _ =>
      ∃ V : gset string,
        (∀ b, b ∈ V ↔ ∃ k, hops network start k b) ∧
        is_connected set_iter network
        = Some (bool_decide (size V = size (Network.get_all_nodes network))) ∧
        (neighbors_are_nodes network →
         (size V = size (Network.get_all_nodes network) ↔
          ∀ n, n ∈ Network.get_all_nodes network →
               ∃ k, hops network start k n))
  end.
Proof.
  unfold is_connected.
  destruct (set_iter (Network.get_all_nodes network)) as [|start l] eqn:El.
  - split; [|done]. by apply (set_iter_nil_inv set_iter set_iter_perm).
  - destruct (is_connected_while_spec network start
                (all_neighbors network ∪ {[start]})
                (λ n, neighbors_closed set_iter set_iter_perm network start n)
                (bfs_fuel network) {[start]} [start])
      as (V & -> & HV).
    + set_solver.
    + pose proof (size_union_singleton_le (all_neighbors network) start).
      unfold bfs_fuel. cbn [length]. rewrite size_singleton. lia.
    + set_solver.
    + intros b ->%elem_of_singleton. exists 0%nat. constructor.
    + intros b ->%list_elem_of_singleton. set_solver.
    + intros b ->%elem_of_singleton Hb. exfalso. apply Hb. by left.
    + exists V. split_and!; [done|done|]. intros Hvalid.
      assert (start ∈ Network.get_all_nodes network) as Hstart.
      { apply (set_iter_elem set_iter set_iter_perm). rewrite El. by left. }
      assert (V ⊆ Network.get_all_nodes network) as Hsub.
      { intros b [k Hk]%HV. induction Hk as [|k c b Hc IHc Hb]; [done|].
        unfold Network.get_neighbors in Hb.
        destruct (Network.graph network !! c) as [s|] eqn:Ec; simpl in Hb;
          [|set_solver].
        by apply (Hvalid c s Ec). }
      split.
      * intros Hsize n Hn. apply HV.
        assert (V = Network.get_all_nodes network) as Heq
          by (apply set_subseteq_size_eq; [done|lia]).
        by rewrite Heq.
      * intros Hall. f_equal. apply leibniz_equiv. apply set_equiv. intros n.
        split; [by apply Hsub|]. intros Hn. by apply HV, Hall.
Qed.

(** X12. [is_connected] returns; for a network without nodes it returns
    [True]; otherwise it returns whether the number of nodes that can be
    reached from the first node of the node set equals the number of nodes.
    When all neighbours are nodes, that is whether every node can be
    reached from that first node. *)
Theorem is_connected_spec network :
  match set_iter (Network.get_all_nodes network) with
  | [] => Network.get_all_nodes network = ∅ ∧
          is_connected set_iter network = Some true
  | start :: _ =>
      ∃ V : gset string,
        (∀ b, b ∈ V ↔ ∃ k, hops network start k b) ∧
        is_connected set_iter network
        = Some (bool_decide (size V = size (Network.get_all_nodes network))) ∧
        (neighbors_are_nodes network →
         (size V = size (Network.get_all_nodes network) ↔
          ∀ n, n ∈ Network.get_all_nodes network →
               ∃ k, hops network start k n))
  end.
Proof. apply is_connected_run. Qed.

End Connected.

(** ** utils/validators.py *)

Lemma flat_map_nil_iff {A B} (f : A → list B) (l : list A) :
  flat_map f l = [] ↔ Forall (λ x, f x = []) l.
Proof.
  induction l as [|x l IH]; simpl.
  - split; [constructor|done].
  - rewrite Forall_cons, <- IH. split.
    + intros H. by apply app_eq_nil in H.
    + intros [-> ->]. done.
Qed.

Lemma edge_errors_nil (N : gset string) e :
  edge_errors N e = [] ↔ ∃ a b, e = [a; b] ∧ a ≠ b ∧ a ∈ N ∧ b ∈ N.
Proof.
  unfold edge_errors. split.
  - destruct e as [|a [|b [|c e]]]; try done.
    repeat case_bool_decide; try done. intros _. exists a, b.
    split_and!; try done;
      match goal with
      | |- ?x ∈ _ => destruct (decide (x ∈ N)); [done|contradiction]
      end.
  - intros (a & b & -> & Hne & Ha & Hb).
    rewrite bool_decide_eq_false_2 by done.
    rewrite bool_decide_eq_false_2 by (by intros H).
    rewrite bool_decide_eq_false_2 by (by intros H). done.
Qed.

Lemma edges_all_pairs (N : gset string) edges :
  Forall (λ e, edge_errors N e = []) edges ↔
  ∃ pairs, edges = pair_list <$> pairs ∧
           Forall (λ e, e.1 ≠ e.2 ∧ e.1 ∈ N ∧ e.2 ∈ N) pairs.
Proof.
  split.
  - induction 1 as [|e edges He _ (pairs & -> & Hp)].
    + exists []. split; [done|constructor].
    + apply edge_errors_nil in He as (a & b & -> & ?).
      exists ((a, b) :: pairs). split; [done|]. by constructor.
  - intros (pairs & -> & Hp). induction Hp as [|[a b] pairs He _ IH]; simpl.
    + constructor.
    + constructor; [|done]. apply edge_errors_nil. by exists a, b.
Qed.

Lemma unpack_edges_pairs pairs : unpack_edges (pair_list <$> pairs) = inr pairs.
Proof.
  induction pairs as [|[a b] pairs IH]; [done|].
  change (unpack_edges (pair_list <$> (a, b) :: pairs))
    with (match unpack_edges (pair_list <$> pairs) with
          | inr p => inr ((a, b) :: p)
          | inl bad => inl bad
          end : list string + list (string * string)).
  by rewrite IH.
Qed.

Lemma degree_errors_nil network min_neighbors max_neighbors node :
  degree_errors network min_neighbors max_neighbors node = [] ↔
  (min_neighbors ≤ Network.get_degree network node ≤ max_neighbors)%Z.
Proof.
  unfold degree_errors.
  destruct (Z.ltb_spec (Network.get_degree network node) min_neighbors);
    destruct (Z.gtb_spec (Network.get_degree network node) max_neighbors);
    simpl; split; try done; lia.
Qed.

Lemma hops_cons network a b :
  b ∈ Network.get_neighbors network a →
  ∀ k c, hops network b k c → hops network a (S k) c.
Proof.
  intros Hab k c H. induction H as [|k c d Hc IH Hd].
  - eapply hops_S; [constructor|done].
  - eapply hops_S; [exact IH|done].
Qed.

Lemma hops_sym network :
  (∀ x y, y ∈ Network.get_neighbors network x →
          x ∈ Network.get_neighbors network y) →
  ∀ a k b, hops network a k b → hops network b k a.
Proof.
  intros Hsym a k b H. induction H as [|k b c Hb IH Hc]; [constructor|].
  eapply hops_cons; [by apply Hsym|done].
Qed.

Lemma hops_trans network a j b k c :
  hops network a j b → hops network b k c → hops network a (j + k) c.
Proof.
  intros Hab Hbc. induction Hbc as [|k c d Hc IH Hd].
  - by rewrite Nat.add_0_r.
  - rewrite Nat.add_succ_r. eapply hops_S; [exact IH|done].
Qed.

Section Validator.

Variable set_iter : gset string → list string.
Variable dict_items :
  gmap string (list string) → list (string * list string).
Hypothesis set_iter_perm : ∀ s, set_iter s ≡ₚ elements s.
Hypothesis dict_items_perm : ∀ m, dict_items m ≡ₚ map_to_list m.

Lemma is_connected_mutual network :
  neighbors_are_nodes network →
  (∀ x y, y ∈ Network.get_neighbors network x →
          x ∈ Network.get_neighbors network y) →
  ∃ c, is_connected set_iter network = Some c ∧
       (c = true ↔
        ∀ a b, a ∈ Network.get_all_nodes network →
               b ∈ Network.get_all_nodes network →
               ∃ k, hops network a k b).
Proof.
  intros Hvalid Hsym.
  pose proof (is_connected_run set_iter set_iter_perm network) as H.
  destruct (set_iter (Network.get_all_nodes network)) as [|start l] eqn:El.
  - destruct H as [Hempty ->]. exists true. split; [done|]. split; [|done].
    intros _ a b Ha. rewrite Hempty in Ha. set_solver.
  - destruct H as (V & HV & -> & Hiff). eexists. split; [done|].
    specialize (Hiff Hvalid). rewrite bool_decide_eq_true, Hiff.
    assert (start ∈ Network.get_all_nodes network) as Hstart.
    { apply (set_iter_elem set_iter set_iter_perm). rewrite El. by left. }
    split.
    + intros Hall a b Ha Hb.
      destruct (Hall a Ha) as [ka Hka]. destruct (Hall b Hb) as [kb Hkb].
      exists (ka + kb)%nat. eapply hops_trans; [|exact Hkb].
      by apply hops_sym.
    + intros Hall n Hn. by apply Hall.
Qed.

Lemma no_resources_nil (resources : gmap string (list string)) :
  flat_map (λ kv : string * list string,
              match kv.2 with
              | [] => [NoResources kv.1]
              | _ :: _ => []
              end) (dict_items resources) = [] ↔
  ∀ n rs, resources !! n = Some rs → rs ≠ [].
Proof.
  rewrite flat_map_nil_iff, Forall_forall. split.
  - intros H n rs Hn ->.
    specialize (H (n, [])). simpl in H. discriminate H.
    rewrite dict_items_perm. by apply elem_of_map_to_list.
  - intros H [n rs] Hin. simpl.
    rewrite dict_items_perm in Hin. apply elem_of_map_to_list in Hin.
    specialize (H n rs Hin). by destruct rs.
Qed.

Lemma degrees_nil network min_neighbors max_neighbors (N : gset string) :
  flat_map (degree_errors network min_neighbors max_neighbors) (set_iter N)
  = [] ↔
  ∀ n, n ∈ N →
       (min_neighbors ≤ Network.get_degree network n ≤ max_neighbors)%Z.
Proof.
  rewrite flat_map_nil_iff, Forall_forall. split.
  - intros H n Hn. apply degree_errors_nil, H.
    by apply (set_iter_elem set_iter set_iter_perm).
  - intros H n Hn. apply degree_errors_nil, H.
    by apply (set_iter_elem set_iter set_iter_perm) in Hn.
Qed.

Lemma validate_network_run config :
  ∃ b errors,
    validate_network set_iter dict_items config = Some (b, errors) ∧
    (b = true ↔ errors = []) ∧
    (b = true ↔ config_accepted config).
Proof.
  destruct config as [[nn|] [mn|] [mx|] [rs|] [edges|]];
    try (exists false; eexists; split; [reflexivity|];
         split; [split; [done|discriminate]|];
         split; [done|];
         intros (? & ? & ? & ? & ? & ? & ? & ? & ? & ? & _); simpl in *;
         discriminate).
  unfold validate_network, config_accepted. cbn [cfg_num_nodes cfg_min_neighbors cfg_max_neighbors
    cfg_resources cfg_edges].
  set (e1 := if bool_decide (nn ≠ Z.of_nat (size rs)) then _ else _).
  set (e2 := flat_map _ (dict_items rs)).
  set (e3 := flat_map (edge_errors (dom rs)) edges).
  assert (e1 = [] ↔ nn = Z.of_nat (size rs)) as H1.
  { subst e1. case_bool_decide as Hd; [split; [done|intros; contradiction]|].
    split; [|done]. intros _.
    destruct (decide (nn = Z.of_nat (size rs))); [done|contradiction]. }
  assert (e2 = [] ↔ ∀ n r, rs !! n = Some r → r ≠ []) as H2
    by apply no_resources_nil.
  assert (e3 = [] ↔
          ∃ pairs, edges = pair_list <$> pairs ∧
                   Forall (λ e, e.1 ≠ e.2 ∧ e.1 ∈ dom rs ∧ e.2 ∈ dom rs)
                          pairs) as H3.
  { subst e3. by rewrite flat_map_nil_iff, edges_all_pairs. }
  destruct (unpack_edges edges) as [bad|pairs] eqn:Eu.
  - exists false. eexists. split; [by rewrite bool_decide_eq_false_2 by
      (intros H; repeat (apply app_eq_nil in H as [_ H]); discriminate)|].
    split; [split; [done|]|split; [done|]].
    + intros H. repeat (apply app_eq_nil in H as [_ H]). discriminate.
    + intros (? & ? & ? & ? & pairs & _ & _ & _ & _ & [= ->] & _).
      by rewrite unpack_edges_pairs in Eu.
  - destruct (decide (e3 = [])) as [He3|He3].
    + apply H3 in He3 as Hp. destruct Hp as (pairs' & -> & Hpairs).
      rewrite unpack_edges_pairs in Eu. injection Eu as <-.
      set (network := Network.init nn rs pairs').
      destruct (is_connected_mutual network) as (c & -> & Hc).
      { apply Network_init_valid. eapply Forall_impl; [exact Hpairs|].
        intros e (_ & ? & ?). done. }
      { intros x y. subst network. rewrite !Network_init_neighbors. tauto. }
      assert (Network.get_all_nodes network = dom rs) as Hnodes by done.
      rewrite Hnodes in Hc.
      eexists _, _. split; [reflexivity|]. split; [apply bool_decide_eq_true|].
      rewrite bool_decide_eq_true.
      rewrite He3. cbn [app].
      split.
      * intros H. apply app_eq_nil in H as [E1 H].
        apply app_eq_nil in H as [E2 H]. apply app_eq_nil in H as [Ec Hd].
        exists nn, mn, mx, rs, pairs'.
        split_and!; try done.
        -- by apply H1.
        -- by apply H2.
        -- apply Hc. by destruct c.
        -- by apply degrees_nil.
      * intros (? & ? & ? & ? & pairs & [= <-] & [= <-] & [= <-] & [= <-]
                & [= Hpl] & Hnn & Hres & Hps & Hconn & Hdeg).
        assert (pairs = pairs') as ->.
        { pose proof (unpack_edges_pairs pairs) as Hu.
          rewrite <- Hpl, unpack_edges_pairs in Hu. congruence. }
        rewrite (proj2 H1 Hnn), (proj2 H2 Hres). cbn [app].
        rewrite (proj2 Hc Hconn). cbn [app].
        by apply degrees_nil.
    + destruct (is_connected set_iter (Network.init nn rs pairs)) as [c|] eqn:Ec.
      * eexists _, _. split; [reflexivity|].
        split; [apply bool_decide_eq_true|]. rewrite bool_decide_eq_true.
        split.
        -- intros H. apply app_eq_nil in H as [_ H].
           apply app_eq_nil in H as [_ H]. apply app_eq_nil in H as [H _]. done.
        -- intros (? & ? & ? & ? & pairs0 & _ & _ & _ & [= <-] & [= ->] & _
                   & _ & Hps & _).
           exfalso. apply He3, H3. by exists pairs0.
      * exfalso.
        pose proof (is_connected_run set_iter set_iter_perm
                      (Network.init nn rs pairs)) as H.
        destruct (set_iter _) in H.
        -- destruct H as [_ H]. congruence.
        -- destruct H as (V & _ & H & _). congruence.
Qed.

(** X13. [validate_network] returns [(is_valid, errors)] with [is_valid]
    true exactly when [errors] is empty, and that is exactly when the
    configuration has all five fields, [num_nodes] is the number of keys of
    [resources], every node has at least one resource, every edge is a pair
    of two different nodes of [resources], every node can be reached from
    every node, and every degree lies between [min_neighbors] and
    [max_neighbors]. *)
Theorem validate_network_spec config :
  ∃ b errors,
    validate_network set_iter dict_items config = Some (b, errors) ∧
    (b = true ↔ errors = []) ∧
    (b = true ↔ config_accepted config).
Proof. apply validate_network_run. Qed.

End Validator.

(** ** Concrete runs of the further properties *)

Lemma map_to_list_items (m : gmap string (list string)) :
  map_to_list m ≡ₚ map_to_list m.
Proof. reflexivity. Qed.

(** The validation of the two configurations. *)
Example validate_ring :
  validate_network elements map_to_list ring_config
  = Some (false, [NoResources "B"; NoResources "D"]).
Proof. vm_compute. reflexivity. Qed.

Example validate_full_ring :
  validate_network elements map_to_list full_ring_config = Some (true, []).
Proof. vm_compute. reflexivity. Qed.

(** Two nodes, each with an edge to a node that is not in [resources]:
    the traversal from either visits two nodes, and [is_connected] says
    [True] although neither node reaches the other. *)
Example is_connected_counts_strangers :
  is_connected elements
    (Network.init 2 (<["A" := ["x"]]> (<["B" := ["w"]]> ∅))
       [("A", "X"); ("B", "Y")]) = Some true.
Proof. vm_compute. reflexivity. Qed.

Lemma invalid_start_node_ring :
  let R := {| found := false; messages := 0; nodes_visited := 0; path := [];
              all_visited := None |} in
  flooding elements "Q" "y" 3 (store0 ring) = (Ok R, store0 ring) ∧
  informed_flooding elements "Q" "y" 3 None (store0 ring)
  = (Ok R, cache_param_store None (store0 ring)) ∧
  random_walk elements "Q" "y" 3 (store0 ring) = (Ok R, store0 ring) ∧
  informed_random_walk elements "Q" "y" 3 None (store0 ring)
  = (Ok R, cache_param_store None (store0 ring)).
Proof.
  apply (invalid_start_node elements "Q" "y" 3 None (store0 ring)).
  by vm_compute.
Defined.

Lemma nothing_to_probe_ring :
  (∃ R, flooding elements "B" "y" 0 (store0 ring) = (Ok R, store0 ring) ∧
        nothing_probed "B" R ∧ all_visited R = Some ["B"]) ∧
  (∃ R, informed_flooding elements "B" "y" 0 (Some Cache.init) (store0 ring)
        = (Ok R, cache_param_store (Some Cache.init) (store0 ring)) ∧
        nothing_probed "B" R ∧ all_visited R = None) ∧
  (∃ R, random_walk elements "B" "y" 0 (store0 ring) = (Ok R, store0 ring) ∧
        nothing_probed "B" R) ∧
  (∃ R, informed_random_walk elements "B" "y" 0 (Some Cache.init)
          (store0 ring)
        = (Ok R, cache_param_store (Some Cache.init) (store0 ring)) ∧
        nothing_probed "B" R).
Proof.
  apply (nothing_to_probe elements elements_iter "B" "y" 0 (Some Cache.init)
           (store0 ring)).
  - by vm_compute.
  - reflexivity.
  - reflexivity.
  - left. lia.
Defined.

Lemma walk_reports_its_way_ring :
  (∃ R s', random_walk elements "A" "y" 3 (store0 ring) = (Ok R, s') ∧
           walk_trace_post ring "A" "y" 3 R) ∧
  (∃ R s', informed_random_walk elements "A" "y" 3 None (store0 ring)
           = (Ok R, s') ∧
           (walk_trace_post ring "A" "y" 3 R ∨
            Cache.has (st_cache (cache_param_store None (store0 ring))) "A" "y"
            = true ∧ R = result_at_start "A")).
Proof.
  apply (walk_reports_its_way elements elements_iter "A" "y" 3 None
           (store0 ring)).
  by vm_compute.
Defined.

Lemma flooding_finds_within_ttl_ring :
  ∃ R, flooding elements "A" "y" 3 (store0 ring) = (Ok R, store0 ring) ∧
       (found R = true ↔
        ∃ t, within ring "A" 3 t ∧ Network.has_resource ring t "y" = true) ∧
       (found R = true → found_ok ring "A" "y" 3 R) ∧
       (found R = false → ∀ b, within ring "A" 3 b → b ∈ path R).
Proof.
  apply (flooding_finds_within_ttl elements elements_iter "A" "y" 3
           (store0 ring)).
  - by vm_compute.
  - lia.
Defined.

Lemma informed_flooding_as_flooding_ring :
  ∃ Rb Ri si',
    flooding elements "A" "y" 3 (store0 ring) = (Ok Rb, store0 ring) ∧
    informed_flooding elements "A" "y" 3 None (store0 ring) = (Ok Ri, si') ∧
    found Ri = found Rb ∧ path Ri = path Rb ∧
    nodes_visited Ri = nodes_visited Rb ∧ (messages Ri ≤ messages Rb)%Z.
Proof.
  apply (informed_flooding_as_flooding elements elements_iter "A" "y" 3 None
           (store0 ring)).
  - intros n. apply not_true_is_false.
    intros H%Cache_has_negative_update_from_network. discriminate H.
  - intros H. apply Cache_has_update_from_network in H as [H|H]; [exact H|].
    discriminate H.
Defined.

Lemma informed_search_extends_cache_ring :
  let c0 := st_cache (cache_param_store None (store0 ring)) in
  (∃ R s', informed_flooding elements "A" "y" 3 None (store0 ring)
           = (Ok R, s') ∧ cache_extends ring "y" c0 (st_cache s')) ∧
  (∃ R s', informed_random_walk elements "A" "y" 3 None (store0 ring)
           = (Ok R, s') ∧ cache_extends ring "y" c0 (st_cache s')).
Proof.
  exact (informed_search_extends_cache elements elements_iter "A" "y" 3 None
           (store0 ring)).
Defined.

Lemma is_connected_spec_ring : ∃ b, is_connected elements ring = Some b.
Proof.
  pose proof (is_connected_spec elements elements_iter ring) as H.
  destruct (elements (Network.get_all_nodes ring)).
  - destruct H as [_ H]. eexists. exact H.
  - destruct H as (V & _ & H & _). eexists. exact H.
Defined.

Lemma validate_network_spec_ring :
  ∃ b errors,
    validate_network elements map_to_list full_ring_config = Some (b, errors) ∧
    (b = true ↔ errors = []) ∧
    (b = true ↔ config_accepted full_ring_config).
Proof.
  exact (validate_network_spec elements map_to_list elements_iter
           map_to_list_items full_ring_config).
Defined.

(** ** The cost of a breadth-first search *)

Lemma degree_sum_insert network (X : gset string) x :
  x ∉ X →
  degree_sum network ({[x]} ∪ X)
  = (size (Network.get_neighbors network x) + degree_sum network X)%nat.
Proof.
  intros Hx. unfold degree_sum.
  by rewrite (elements_union_singleton X x Hx).
Qed.

Lemma degree_sum_mono network (X Y : gset string) :
  X ⊆ Y → (degree_sum network X ≤ degree_sum network Y)%nat.
Proof.
  intros HXY. assert (Y = X ∪ Y ∖ X) as -> by (apply union_difference_L; done).
  unfold degree_sum. rewrite elements_disj_union by set_solver.
  rewrite sum_list_with_app. lia.
Qed.

Lemma queue_nodes_app q1 q2 :
  queue_nodes (q1 ++ q2) = queue_nodes q1 ++ queue_nodes q2.
Proof. unfold queue_nodes. by rewrite !fmap_app. Qed.

Lemma cost_for_post_nil v :
  NoDup (queue_nodes (bv_queue v)) →
  (∀ x, x ∈ queue_nodes (bv_queue v) → x ∈ bv_visited v) →
  cost_for_post [] v (inr v).
Proof. intros H1 H2. simpl. split_and!; try done; [auto|set_solver|lia]. Qed.

Lemma cost_for_post_skip x l v r :
  cost_for_post l {| bv_visited := bv_visited v; bv_queue := bv_queue v;
                     bv_messages := bv_messages v + 1;
                     bv_nodes_visited := bv_nodes_visited v |} r →
  cost_for_post (x :: l) v r.
Proof.
  destruct r as [R|v']; simpl.
  - lia.
  - intros (H1 & H2 & H3 & H4 & H5 & H6).
    split_and!; try done; [set_solver|lia].
Qed.

Lemma cost_for_post_visit x l v (q : list (string * Z * list string)) r :
  x ∉ bv_visited v →
  (∀ y, y ∈ queue_nodes (bv_queue v) → y ∈ bv_visited v) →
  (q = bv_queue v ∨ ∃ e, q = bv_queue v ++ [e] ∧ e.1.1 = x) →
  cost_for_post l {| bv_visited := {[x]} ∪ bv_visited v; bv_queue := q;
                     bv_messages := bv_messages v + 1;
                     bv_nodes_visited := bv_nodes_visited v + 1 |} r →
  cost_for_post (x :: l) v r.
Proof.
  intros Hx Hqv Hq. destruct r as [R|v']; simpl.
  - lia.
  - intros (H1 & H2 & H3 & H4 & H5 & H6).
    split_and!; try done; [|set_solver|set_solver|lia].
    intros y Hy. destruct (H3 y Hy) as [Hin|Hnot].
    + destruct Hq as [->|(e & -> & He)]; [by left|].
      rewrite queue_nodes_app in Hin. apply elem_of_app in Hin as [?|Hin];
        [by left|].
      right. unfold queue_nodes in Hin. simpl in Hin.
      apply list_elem_of_singleton in Hin. congruence.
    + right. set_solver.
Qed.

Lemma queue_step_ok x (v : BfsVars) (b : bool) e :
  e.1.1 = x →
  x ∉ bv_visited v →
  NoDup (queue_nodes (bv_queue v)) →
  (∀ y, y ∈ queue_nodes (bv_queue v) → y ∈ bv_visited v) →
  let q := if b then bv_queue v ++ [e] else bv_queue v in
  NoDup (queue_nodes q) ∧
  (∀ y, y ∈ queue_nodes q → y ∈ {[x]} ∪ bv_visited v) ∧
  (q = bv_queue v ∨ ∃ e, q = bv_queue v ++ [e] ∧ e.1.1 = x).
Proof.
  intros He Hx Hnd Hqv q. subst q. destruct b.
  - rewrite queue_nodes_app. unfold queue_nodes at 2 4. simpl. rewrite He.
    split_and!.
    + apply NoDup_app. split_and!; [done| |apply NoDup_singleton].
      intros y Hy ->%list_elem_of_singleton. by apply Hx, Hqv.
    + intros y [Hy|Hy]%elem_of_app; [set_solver|].
      apply list_elem_of_singleton in Hy. set_solver.
    + right. by exists e.
  - split_and!; [done|set_solver|by left].
Qed.

Section Cost.

Variable set_iter : gset string → list string.
Hypothesis set_iter_perm : ∀ s, set_iter s ≡ₚ elements s.

Lemma flooding_for_cost resource ttl d p :
  ∀ l v s r s',
    NoDup (queue_nodes (bv_queue v)) →
    (∀ x, x ∈ queue_nodes (bv_queue v) → x ∈ bv_visited v) →
    flooding_for set_iter resource ttl d p l v s = (Ok r, s') →
    cost_for_post l v r.
Proof.
  induction l as [|x l IH]; intros v s r s' Hnd Hqv.
  - intros [= <- _]. by apply cost_for_post_nil.
  - simpl flooding_for. case_bool_decide as Hx.
    + unfold bind, network_call.
      destruct (Network.has_resource _ _ _).
      * intros [= <- _]. simpl. lia.
      * intros H.
        destruct (queue_step_ok x v (d + 1 <? ttl)%Z
                    (x, (d + 1)%Z, p ++ [x]) eq_refl Hx Hnd Hqv)
          as (Q1 & Q2 & Q3).
        eapply cost_for_post_visit; [done|done|exact Q3|].
        eapply IH; [| |exact H]; done.
    + intros H. apply cost_for_post_skip. eapply IH; [| |exact H]; done.
Qed.

Lemma informed_flooding_for_cost resource ttl d p :
  ∀ l v s r s',
    NoDup (queue_nodes (bv_queue v)) →
    (∀ x, x ∈ queue_nodes (bv_queue v) → x ∈ bv_visited v) →
    informed_flooding_for resource ttl d p l v s = (Ok r, s') →
    cost_for_post l v r.
Proof.
  induction l as [|x l IH]; intros v s r s' Hnd Hqv.
  - intros [= <- _]. by apply cost_for_post_nil.
  - simpl informed_flooding_for. case_bool_decide as Hx.
    + unfold bind, network_call, cache_update, ret.
      destruct (Network.has_resource _ _ _).
      * intros [= <- _]. simpl. lia.
      * intros H.
        destruct (queue_step_ok x v (d + 1 <? ttl)%Z
                    (x, (d + 1)%Z, p ++ [x]) eq_refl Hx Hnd Hqv)
          as (Q1 & Q2 & Q3).
        eapply cost_for_post_visit; [done|done|exact Q3|].
        eapply IH; [| |exact H]; done.
    + intros H. apply cost_for_post_skip. eapply IH; [| |exact H]; done.
Qed.

Lemma set_iter_length s : length (set_iter s) = size s.
Proof. by rewrite set_iter_perm. Qed.

(** After the expansion of [cur], taken from the front of the queue. *)
Lemma cost_inv_expand network W X v cur d p rest l r R :
  cost_inv network W X v →
  bv_queue v = (cur, d, p) :: rest →
  (length l ≤ size (Network.get_neighbors network cur))%nat →
  list_to_set l ⊆ W →
  cost_for_post l {| bv_visited := bv_visited v; bv_queue := rest;
                     bv_messages := bv_messages v;
                     bv_nodes_visited := bv_nodes_visited v |} r →
  match r with
  | inl R' => R = R' → (messages R ≤ Z.of_nat (degree_sum network W))%Z
  | inr v' => cost_inv network W ({[cur]} ∪ X) v'
  end.
Proof.
  intros (Hnd & Hqv & HVW & HXV & HqX & Hm) Hq Hlen HlW.
  rewrite Hq in Hnd, Hqv, HqX. unfold queue_nodes in Hnd, Hqv, HqX.
  simpl in Hnd, Hqv, HqX. apply NoDup_cons in Hnd as [Hcur Hnd].
  assert (cur ∉ X) as HcX by (apply HqX; by left).
  assert (cur ∈ bv_visited v) as HcV by (apply Hqv; by left).
  pose proof (degree_sum_insert network X cur HcX) as Hsum.
  destruct r as [R'|v']; simpl.
  - intros Hr ->.
    assert (degree_sum network ({[cur]} ∪ X) ≤ degree_sum network W)%nat
      by (apply degree_sum_mono; set_solver).
    lia.
  - intros (H1 & H2 & H3 & H4 & H5 & H6). split_and!.
    + done.
    + done.
    + set_solver.
    + set_solver.
    + intros x Hx [Hxc|HxX]%elem_of_union.
      * apply elem_of_singleton in Hxc as ->.
        destruct (H3 cur Hx) as [Hin|Hnot]; [by apply Hcur|by apply Hnot].
      * destruct (H3 x Hx) as [Hin|Hnot].
        -- apply (HqX x); [by right|done].
        -- apply Hnot, HXV, HxX.
    + lia.
Qed.

Lemma cost_inv_skip network W X v cur d p rest :
  cost_inv network W X v →
  bv_queue v = (cur, d, p) :: rest →
  cost_inv network W X
    {| bv_visited := bv_visited v; bv_queue := rest;
       bv_messages := bv_messages v;
       bv_nodes_visited := bv_nodes_visited v |}.
Proof.
  intros (Hnd & Hqv & HVW & HXV & HqX & Hm) Hq.
  rewrite Hq in Hnd, Hqv, HqX. unfold queue_nodes in Hnd, Hqv, HqX.
  simpl in Hnd, Hqv, HqX. apply NoDup_cons in Hnd as [Hcur Hnd].
  split_and!; try done.
  - intros x Hx. apply Hqv. by right.
  - intros x Hx. apply HqX. by right.
Qed.

Lemma flooding_while_cost network W resource ttl :
  (∀ n, list_to_set (set_iter (Network.get_neighbors network n)) ⊆ W) →
  ∀ fuel v X s R s',
    st_network s = network →
    cost_inv network W X v →
    flooding_while set_iter fuel resource ttl v s = (Ok R, s') →
    (messages R ≤ Z.of_nat (degree_sum network W))%Z.
Proof.
  intros HW. induction fuel as [|fuel IH]; intros v X s R s' Hs Hinv; [done|].
  simpl flooding_while.
  destruct (bv_queue v) as [|[[cur d] p] rest] eqn:Hq.
  - intros [= <- _]. simpl.
    destruct Hinv as (_ & _ & HVW & HXV & _ & Hm).
    assert (degree_sum network X ≤ degree_sum network W)%nat
      by (apply degree_sum_mono; set_solver).
    lia.
  - destruct (d >=? ttl)%Z.
    + apply IH with (X := X); [done|]. by eapply cost_inv_skip.
    + unfold bind at 1, network_call. rewrite Hs. unfold bind.
      destruct (flooding_for_spec set_iter resource ttl d p
                  (set_iter (Network.get_neighbors network cur))
                  {| bv_visited := bv_visited v; bv_queue := rest;
                     bv_messages := bv_messages v;
                     bv_nodes_visited := bv_nodes_visited v |} s)
        as (r & E & _).
      rewrite E.
      pose proof (cost_inv_skip _ _ _ _ _ _ _ _ Hinv Hq) as (Hnd & Hqv & _).
      apply flooding_for_cost in E; [|done..].
      assert (length (set_iter (Network.get_neighbors network cur))
              ≤ size (Network.get_neighbors network cur))%nat as Hlen
        by (by rewrite set_iter_length).
      pose proof (cost_inv_expand network W X v cur d p rest _ r R Hinv Hq
                    Hlen (HW cur) E) as Hexp.
      destruct r as [R'|v'].
      * intros [= <- _]. by apply Hexp.
      * intros H. eapply IH; [exact Hs|exact Hexp|exact H].
Qed.

Lemma informed_flooding_while_cost network W resource ttl :
  (∀ n, list_to_set (set_iter (Network.get_neighbors network n)) ⊆ W) →
  ∀ fuel v X s R s',
    st_network s = network →
    cost_inv network W X v →
    informed_flooding_while set_iter fuel resource ttl v s = (Ok R, s') →
    (messages R ≤ Z.of_nat (degree_sum network W))%Z.
Proof.
  intros HW. induction fuel as [|fuel IH]; intros v X s R s' Hs Hinv; [done|].
  simpl informed_flooding_while.
  destruct (bv_queue v) as [|[[cur d] p] rest] eqn:Hq.
  - intros [= <- _]. simpl.
    destruct Hinv as (_ & _ & HVW & HXV & _ & Hm).
    assert (degree_sum network X ≤ degree_sum network W)%nat
      by (apply degree_sum_mono; set_solver).
    lia.
  - destruct (d >=? ttl)%Z.
    + apply IH with (X := X); [done|]. by eapply cost_inv_skip.
    + unfold bind at 1 2, network_call, cache_call. rewrite Hs. unfold bind.
      set (l := filter _ _).
      destruct (informed_flooding_for_spec resource ttl d p l
                  {| bv_visited := bv_visited v; bv_queue := rest;
                     bv_messages := bv_messages v;
                     bv_nodes_visited := bv_nodes_visited v |} s)
        as (r & s1 & E & [Hs1 _] & _).
      rewrite E.
      pose proof (cost_inv_skip _ _ _ _ _ _ _ _ Hinv Hq) as (Hnd & Hqv & _).
      apply informed_flooding_for_cost in E; [|done..].
      assert (length l ≤ size (Network.get_neighbors network cur))%nat
        as Hlen.
      { rewrite <- set_iter_length. apply length_filter. }
      assert (list_to_set l ⊆ W) as HlW.
      { intros x Hx. apply (HW cur). apply elem_of_list_to_set.
        apply elem_of_list_to_set in Hx. unfold l in Hx.
        by apply list_elem_of_filter in Hx as [_ Hx]. }
      pose proof (cost_inv_expand network W X v cur d p rest _ r R Hinv Hq
                    Hlen HlW E) as Hexp.
      destruct r as [R'|v'].
      * intros [= <- _]. by apply Hexp.
      * intros H. eapply IH; [|exact Hexp|exact H]. by rewrite Hs1.
Qed.

Lemma cost_inv_init network W start_node :
  start_node ∈ W →
  cost_inv network W ∅ (bfs_init start_node).
Proof.
  intros Hs. unfold cost_inv, queue_nodes. simpl. split_and!.
  - apply NoDup_singleton.
  - intros x ->%list_elem_of_singleton. set_solver.
  - set_solver.
  - set_solver.
  - set_solver.
  - lia.
Qed.

(** X14. On a network whose neighbours are all nodes, [flooding] and
    [informed_flooding] return, and neither sends more messages than the
    sum of the degrees of the nodes: every node is expanded at most once,
    and an expansion sends at most one message per neighbour. *)
Theorem flooding_messages_bounded start_node resource ttl cache s :
  neighbors_are_nodes (st_network s) →
  ∃ Rb Ri si,
    flooding set_iter start_node resource ttl s = (Ok Rb, s) ∧
    informed_flooding set_iter start_node resource ttl cache s
      = (Ok Ri, si) ∧
    (messages Rb ≤ Z.of_nat (degree_sum (st_network s)
                     (Network.get_all_nodes (st_network s))))%Z ∧
    (messages Ri ≤ Z.of_nat (degree_sum (st_network s)
                     (Network.get_all_nodes (st_network s))))%Z.
Proof.
  intros Hnodes.
  destruct (flooding_spec set_iter set_iter_perm start_node resource ttl s)
    as (Rb & Eb & _).
  destruct (informed_flooding_spec set_iter set_iter_perm start_node resource
              ttl cache s) as (Ri & si & Ei & _).
  exists Rb, Ri, si. split; [done|]. split; [done|].
  assert (∀ n, list_to_set (set_iter (Network.get_neighbors (st_network s) n))
               ⊆ Network.get_all_nodes (st_network s)) as HW.
  { intros n x Hx. apply elem_of_list_to_set in Hx.
    apply (set_iter_elem set_iter set_iter_perm) in Hx.
    by apply all_neighbors_nodes, (all_neighbors_spec _ n). }
  split.
  - revert Eb. unfold flooding, bind, network_call, ret.
    case_bool_decide as Hstart; [intros [= <-]; simpl; lia|].
    destruct (Network.has_resource _ _ _); [intros [= <-]; simpl; lia|].
    apply flooding_while_cost with (X := ∅); [done|done|].
    apply cost_inv_init.
    destruct (decide (start_node ∈ Network.get_all_nodes (st_network s)));
      [done|contradiction].
  - revert Ei. unfold informed_flooding.
    unfold bind at 1.
    rewrite cache_param_run.
    unfold bind, network_call, cache_call, cache_update, ret.
    change (st_network (cache_param_store cache s)) with (st_network s).
    case_bool_decide as Hstart; [intros [= <- _]; simpl; lia|].
    destruct (Cache.has _ _ _); [intros [= <- _]; simpl; lia|].
    destruct (Network.has_resource _ _ _); [intros [= <- _]; simpl; lia|].
    cbn [st_network].
    apply informed_flooding_while_cost with (X := ∅); [done|done|].
    apply cost_inv_init.
    destruct (decide (start_node ∈ Network.get_all_nodes (st_network s)));
      [done|contradiction].
Qed.

End Cost.

(** The ring has four edges: its degrees add up to eight. *)
Example ring_degree_sum :
  degree_sum ring (Network.get_all_nodes ring) = 8%nat.
Proof. by vm_compute. Qed.

Lemma flooding_messages_bounded_ring :
  ∃ Rb Ri si,
    flooding elements "A" "y" 3 (store0 ring) = (Ok Rb, store0 ring) ∧
    informed_flooding elements "A" "y" 3 None (store0 ring) = (Ok Ri, si) ∧
    (messages Rb ≤ Z.of_nat (degree_sum ring (Network.get_all_nodes ring)))%Z ∧
    (messages Ri ≤ Z.of_nat (degree_sum ring (Network.get_all_nodes ring)))%Z.
Proof.
  exact (flooding_messages_bounded elements elements_iter "A" "y" 3 None
           (store0 ring) ring_valid).
Defined.
